(** * render-md: the text pipeline of [src/App.tsx]

    [normalizeMarkdown] and [splitIntoPages] are written with JavaScript
    regular expressions.  The development embeds
    - JavaScript strings as lists of UTF-16 code units,
    - the backtracking matcher of ECMAScript (continuation-passing, as in
      the language definition) for the pattern constructs the file uses,
    - [String.prototype.replace] with a global pattern,
      [String.prototype.split] with a pattern, [String.prototype.trim],
    and then the two functions of the file on top of them.  The sheets
    that [App] renders from the pages are embedded as data. *)

From Stdlib Require Import Ascii String.
From Stdlib Require Import List NArith ZArith Arith Bool Lia.
Import ListNotations.

(** ** Strings *)

(** A UTF-16 code unit (a number below 2^16; no theorem needs the
    bound). *)
Definition cu := N.

(** A JavaScript string: its sequence of code units. *)
Definition jsstring := list cu.

(** An ASCII literal as a JavaScript string. *)
Definition js (s : string) : jsstring :=
  map N_of_ascii (list_ascii_of_string s).

Definition LF : cu := 0x0A%N.
Definition TAB : cu := 0x09%N.
Definition DQUOTE : cu := 0x22%N.
Definition SQUOTE : cu := 0x27%N.
Definition BOM : cu := 0xFEFF%N.
Definition ZWSP : cu := 0x200B%N.

(** The Thai word of the chapter-heading rule, as the six code units of the
    source literal: U+0E15 U+0E2D U+0E19 U+0E17 U+0E35 U+0E48. *)
Definition thai_chapter : jsstring :=
  [0x0E15; 0x0E2D; 0x0E19; 0x0E17; 0x0E35; 0x0E48]%N.

(** LineTerminator: LF, CR, LS, PS. *)
Definition isLineTerminator (c : cu) : bool :=
  ((c =? 0x0A) || (c =? 0x0D) || (c =? 0x2028) || (c =? 0x2029))%N.

(** WhiteSpace: TAB, VT, FF, ZWNBSP and the space separators (category Zs). *)
Definition isWhiteSpace (c : cu) : bool :=
  ((c =? 0x09) || (c =? 0x0B) || (c =? 0x0C) || (c =? 0xFEFF)
   || (c =? 0x20) || (c =? 0xA0) || (c =? 0x1680)
   || ((0x2000 <=? c) && (c <=? 0x200A))
   || (c =? 0x202F) || (c =? 0x205F) || (c =? 0x3000))%N.

(** What [\s] matches and what [trim] strips: WhiteSpace or LineTerminator. *)
Definition isSpace (c : cu) : bool := isWhiteSpace c || isLineTerminator c.

(** ** Regular expressions *)

Module RegExp.

(** Members of a character class. *)
Inductive class_item :=
| CChar (c : cu)
| CSpace.

(** A pattern that consumes exactly one code unit. *)
Inductive atom :=
| AChar (c : cu)
| AClass (invert : bool) (items : list class_item).

(** The pattern syntax used by the file.  Every quantifier of the source
    is greedy, unbounded above and applied to a one-character atom:
    [Repeat min a] is [a{min,}], so [a*] is [Repeat 0 a] and [a+] is
    [Repeat 1 a]. *)
Inductive regex :=
| Empty
| Atom (a : atom)
| Repeat (min : nat) (a : atom)
| AssertStart
| AssertEnd
| Seq (r1 r2 : regex)
| Alt (r1 r2 : regex)
| Group (n : nat) (r : regex).

Record flags := mkFlags { ignoreCase : bool; multiline : bool }.

(** The literal pattern for a string. *)
Fixpoint lit (s : jsstring) : regex :=
  match s with
  | [] => Empty
  | c :: s' => Seq (Atom (AChar c)) (lit s')
  end.

(** Canonicalize, for a pattern without the [u] flag.  With [ignoreCase]
    a code unit is replaced by its upper-case form.  The result for a code
    unit of 128 or more is never below 128, and every literal character of
    the patterns below is ASCII (or has no case, as the members of [\s]),
    so only the ASCII letters are folded here. *)
Definition canonicalize (ic : bool) (c : cu) : cu :=
  if (ic && (0x61 <=? c) && (c <=? 0x7A))%N then (c - 0x20)%N else c.

Definition item_has (ic : bool) (cc : cu) (it : class_item) : bool :=
  match it with
  | CChar a => (canonicalize ic a =? cc)%N
  | CSpace => isSpace cc
  end.

(** CharacterSetMatcher: does the atom accept the code unit [ch]? *)
Definition atom_test (ic : bool) (a : atom) (ch : cu) : bool :=
  let cc := canonicalize ic ch in
  match a with
  | AChar c => (canonicalize ic c =? cc)%N
  | AClass invert items => xorb invert (existsb (item_has ic cc) items)
  end.

(** MatchState: the input as a zipper around [endIndex] (the code units
    before it, nearest first, and those from it on) and the captures. *)
Record MatchState := mkState {
  consumed : list cu;
  remaining : list cu;
  captures : list (nat * jsstring)
}.

Definition endIndex (x : MatchState) : nat := length (consumed x).

Definition MatchResult := option MatchState.
Definition Continuation := MatchState -> MatchResult.

(** RepeatMatcher for a greedy [a{min,}]: one more [a] first, the
    continuation here only when that fails and [min] is reached. *)
Fixpoint repeat_matcher (test : cu -> bool) (min : nat)
    (pre rest : list cu) (caps : list (nat * jsstring)) (c : Continuation)
    {struct rest} : MatchResult :=
  let stop := match min with
              | O => c (mkState pre rest caps)
              | S _ => None
              end in
  match rest with
  | ch :: rest' =>
      if test ch then
        match repeat_matcher test (Nat.pred min) (ch :: pre) rest' caps c with
        | Some z => Some z
        | None => stop
        end
      else stop
  | [] => stop
  end.

(** The code units matched between two states of one match. *)
Definition matched (x y : MatchState) : jsstring :=
  rev (firstn (endIndex y - endIndex x) (consumed y)).

(** The assertions [^] and [$]: the start (end) of the input, or with the
    [m] flag a position just after (before) a line terminator. *)
Definition line_start (fl : flags) (pre : list cu) : bool :=
  match pre with
  | [] => true
  | p :: _ => multiline fl && isLineTerminator p
  end.

Definition line_end (fl : flags) (rest : list cu) : bool :=
  match rest with
  | [] => true
  | n :: _ => multiline fl && isLineTerminator n
  end.

Fixpoint matcher (fl : flags) (r : regex) (x : MatchState) (c : Continuation)
    : MatchResult :=
  match r with
  | Empty => c x
  | Atom a =>
      match remaining x with
      | ch :: rest =>
          if atom_test (ignoreCase fl) a ch
          then c (mkState (ch :: consumed x) rest (captures x))
          else None
      | [] => None
      end
  | Repeat min a =>
      repeat_matcher (atom_test (ignoreCase fl) a) min
        (consumed x) (remaining x) (captures x) c
  | AssertStart => if line_start fl (consumed x) then c x else None
  | AssertEnd => if line_end fl (remaining x) then c x else None
  | Seq r1 r2 => matcher fl r1 x (fun y => matcher fl r2 y c)
  | Alt r1 r2 =>
      match matcher fl r1 x c with
      | Some z => Some z
      | None => matcher fl r2 x c
      end
  | Group n r' =>
      matcher fl r' x
        (fun y => c (mkState (consumed y) (remaining y)
                             ((n, matched x y) :: captures y)))
  end.

(** One attempt of the pattern at the position between [pre] and [rest]. *)
Definition exec_at (fl : flags) (r : regex) (pre rest : list cu)
    : MatchResult :=
  matcher fl r (mkState pre rest []) Some.

Definition capture (n : nat) (y : MatchState) : jsstring :=
  match find (fun p => Nat.eqb (fst p) n) (captures y) with
  | Some p => snd p
  | None => []
  end.

End RegExp.

Import RegExp.

(** ** String methods *)

(** A replacement string, parsed: literal text and [$n] references. *)
Inductive repl_item :=
| RLit (s : jsstring)
| RCapture (n : nat).

(** GetSubstitution. *)
Definition substitution (t : list repl_item) (y : MatchState) : jsstring :=
  flat_map (fun it => match it with
                      | RLit s => s
                      | RCapture n => capture n y
                      end) t.

(** [s.replace(r, t)] for a global [r].  The search runs left to right;
    at a position where the pattern does not match, the code unit is kept
    and the search moves on by one; where it matches, the substitution is
    emitted and the search resumes at the end of the match, or one further
    on after an empty match.  The recursion is on the text: [skip] counts
    the matched code units still to step over before the search resumes
    (theorem [replace_scan_jump]: this is resuming from the state the
    matcher returned). *)
Fixpoint replace_scan (fl : flags) (r : regex) (t : list repl_item)
    (pre rest : list cu) (skip : nat) {struct rest} : jsstring :=
  match skip with
  | S k =>
      match rest with
      | [] => []
      | ch :: rest' => replace_scan fl r t (ch :: pre) rest' k
      end
  | O =>
      match exec_at fl r pre rest with
      | Some y =>
          substitution t y ++
          match rest with
          | [] => []
          | ch :: rest' =>
              match endIndex y - length pre with
              | O => ch :: replace_scan fl r t (ch :: pre) rest' 0
              | S k => replace_scan fl r t (ch :: pre) rest' k
              end
          end
      | None =>
          match rest with
          | [] => []
          | ch :: rest' => ch :: replace_scan fl r t (ch :: pre) rest' 0
          end
      end
  end.

Definition replace_all (fl : flags) (r : regex) (t : list repl_item)
    (s : jsstring) : jsstring :=
  replace_scan fl r t [] s 0.

(** [s.split(r)] for a pattern without capturing groups and no limit.
    [seg] is the current segment, the code units since the end of the last
    separator, nearest first.  The pattern is tried at every position
    before the end of the string; a match that is empty at the start of
    the segment does not split.  [skip] is as in [replace_scan] (theorem
    [split_scan_jump]). *)
Fixpoint split_scan (fl : flags) (r : regex)
    (seg pre rest : list cu) (skip : nat) {struct rest} : list jsstring :=
  match rest with
  | [] => [rev seg]
  | ch :: rest' =>
      match skip with
      | S k => split_scan fl r seg (ch :: pre) rest' k
      | O =>
          match exec_at fl r pre rest with
          | Some y =>
              match endIndex y - length pre, seg with
              | O, [] => split_scan fl r [ch] (ch :: pre) rest' 0
              | O, _ :: _ => rev seg :: split_scan fl r [ch] (ch :: pre) rest' 0
              | S k, _ => rev seg :: split_scan fl r [] (ch :: pre) rest' k
              end
          | None => split_scan fl r (ch :: seg) (ch :: pre) rest' 0
          end
      end
  end.

Definition split (fl : flags) (r : regex) (s : jsstring) : list jsstring :=
  match s with
  | [] =>
      match exec_at fl r [] [] with
      | Some _ => []
      | None => [[]]
      end
  | _ :: _ => split_scan fl r [] [] s 0
  end.

Fixpoint trimStart (s : jsstring) : jsstring :=
  match s with
  | [] => []
  | ch :: s' => if isSpace ch then trimStart s' else s
  end.

Definition trimEnd (s : jsstring) : jsstring := rev (trimStart (rev s)).

Definition trim (s : jsstring) : jsstring := trimEnd (trimStart s).

(** ** The patterns of [App.tsx] *)

(** The code unit of a one-character ASCII literal. *)
Definition chr (s : string) : cu :=
  match s with
  | String a _ => N_of_ascii a
  | EmptyString => 0%N
  end.

Definition flags_g : flags := mkFlags false false.
Definition flags_gm : flags := mkFlags false true.
Definition flags_gi : flags := mkFlags true false.

Notation "r1 ;; r2" := (Seq r1 r2) (at level 61, right associativity).

(** [/\uFEFF|\u200B/g] *)
Definition re_marks : regex := Alt (Atom (AChar BOM)) (Atom (AChar ZWSP)).

Definition blank_class : atom := AClass false [CChar (chr " "); CChar TAB].
Definition rule_class : atom :=
  AClass false [CChar (chr "-"); CChar (chr "*"); CChar (chr "_")].

(** [/^[ \t]*[-*_]{3,}[ \t]*$/gm] *)
Definition re_rule : regex :=
  AssertStart ;; Repeat 0 blank_class ;; Repeat 3 rule_class ;;
  Repeat 0 blank_class ;; AssertEnd.

(** The token [**] followed by the Thai word. *)
Definition chapter_token : jsstring := js "**" ++ thai_chapter.

(** [/\n(\*\*...)/g], with the Thai word in the group. *)
Definition re_chapter : regex := Atom (AChar LF) ;; Group 1 (lit chapter_token).

Definition space_class : atom := AClass false [CSpace].
Definition not_gt : atom := AClass true [CChar (chr ">")].
Definition quote : atom := AClass false [CChar SQUOTE; CChar DQUOTE].
Definition not_quote : atom := AClass true [CChar SQUOTE; CChar DQUOTE].

(** [/<div\s+[^>]*style=['"][^'"]*page-break-after:\s*always[^'"]*['"][^>]*><\/div>/gi] *)
Definition re_break : regex :=
  lit (js "<div") ;; Repeat 1 space_class ;; Repeat 0 not_gt ;;
  lit (js "style=") ;; Atom quote ;; Repeat 0 not_quote ;;
  lit (js "page-break-after:") ;; Repeat 0 space_class ;;
  lit (js "always") ;; Repeat 0 not_quote ;; Atom quote ;;
  Repeat 0 not_gt ;; lit (js "></div>").

(** [/\s+/g] *)
Definition re_spaces : regex := Repeat 1 space_class.

(** [/&nbsp;/g] *)
Definition nbsp : jsstring := js "&nbsp;".
Definition re_nbsp : regex := lit nbsp.

(** ** The functions of [App.tsx] *)

Definition strip_marks (s : jsstring) : jsstring :=
  replace_all flags_g re_marks [] s.

Definition strip_rules (s : jsstring) : jsstring :=
  replace_all flags_gm re_rule [] s.

(** The replacement string ['\n\n$1']. *)
Definition chapter_template : list repl_item := [RLit [LF; LF]; RCapture 1].

Definition space_chapters (s : jsstring) : jsstring :=
  replace_all flags_g re_chapter chapter_template s.

Definition normalizeMarkdown (source : jsstring) : jsstring :=
  space_chapters (strip_rules (strip_marks source)).

(** The text the page filter measures. *)
Definition stripped (page : jsstring) : jsstring :=
  replace_all flags_g re_nbsp [] (replace_all flags_g re_spaces [] page).

Definition keep_page (page : jsstring) : bool :=
  0 <? length (stripped page).

Definition splitIntoPages (source : jsstring) : list jsstring :=
  let parts := split flags_gi re_break source in
  filter keep_page (map trim parts).

(** The memoised computation of [App]: normalise, then paginate. *)
Definition pages (markdown : jsstring) : list jsstring :=
  splitIntoPages (normalizeMarkdown markdown).

(** ** Inputs of the specification's scenarios *)

Definition marker_dq_semi : jsstring :=
  js "<div style=" ++ [DQUOTE] ++ js "page-break-after: always;" ++ [DQUOTE]
  ++ js "></div>".
Definition marker_sq : jsstring :=
  js "<div style='page-break-after:always'></div>".
Definition marker_dq : jsstring :=
  js "<div style=" ++ [DQUOTE] ++ js "page-break-after: always" ++ [DQUOTE]
  ++ js "></div>".

Definition scenario : jsstring :=
  js "Intro" ++ [LF] ++ marker_dq_semi ++ [LF; LF] ++ js "Chapter 1 text"
  ++ [LF] ++ marker_sq ++ [LF] ++ nbsp ++ [LF] ++ marker_dq ++ [LF]
  ++ js "Chapter 2".

(** ** Plain descriptions the theorems compare the code with *)

Definition is_mark (c : cu) : bool := ((c =? BOM) || (c =? ZWSP))%N.

(** [strip_prefix p s] is the rest of [s] after its prefix [p]. *)
Fixpoint strip_prefix (p s : jsstring) : option jsstring :=
  match p with
  | [] => Some s
  | a :: p' =>
      match s with
      | b :: s' => if (a =? b)%N then strip_prefix p' s' else None
      | [] => None
      end
  end.

Definition starts_with (p s : jsstring) : bool :=
  match strip_prefix p s with Some _ => true | None => false end.

(** Step 3 of [normalizeMarkdown] in plain words: every line feed that is
    directly followed by the chapter token is doubled. *)
Fixpoint double_breaks (s : jsstring) : jsstring :=
  match s with
  | [] => []
  | c :: s' =>
      if (c =? LF)%N && starts_with chapter_token s'
      then LF :: LF :: double_breaks s'
      else c :: double_breaks s'
  end.

(** [n] copies of the entity [&nbsp;]. *)
Definition nbsp_run (n : nat) : jsstring := concat (repeat nbsp n).

Definition not_space (c : cu) : bool := negb (isSpace c).

(** *** Lines

    A text as its first line and, for every line terminator, the terminator
    with the line after it. *)
Fixpoint split_lines (s : jsstring) : jsstring * list (cu * jsstring) :=
  match s with
  | [] => ([], [])
  | c :: s' =>
      let (l, tl) := split_lines s' in
      if isLineTerminator c then ([], (c, l) :: tl) else (c :: l, tl)
  end.

Definition join_lines (d : jsstring * list (cu * jsstring)) : jsstring :=
  fst d ++ flat_map (fun p => fst p :: snd p) (snd d).

Definition map_lines (f : jsstring -> jsstring)
    (d : jsstring * list (cu * jsstring)) : jsstring * list (cu * jsstring) :=
  (f (fst d), map (fun p => (fst p, f (snd p))) (snd d)).

Fixpoint skip_while (f : cu -> bool) (s : jsstring) : jsstring :=
  match s with
  | [] => []
  | c :: s' => if f c then skip_while f s' else s
  end.

Fixpoint run_length (f : cu -> bool) (s : jsstring) : nat :=
  match s with
  | [] => 0
  | c :: s' => if f c then S (run_length f s') else 0
  end.

Definition is_blank (c : cu) : bool := ((c =? chr " ") || (c =? TAB))%N.

Definition is_rule_char (c : cu) : bool :=
  ((c =? chr "-") || (c =? chr "*") || (c =? chr "_"))%N.

(** The lines step 2 of [normalizeMarkdown] empties: blanks, then three or
    more characters among [-], [*] and [_] in any mixture, then blanks. *)
Definition is_rule_line (l : jsstring) : bool :=
  let l1 := skip_while is_blank l in
  (3 <=? run_length is_rule_char l1) &&
  match skip_while is_blank (skip_while is_rule_char l1) with
  | [] => true
  | _ :: _ => false
  end.

Definition clear_rule (l : jsstring) : jsstring :=
  if is_rule_line l then [] else l.

(** ** What a match is

    [Matches fl r x y]: the pattern [r] can take the state [x] to the state
    [y].  The matcher searches these in its priority order. *)
Inductive Matches (fl : flags) : regex -> MatchState -> MatchState -> Prop :=
| MEmpty x : Matches fl Empty x x
| MAtom a ch pre rest caps :
    atom_test (ignoreCase fl) a ch = true ->
    Matches fl (Atom a) (mkState pre (ch :: rest) caps)
                        (mkState (ch :: pre) rest caps)
| MRepeat min a d pre rest caps :
    Forall (fun ch => atom_test (ignoreCase fl) a ch = true) d ->
    min <= length d ->
    Matches fl (Repeat min a) (mkState pre (d ++ rest) caps)
                              (mkState (rev d ++ pre) rest caps)
| MStart x : line_start fl (consumed x) = true -> Matches fl AssertStart x x
| MEnd x : line_end fl (remaining x) = true -> Matches fl AssertEnd x x
| MSeq r1 r2 x y z :
    Matches fl r1 x y -> Matches fl r2 y z -> Matches fl (Seq r1 r2) x z
| MAltL r1 r2 x y : Matches fl r1 x y -> Matches fl (Alt r1 r2) x y
| MAltR r1 r2 x y : Matches fl r2 x y -> Matches fl (Alt r1 r2) x y
| MGroup n r x y :
    Matches fl r x y ->
    Matches fl (Group n r) x
      (mkState (consumed y) (remaining y) ((n, matched x y) :: captures y)).

(** [y] is [x] moved forward over the code units [d]. *)
Definition ahead (d : list cu) (x y : MatchState) : Prop :=
  consumed y = rev d ++ consumed x /\ remaining x = d ++ remaining y.

(** ** Auxiliary definitions of the proofs *)

(** The rule pattern at one position, without the search: it needs a line
    start, skips blanks, takes three or more rule characters, skips blanks
    and needs a line end. *)
Definition rule_rest (rest : jsstring) : option jsstring :=
  let r1 := skip_while is_blank rest in
  if 3 <=? run_length is_rule_char r1 then
    let r3 := skip_while is_blank (skip_while is_rule_char r1) in
    if line_end flags_gm r3 then Some r3 else None
  else None.

Definition plain (c : cu) : Prop := isLineTerminator c = false.

(** [r] is empty or begins with a line terminator. *)
Definition at_break (r : jsstring) : Prop := line_end flags_gm r = true.

Definition scan_rules := replace_scan flags_gm re_rule [].

(** What the scan does from the end of a line on. *)
Definition after_line (l pre r : jsstring) : jsstring :=
  match r with
  | [] => []
  | t :: s1 => t :: scan_rules (t :: rev l ++ pre) s1 0
  end.

(** Well-formed line structures. *)
Definition lines_wf (d : jsstring * list (cu * jsstring)) : Prop :=
  Forall plain (fst d) /\
  Forall (fun p => isLineTerminator (fst p) = true /\ Forall plain (snd p))
         (snd d).


(** [s] contains a line feed directly followed by the chapter token. *)
Fixpoint has_break (s : jsstring) : bool :=
  match s with
  | [] => false
  | c :: s' => ((c =? LF)%N && starts_with chapter_token s') || has_break s'
  end.

(** The same on lines: a line that starts with the token, after a line
    feed; step 3 puts an empty line before it. *)
Definition is_chapter_break (p : cu * jsstring) : bool :=
  (fst p =? LF)%N && starts_with chapter_token (snd p).

Definition expand_entry (p : cu * jsstring) : list (cu * jsstring) :=
  if is_chapter_break p then [(LF, []); p] else [p].

Definition double_lines (d : jsstring * list (cu * jsstring))
    : jsstring * list (cu * jsstring) :=
  (fst d, flat_map expand_entry (snd d)).

(** No line of [d] is a rule line. *)
Definition rule_free (d : jsstring * list (cu * jsstring)) : Prop :=
  clear_rule (fst d) = fst d /\
  Forall (fun p => clear_rule (snd p) = snd p) (snd d).

Definition unlines (tl : list (cu * jsstring)) : jsstring :=
  flat_map (fun p => fst p :: snd p) tl.

(** *** Markers

    [matches_from fl r pre rest]: the pattern matches at some position from
    the current one on. *)
Fixpoint matches_from (fl : flags) (r : regex) (pre rest : list cu) : bool :=
  match exec_at fl r pre rest with
  | Some _ => true
  | None =>
      match rest with
      | [] => false
      | c :: rest' => matches_from fl r (c :: pre) rest'
      end
  end.

(** The text contains a page-break marker: the pattern of [splitIntoPages]
    matches somewhere in it. *)
Definition has_marker (s : jsstring) : bool :=
  matches_from flags_gi re_break [] s.

(** [p] is at the head of [s], letter case ignored, and occurs in [s]. *)
Fixpoint starts_with_ci (p s : jsstring) : bool :=
  match p with
  | [] => true
  | a :: p' =>
      match s with
      | b :: s' =>
          (canonicalize true a =? canonicalize true b)%N
          && starts_with_ci p' s'
      | [] => false
      end
  end.

Fixpoint occurs_ci (p s : jsstring) : bool :=
  starts_with_ci p s ||
  match s with
  | [] => false
  | _ :: s' => occurs_ci p s'
  end.

(** The property name with its colon, as the pattern spells it. *)
Definition property_colon : jsstring := js "page-break-after:".

(** Texts made of white space and [&nbsp;] entities only. *)
Inductive SpacesAndNbsp : jsstring -> Prop :=
| SN_nil : SpacesAndNbsp []
| SN_space c s : isSpace c = true -> SpacesAndNbsp s -> SpacesAndNbsp (c :: s)
| SN_nbsp s : SpacesAndNbsp s -> SpacesAndNbsp (nbsp ++ s).

(** [M] is a marker wherever it stands: the pattern matches it, and
    exactly it, whatever comes before and after. *)
Definition marker (M : jsstring) : Prop :=
  forall pre t, exists y,
    exec_at flags_gi re_break pre (M ++ t) = Some y /\ remaining y = t.

(** A text with no [<div] in it, in any letter case. *)
Definition divless (a : jsstring) : Prop := occurs_ci (js "<div") a = false.

(** [rest] is empty or begins with [<]. *)
Definition at_tag (rest : jsstring) : Prop :=
  match rest with
  | [] => True
  | c :: _ => c = chr "<"
  end.

(** The marker of the claim about white space before the colon. *)
Definition marker_space_colon : jsstring :=
  js "<div style=" ++ [DQUOTE] ++ js "page-break-after : always" ++ [DQUOTE]
  ++ js "></div>".

(** A pattern without [^] does not look at what was consumed. *)
Fixpoint no_lookbehind (r : regex) : bool :=
  match r with
  | AssertStart => false
  | Seq r1 r2 | Alt r1 r2 => no_lookbehind r1 && no_lookbehind r2
  | Group _ r' => no_lookbehind r'
  | _ => true
  end.

(** Two states of matches of one text started after different prefixes. *)
Definition shifted (p1 p2 : list cu) (x1 x2 : MatchState) : Prop :=
  exists d, consumed x1 = d ++ p1 /\ consumed x2 = d ++ p2 /\
            remaining x1 = remaining x2 /\ captures x1 = captures x2.

Definition shifted_result (p1 p2 : list cu) (o1 o2 : MatchResult) : Prop :=
  match o1, o2 with
  | Some z1, Some z2 => shifted p1 p2 z1 z2
  | None, None => True
  | _, _ => False
  end.

(** Continuations that agree on such states. *)
Definition related (p1 p2 : list cu) (c1 c2 : Continuation) : Prop :=
  forall y1 y2, shifted p1 p2 y1 y2 -> shifted_result p1 p2 (c1 y1) (c2 y2).

(** *** Well-formed markers

    [same_ci p k]: [k] is [p] up to letter case. *)
Fixpoint same_ci (p k : jsstring) : bool :=
  match p, k with
  | [], [] => true
  | a :: p', b :: k' =>
      (canonicalize true a =? canonicalize true b)%N && same_ci p' k'
  | _, _ => false
  end.

Definition is_quote (c : cu) : bool := ((c =? SQUOTE) || (c =? DQUOTE))%N.
Definition is_gt (c : cu) : bool := (c =? chr ">")%N.
Definition is_equals (c : cu) : bool := (c =? chr "=")%N.

(** The code units of a style declaration: no quote, no [>], no [=]. *)
Definition decl_char (c : cu) : bool :=
  negb (is_quote c) && negb (is_gt c) && negb (is_equals c).

(** The empty [div] whose [style] attribute, within the quotes [q], holds
    the declarations [d1], the property [page-break-after:], white space
    [w], the value [always] and the declarations [d2]. *)
Definition marker_form (q : cu) (d1 w d2 : jsstring) : jsstring :=
  js "<div" ++ js " " ++ js "style=" ++ [q] ++ d1 ++ property_colon ++ w
  ++ js "always" ++ d2 ++ [q] ++ js "></div>".

(** [l] has no code unit that [P] accepts. *)
Definition free_of (P : cu -> bool) (l : jsstring) : Prop :=
  Forall (fun c => P c = false) l.

(** The parts of a match of the page-break pattern, in order, before the
    rest [rem] of the text. *)
Definition break_shape (text rem : jsstring) : Prop :=
  exists k1 s1 g1 k2 a1 v1 k3 s2 k4 v2 a2 g2 k5,
    text = k1 ++ s1 ++ g1 ++ k2 ++ a1 :: v1 ++ k3 ++ s2 ++ k4 ++ v2
           ++ a2 :: g2 ++ k5 ++ rem
    /\ same_ci (js "<div") k1 = true
    /\ Forall (fun c => isSpace c = true) s1 /\ 1 <= length s1
    /\ free_of is_gt g1
    /\ same_ci (js "style=") k2 = true
    /\ is_quote a1 = true
    /\ free_of is_quote v1
    /\ same_ci property_colon k3 = true
    /\ Forall (fun c => isSpace c = true) s2
    /\ same_ci (js "always") k4 = true
    /\ free_of is_quote v2
    /\ is_quote a2 = true
    /\ free_of is_gt g2
    /\ same_ci (js "></div>") k5 = true.

(** ** The view of [App]

    What the component renders below the toolbar, as data: one sheet for
    every page, with the two numbers of its page label
    ([index + 1] and [pages.length]) and whether a page-break [div]
    follows it ([index < pages.length - 1]). *)
Record sheet := mkSheet {
  content : jsstring;
  number : Z;
  total : Z;
  break_after : bool
}.

(** [pages.map((pageContent, index) => ...)], from the index [index] on;
    [all] is the array the callback reads [length] from. *)
Fixpoint sheets_from (index : nat) (all rest : list jsstring) : list sheet :=
  match rest with
  | [] => []
  | pageContent :: rest' =>
      mkSheet pageContent (Z.of_nat index + 1) (Z.of_nat (length all))
              (Z.of_nat index <? Z.of_nat (length all) - 1)%Z
      :: sheets_from (S index) all rest'
  end.

Definition sheets (all : list jsstring) : list sheet := sheets_from 0 all all.

(** The content area: the prompt to pick a file while [markdown] is the
    empty string ([!markdown]), the paper with its sheets otherwise. *)
Inductive view :=
| Prompt
| Paper (sheets : list sheet).

Definition content_view (markdown : jsstring) : view :=
  match markdown with
  | [] => Prompt
  | _ :: _ => Paper (sheets (pages markdown))
  end.

(** ** Further descriptions *)

(** The lines of a line structure, first to last. *)
Definition lines_of (d : jsstring * list (cu * jsstring)) : list jsstring :=
  fst d :: map snd (snd d).

(** The number of line feeds directly followed by the chapter token. *)
Fixpoint count_breaks (s : jsstring) : nat :=
  match s with
  | [] => 0
  | c :: s' =>
      (if (c =? LF)%N && starts_with chapter_token s' then 1 else 0)
      + count_breaks s'
  end.

(** A pattern without [$] does not look at what follows the match. *)
Fixpoint no_lookahead (r : regex) : bool :=
  match r with
  | AssertEnd => false
  | Seq r1 r2 | Alt r1 r2 => no_lookahead r1 && no_lookahead r2
  | Group _ r' => no_lookahead r'
  | _ => true
  end.

(** [pieces ps s]: the texts [ps] are parts of [s] that do not overlap,
    in the order of the list. *)
Inductive pieces : list jsstring -> jsstring -> Prop :=
| pieces_nil s : pieces [] s
| pieces_cons a p t ps : pieces ps t -> pieces (p :: ps) (a ++ p ++ t).

(** A text with markers: the text [a], then every marker of [l] with the
    text after it. *)
Fixpoint interleave (a : jsstring) (l : list (jsstring * jsstring))
    : jsstring :=
  match l with
  | [] => a
  | (M, b) :: l' => a ++ M ++ interleave b l'
  end.

(** A text with its ASCII letters in upper case. *)
Definition upper (s : jsstring) : jsstring := map (canonicalize true) s.

(** No match of the page-break pattern starts within [w] when [rest]
    follows it. *)
Definition unbroken (w rest : jsstring) : Prop :=
  forall u v pre,
    w = u ++ v -> v <> [] ->
    exec_at flags_gi re_break pre (v ++ rest) = None.

(** Two states of matches of a text and of the text in upper case. *)
Definition folded (x x' : MatchState) : Prop :=
  consumed x' = upper (consumed x) /\ remaining x' = upper (remaining x)
  /\ captures x' = map (fun p => (fst p, upper (snd p))) (captures x).

Definition folded_result (o o' : MatchResult) : Prop :=
  match o, o' with
  | Some z, Some z' => folded z z'
  | None, None => True
  | _, _ => False
  end.

(** Continuations that agree on such states. *)
Definition folding (c c' : Continuation) : Prop :=
  forall y y', folded y y' -> folded_result (c y) (c' y').

(** *** Markers the claims speak of *)

(** What [marker_form] asks of its parts: [q] is a quote, [w] is white
    space, and the declarations [d1] and [d2] hold no quote, no [>] and
    no [=]. *)
Definition well_formed (q : cu) (d1 w d2 : jsstring) : Prop :=
  is_quote q = true
  /\ Forall (fun c => decl_char c = true) d1
  /\ Forall (fun c => isSpace c = true) w
  /\ Forall (fun c => decl_char c = true) d2.

(** The empty [div] with the white space [w1] before the colon of the
    property and [w2] after it. *)
Definition marker_spaced (w1 w2 : jsstring) : jsstring :=
  js "<div style=" ++ [DQUOTE] ++ js "page-break-after" ++ w1 ++ js ":"
  ++ w2 ++ js "always" ++ [DQUOTE] ++ js "></div>".

(** * Theorems *)

#[local] Arguments N.eqb : simpl never.
#[local] Arguments N.leb : simpl never.
#[local] Arguments N.sub : simpl never.
#[local] Arguments Nat.sub : simpl never.
#[local] Arguments atom_test : simpl never.
#[local] Arguments not_space : simpl never.
#[local] Arguments isSpace : simpl never.
#[local] Arguments isLineTerminator : simpl never.
#[local] Arguments is_blank : simpl never.
#[local] Arguments is_rule_char : simpl never.

(** ** The matcher *)

Lemma canonicalize_off c : canonicalize false c = c.
Proof. reflexivity. Qed.

Lemma strip_prefix_app p r : strip_prefix p (p ++ r) = Some r.
Proof.
  induction p as [|a p IH]; simpl; [reflexivity|].
  now rewrite N.eqb_refl.
Qed.

Lemma strip_prefix_Some p s r : strip_prefix p s = Some r -> s = p ++ r.
Proof.
  revert s; induction p as [|a p IH]; simpl; intros s H.
  - now inversion H.
  - destruct s as [|b s]; [discriminate|].
    destruct (N.eqb_spec a b) as [->|]; [|discriminate].
    now rewrite (IH _ H).
Qed.

(** A literal, matched case-sensitively, consumes exactly its text. *)
Lemma matcher_lit fl p pre rest caps c :
  ignoreCase fl = false ->
  matcher fl (lit p) (mkState pre rest caps) c =
  match strip_prefix p rest with
  | Some rest' => c (mkState (rev p ++ pre) rest' caps)
  | None => None
  end.
Proof.
  intros Hic. revert pre rest.
  induction p as [|a p IH]; intros pre rest; simpl.
  - reflexivity.
  - destruct rest as [|b rest]; [reflexivity|].
    rewrite Hic. unfold atom_test. rewrite !canonicalize_off.
    destruct (N.eqb_spec a b) as [->|]; [|reflexivity].
    rewrite IH. now rewrite <- app_assoc.
Qed.

(** ** [replace] with a global pattern *)

Lemma replace_scan_nil fl r t pre :
  replace_scan fl r t pre [] 0 =
  match exec_at fl r pre [] with
  | Some y => substitution t y ++ []
  | None => []
  end.
Proof. reflexivity. Qed.

Lemma replace_scan_cons fl r t pre ch rest :
  replace_scan fl r t pre (ch :: rest) 0 =
  match exec_at fl r pre (ch :: rest) with
  | Some y =>
      substitution t y ++
      match endIndex y - length pre with
      | O => ch :: replace_scan fl r t (ch :: pre) rest 0
      | S k => replace_scan fl r t (ch :: pre) rest k
      end
  | None => ch :: replace_scan fl r t (ch :: pre) rest 0
  end.
Proof. reflexivity. Qed.

(** Stepping over the code units of a match. *)
Lemma replace_scan_skip fl r t a b pre :
  replace_scan fl r t pre (a ++ b) (length a) =
  replace_scan fl r t (rev a ++ pre) b 0.
Proof.
  revert pre; induction a as [|x a IH]; intros pre.
  - reflexivity.
  - simpl. rewrite IH. now rewrite <- app_assoc.
Qed.

Lemma replace_scan_miss fl r t pre ch rest :
  exec_at fl r pre (ch :: rest) = None ->
  replace_scan fl r t pre (ch :: rest) 0 =
  ch :: replace_scan fl r t (ch :: pre) rest 0.
Proof. intros H. now rewrite replace_scan_cons, H. Qed.

(** A match of [m], non-empty, at the head of the text. *)
Lemma replace_scan_hit fl r t pre m rest y :
  m <> [] ->
  exec_at fl r pre (m ++ rest) = Some y ->
  endIndex y = length m + length pre ->
  replace_scan fl r t pre (m ++ rest) 0 =
  substitution t y ++ replace_scan fl r t (rev m ++ pre) rest 0.
Proof.
  intros Hm He Hy. destruct m as [|x m]; [congruence|].
  change ((x :: m) ++ rest) with (x :: (m ++ rest)) in *.
  rewrite replace_scan_cons, He, Hy.
  replace (length (x :: m) + length pre - length pre) with (S (length m))
    by (simpl length; lia).
  rewrite replace_scan_skip. simpl. now rewrite <- app_assoc.
Qed.

(** ** Soundness of the matcher *)

Lemma repeat_matcher_sound test min pre rest caps c z :
  repeat_matcher test min pre rest caps c = Some z ->
  exists d rest',
    rest = d ++ rest' /\ Forall (fun ch => test ch = true) d /\
    min <= length d /\ c (mkState (rev d ++ pre) rest' caps) = Some z.
Proof.
  revert min pre.
  induction rest as [|ch rest IH]; intros min pre H.
  - simpl in H. destruct min; [|discriminate].
    exists [], []. repeat split; auto.
  - simpl in H.
    assert (Hstop : match min with
                    | O => c (mkState pre (ch :: rest) caps)
                    | S _ => None
                    end = Some z ->
                    exists d rest',
                      ch :: rest = d ++ rest' /\
                      Forall (fun ch => test ch = true) d /\
                      min <= length d /\
                      c (mkState (rev d ++ pre) rest' caps) = Some z).
    { intros Hs. destruct min; [|discriminate].
      exists [], (ch :: rest). repeat split; auto. }
    destruct (test ch) eqn:Ht; [|auto].
    destruct (repeat_matcher test (Nat.pred min) (ch :: pre) rest caps c)
      as [z'|] eqn:Hr; [|auto].
    inversion H; subst z'.
    destruct (IH _ _ Hr) as (d & rest' & -> & Hd & Hmin & Hc).
    exists (ch :: d), rest'. repeat split.
    + constructor; assumption.
    + simpl. lia.
    + simpl. now rewrite <- app_assoc.
Qed.

Theorem matcher_sound fl r : forall x c z,
  matcher fl r x c = Some z ->
  exists y, Matches fl r x y /\ c y = Some z.
Proof.
  induction r as [|a|min a| | |r1 IH1 r2 IH2|r1 IH1 r2 IH2|n r IH];
    intros x c z H; simpl in H.
  - exists x. split; [constructor|assumption].
  - destruct x as [pre [|ch rest] caps]; simpl in H; [discriminate|].
    destruct (atom_test (ignoreCase fl) a ch) eqn:Ht; [|discriminate].
    eexists. split; [constructor; exact Ht|exact H].
  - destruct x as [pre rest caps]; simpl in H.
    destruct (repeat_matcher_sound _ _ _ _ _ _ _ H)
      as (d & rest' & -> & Hd & Hmin & Hc).
    eexists. split; [constructor; eassumption|exact Hc].
  - destruct (line_start fl (consumed x)) eqn:Hs; [|discriminate].
    exists x. split; [constructor; exact Hs|exact H].
  - destruct (line_end fl (remaining x)) eqn:Hs; [|discriminate].
    exists x. split; [constructor; exact Hs|exact H].
  - destruct (IH1 _ _ _ H) as (y & Hy & H2).
    destruct (IH2 _ _ _ H2) as (y' & Hy' & Hc).
    exists y'. split; [econstructor; eassumption|exact Hc].
  - destruct (matcher fl r1 x c) as [z'|] eqn:H1.
    + inversion H; subst z'.
      destruct (IH1 _ _ _ H1) as (y & Hy & Hc).
      exists y. split; [now apply MAltL|exact Hc].
    + destruct (IH2 _ _ _ H) as (y & Hy & Hc).
      exists y. split; [now apply MAltR|exact Hc].
  - destruct (IH _ _ _ H) as (y & Hy & Hc).
    eexists. split; [apply MGroup; exact Hy|exact Hc].
Qed.

(** A match only moves forward in the input, and leaves it as it is. *)
Lemma Matches_ahead fl r x y :
  Matches fl r x y -> exists d, ahead d x y.
Proof.
  induction 1 as [x|a ch pre rest caps Ht|min a d pre rest caps Hd Hm
                 |x Hs|x Hs|r1 r2 x y z _ [d1 [E1 F1]] _ [d2 [E2 F2]]
                 |r1 r2 x y _ IH|r1 r2 x y _ IH|n r x y _ [d [E F]]].
  - exists []. now split.
  - exists [ch]. now split.
  - exists d. now split.
  - exists []. now split.
  - exists []. now split.
  - exists (d1 ++ d2). split.
    + rewrite E2, E1, rev_app_distr. now rewrite app_assoc.
    + rewrite F1, F2. now rewrite app_assoc.
  - exact IH.
  - exact IH.
  - exists d. now split.
Qed.

Lemma exec_at_sound fl r pre rest y :
  exec_at fl r pre rest = Some y ->
  Matches fl r (mkState pre rest []) y.
Proof.
  intros H. destruct (matcher_sound _ _ _ _ _ H) as (y' & Hy & E).
  now inversion E; subst.
Qed.

Lemma exec_at_ahead fl r pre rest y :
  exec_at fl r pre rest = Some y ->
  exists d, consumed y = rev d ++ pre /\ rest = d ++ remaining y.
Proof.
  intros H. apply exec_at_sound in H.
  destruct (Matches_ahead _ _ _ _ H) as (d & E & F). now exists d.
Qed.

(** The step of [replace] at a non-empty match [d]. *)
Lemma replace_scan_match fl r t pre rest y d :
  exec_at fl r pre rest = Some y ->
  consumed y = rev d ++ pre -> rest = d ++ remaining y -> d <> [] ->
  replace_scan fl r t pre rest 0 =
  substitution t y ++ replace_scan fl r t (consumed y) (remaining y) 0.
Proof.
  intros He Ec Er Hd. rewrite Ec. subst rest.
  apply replace_scan_hit; auto.
  unfold endIndex. rewrite Ec, length_app, length_rev. lia.
Qed.

(** Stepping over a match is resuming at the end of the match: after a
    match that is not empty, the search goes on from the state the
    matcher returned. *)
Theorem replace_scan_jump fl r t pre rest y :
  exec_at fl r pre rest = Some y ->
  endIndex y <> length pre ->
  replace_scan fl r t pre rest 0 =
  substitution t y ++ replace_scan fl r t (consumed y) (remaining y) 0.
Proof.
  intros He Hn. destruct (exec_at_ahead _ _ _ _ _ He) as (d & Ec & Er).
  apply (replace_scan_match _ _ _ _ _ _ d); auto.
  intros ->. apply Hn. unfold endIndex. now rewrite Ec.
Qed.

(** ** Step 1 of [normalizeMarkdown]: the invisible marks *)

Lemma exec_marks pre c rest :
  exec_at flags_g re_marks pre (c :: rest) =
  if is_mark c then Some (mkState (c :: pre) rest []) else None.
Proof.
  unfold exec_at, re_marks, is_mark. simpl.
  unfold atom_test. rewrite !canonicalize_off.
  rewrite (N.eqb_sym c BOM), (N.eqb_sym c ZWSP).
  destruct (BOM =? c)%N; [reflexivity|].
  destruct (ZWSP =? c)%N; reflexivity.
Qed.

Lemma strip_marks_scan rest : forall pre,
  replace_scan flags_g re_marks [] pre rest 0 =
  filter (fun c => negb (is_mark c)) rest.
Proof.
  induction rest as [|c rest IH]; intros pre; [reflexivity|].
  rewrite replace_scan_cons, exec_marks. simpl filter.
  destruct (is_mark c); simpl.
  - unfold endIndex. simpl length.
    replace (S (length pre) - length pre) with 1 by lia.
    apply IH.
  - now rewrite IH.
Qed.

(** Step 1 deletes exactly the code units U+FEFF and U+200B. *)
Lemma strip_marks_filter s :
  strip_marks s = filter (fun c => negb (is_mark c)) s.
Proof. apply strip_marks_scan. Qed.

Lemma matched_ahead x y d :
  consumed y = rev d ++ consumed x -> matched x y = d.
Proof.
  intros E. unfold matched, endIndex. rewrite E, length_app, length_rev.
  replace (length d + length (consumed x) - length (consumed x))
    with (length (rev d)) by (rewrite length_rev; lia).
  rewrite firstn_app, firstn_all, Nat.sub_diag. simpl.
  now rewrite app_nil_r, rev_involutive.
Qed.

Lemma exec_repeat_inv fl min a pre rest y :
  exec_at fl (Repeat min a) pre rest = Some y ->
  exists d,
    Forall (fun ch => atom_test (ignoreCase fl) a ch = true) d /\
    min <= length d /\ rest = d ++ remaining y /\
    consumed y = rev d ++ pre.
Proof.
  unfold exec_at. simpl. intros H.
  destruct (repeat_matcher_sound _ _ _ _ _ _ _ H)
    as (d & rest' & -> & Hd & Hm & E).
  inversion E; subst y. simpl. now exists d.
Qed.

Lemma repeat_matcher_zero test rest : forall pre caps,
  exists z, repeat_matcher test 0 pre rest caps Some = Some z.
Proof.
  induction rest as [|ch rest IH]; intros pre caps; simpl.
  - eauto.
  - destruct (test ch); [|eauto].
    destruct (IH (ch :: pre) caps) as [z ->]. eauto.
Qed.

(** ** The page filter: [\s+] and [&nbsp;] *)

Lemma atom_test_space c : atom_test false space_class c = isSpace c.
Proof.
  unfold atom_test, space_class. simpl.
  now rewrite orb_false_r.
Qed.

Lemma exec_spaces_miss pre c rest :
  isSpace c = false -> exec_at flags_g re_spaces pre (c :: rest) = None.
Proof.
  intros H. unfold exec_at, re_spaces. simpl matcher. simpl.
  now rewrite atom_test_space, H.
Qed.

Lemma exec_spaces_hit pre c rest :
  isSpace c = true ->
  exists y, exec_at flags_g re_spaces pre (c :: rest) = Some y.
Proof.
  intros H. unfold exec_at, re_spaces. simpl matcher. simpl.
  rewrite atom_test_space, H.
  destruct (repeat_matcher_zero (atom_test false space_class) rest
              (c :: pre) []) as [z ->].
  eauto.
Qed.

Lemma filter_none {A} (f : A -> bool) l :
  Forall (fun x => f x = false) l -> filter f l = [].
Proof.
  induction 1 as [|x l Hx _ IH]; simpl; [reflexivity|].
  now rewrite Hx.
Qed.

Lemma spaces_scan n : forall rest pre,
  length rest <= n ->
  replace_scan flags_g re_spaces [] pre rest 0 = filter not_space rest.
Proof.
  induction n as [|n IH]; intros [|c rest] pre Hn; simpl in Hn;
    try reflexivity; try lia.
  destruct (isSpace c) eqn:Hc.
  - destruct (exec_spaces_hit pre c rest Hc) as [y Hy].
    destruct (exec_repeat_inv _ _ _ _ _ _ Hy) as (d & Hd & Hm & Er & Ec).
    assert (d <> []) by (destruct d; simpl in Hm; [lia|discriminate]).
    rewrite (replace_scan_match _ _ _ _ _ _ d Hy Ec Er) by assumption.
    rewrite Er, filter_app, IH.
    + rewrite (filter_none not_space d); [reflexivity|].
      eapply Forall_impl; [|exact Hd]. simpl. intros ch Hch.
      rewrite atom_test_space in Hch. unfold not_space. now rewrite Hch.
    + apply (f_equal (@length _)) in Er. rewrite length_app in Er.
      simpl in Er. destruct d; simpl in *; [congruence|lia].
  - rewrite (replace_scan_miss _ _ _ _ _ _ (exec_spaces_miss pre c rest Hc)).
    simpl. unfold not_space at 1. rewrite Hc. simpl.
    rewrite IH by lia. reflexivity.
Qed.

(** [page.replace(/\s+/g, '')] deletes exactly the white space. *)
Lemma strip_spaces_filter s :
  replace_all flags_g re_spaces [] s = filter not_space s.
Proof. now apply (spaces_scan (length s)). Qed.

Lemma exec_nbsp pre rest :
  exec_at flags_g re_nbsp pre rest =
  match strip_prefix nbsp rest with
  | Some rest' => Some (mkState (rev nbsp ++ pre) rest' [])
  | None => None
  end.
Proof. unfold exec_at, re_nbsp. now rewrite matcher_lit. Qed.

Lemma nbsp_nonempty : nbsp <> [].
Proof. discriminate. Qed.

Lemma nbsp_scan_run n : forall pre,
  replace_scan flags_g re_nbsp [] pre (nbsp_run n) 0 = [].
Proof.
  induction n as [|n IH]; intros pre; [reflexivity|].
  unfold nbsp_run. simpl repeat. simpl concat.
  assert (E := exec_nbsp pre (nbsp ++ nbsp_run n)).
  rewrite strip_prefix_app in E.
  rewrite (replace_scan_hit _ _ _ _ _ _ _ nbsp_nonempty E).
  - apply IH.
  - unfold endIndex. cbn [consumed]. rewrite length_app, length_rev. lia.
Qed.

Lemma nbsp_scan_empty k : forall rest pre,
  length rest <= k ->
  replace_scan flags_g re_nbsp [] pre rest 0 = [] ->
  exists n, rest = nbsp_run n.
Proof.
  induction k as [|k IH]; intros [|c rest] pre Hk H; simpl in Hk;
    try (now exists 0); try lia.
  assert (E := exec_nbsp pre (c :: rest)).
  destruct (strip_prefix nbsp (c :: rest)) as [rest'|] eqn:Hp.
  - apply strip_prefix_Some in Hp.
    rewrite Hp in E, H.
    rewrite (replace_scan_hit _ _ _ _ _ _ _ nbsp_nonempty E) in H.
    + simpl in H. apply IH in H.
      * destruct H as [n ->]. exists (S n). now rewrite Hp.
      * apply (f_equal (@length _)) in Hp. rewrite length_app in Hp.
        simpl in Hp. lia.
    + unfold endIndex. cbn [consumed]. rewrite length_app, length_rev. lia.
  - rewrite (replace_scan_miss _ _ _ _ _ _ E) in H. discriminate.
Qed.

(** The page filter discards a page exactly when its text without white
    space is a run of [&nbsp;] entities. *)
Lemma keep_page_spec page :
  keep_page page = false <-> exists n, filter not_space page = nbsp_run n.
Proof.
  unfold keep_page, stripped. rewrite strip_spaces_filter.
  unfold replace_all. split.
  - intros H. apply Nat.ltb_ge in H.
    apply (nbsp_scan_empty (length (filter not_space page)) _ []); [lia|].
    destruct (replace_scan _ _ _ _ _ _); [reflexivity|simpl in H; lia].
  - intros [n ->]. now rewrite nbsp_scan_run.
Qed.

Lemma trimStart_filter s :
  filter not_space (trimStart s) = filter not_space s.
Proof.
  induction s as [|c s IH]; [reflexivity|].
  simpl. assert (Hn : not_space c = negb (isSpace c)) by reflexivity.
  destruct (isSpace c); [rewrite Hn; exact IH|reflexivity].
Qed.

(** Trimming does not change the text that remains without white space. *)
Lemma trim_filter s : filter not_space (trim s) = filter not_space s.
Proof.
  unfold trim, trimEnd.
  rewrite filter_rev, trimStart_filter, <- filter_rev, rev_involutive.
  apply trimStart_filter.
Qed.

(** ** Step 3 of [normalizeMarkdown]: the chapter headings *)

Lemma exec_chapter pre rest :
  exec_at flags_g re_chapter pre rest =
  match rest with
  | c :: rest1 =>
      if (c =? LF)%N then
        match strip_prefix chapter_token rest1 with
        | Some rest' =>
            Some (mkState (rev chapter_token ++ c :: pre) rest'
                          [(1, chapter_token)])
        | None => None
        end
      else None
  | [] => None
  end.
Proof.
  unfold exec_at, re_chapter. cbn [matcher remaining consumed captures].
  destruct rest as [|c rest1]; [reflexivity|].
  unfold atom_test at 1. cbn [ignoreCase flags_g]. rewrite !canonicalize_off.
  rewrite (N.eqb_sym c LF).
  destruct (LF =? c)%N; [|reflexivity].
  rewrite matcher_lit by reflexivity.
  destruct (strip_prefix chapter_token rest1) as [rest'|]; [|reflexivity].
  cbn [consumed remaining captures].
  now rewrite (matched_ahead _ _ chapter_token).
Qed.

Lemma double_breaks_token s :
  double_breaks (chapter_token ++ s) = chapter_token ++ double_breaks s.
Proof. reflexivity. Qed.

Lemma chapters_scan n : forall rest pre,
  length rest <= n ->
  replace_scan flags_g re_chapter chapter_template pre rest 0 =
  double_breaks rest.
Proof.
  induction n as [|n IH]; intros [|c rest] pre Hn; simpl in Hn;
    try reflexivity; try lia.
  assert (E := exec_chapter pre (c :: rest)). cbn beta iota in E.
  cbn [double_breaks]. unfold starts_with.
  destruct (N.eqb_spec c LF) as [->|Hc].
  - destruct (strip_prefix chapter_token rest) as [rest'|] eqn:Hp.
    + apply strip_prefix_Some in Hp. subst rest.
      change (LF :: chapter_token ++ rest')
        with ((LF :: chapter_token) ++ rest') in *.
      assert (Hne : LF :: chapter_token <> []) by discriminate.
      rewrite (replace_scan_hit _ _ _ _ _ _ _ Hne E).
      * rewrite IH.
        -- cbn [andb]. rewrite double_breaks_token. reflexivity.
        -- rewrite length_app in Hn. lia.
      * unfold endIndex. cbn [consumed].
        rewrite length_app, length_rev. simpl length. lia.
    + rewrite (replace_scan_miss _ _ _ _ _ _ E). cbn [andb].
      now rewrite IH by lia.
  - rewrite (replace_scan_miss _ _ _ _ _ _ E). cbn [andb].
    now rewrite IH by lia.
Qed.

(** Step 3 doubles every line feed that the chapter token follows. *)
Lemma space_chapters_spec s : space_chapters s = double_breaks s.
Proof. now apply (chapters_scan (length s)). Qed.

(** ** Step 2 of [normalizeMarkdown]: the horizontal rules *)

(** A greedy repetition whose continuation rejects every position before
    one more repeated character never backtracks. *)
Lemma repeat_matcher_greedy test caps c :
  (forall p x r, test x = true -> c (mkState p (x :: r) caps) = None) ->
  forall rest min pre,
  repeat_matcher test min pre rest caps c =
  if min <=? run_length test rest
  then c (mkState (rev (firstn (run_length test rest) rest) ++ pre)
                  (skip_while test rest) caps)
  else None.
Proof.
  intros Hc. induction rest as [|x rest IH]; intros min pre.
  - destruct min; reflexivity.
  - simpl. destruct (test x) eqn:Hx.
    + rewrite IH. simpl firstn. simpl rev. rewrite <- app_assoc. simpl app.
      destruct min as [|min]; simpl Nat.pred.
      * simpl Nat.leb.
        destruct (c (mkState _ (skip_while test rest) caps)); [reflexivity|].
        now apply Hc.
      * change (S min <=? S (run_length test rest))
          with (min <=? run_length test rest).
        destruct (min <=? run_length test rest); [|reflexivity].
        now destruct (c _).
    + destruct min; reflexivity.
Qed.

Lemma atom_test_blank c : atom_test false blank_class c = is_blank c.
Proof.
  unfold atom_test, blank_class, is_blank. simpl.
  rewrite !(N.eqb_sym c). unfold canonicalize. simpl.
  now rewrite orb_false_r.
Qed.

Lemma atom_test_rule c : atom_test false rule_class c = is_rule_char c.
Proof.
  unfold atom_test, rule_class, is_rule_char. simpl.
  rewrite !(N.eqb_sym c). unfold canonicalize. simpl.
  now rewrite orb_false_r, orb_assoc.
Qed.

Lemma isLineTerminator_cases c :
  isLineTerminator c = true ->
  c = 0x0A%N \/ c = 0x0D%N \/ c = 0x2028%N \/ c = 0x2029%N.
Proof.
  unfold isLineTerminator. rewrite !orb_true_iff, !N.eqb_eq. tauto.
Qed.

Lemma terminator_not_blank c :
  isLineTerminator c = true -> is_blank c = false.
Proof.
  intros H. destruct (isLineTerminator_cases c H) as [-> | [-> | [-> | ->]]];
    reflexivity.
Qed.

Lemma terminator_not_rule c :
  isLineTerminator c = true -> is_rule_char c = false.
Proof.
  intros H. destruct (isLineTerminator_cases c H) as [-> | [-> | [-> | ->]]];
    reflexivity.
Qed.

Lemma blank_not_rule c : is_blank c = true -> is_rule_char c = false.
Proof.
  unfold is_blank. rewrite orb_true_iff, !N.eqb_eq. intros [-> | ->];
    reflexivity.
Qed.

Lemma rule_not_blank c : is_rule_char c = true -> is_blank c = false.
Proof.
  intros H. destruct (is_blank c) eqn:Hb; [|reflexivity].
  apply blank_not_rule in Hb. congruence.
Qed.

Lemma blank_not_terminator c :
  is_blank c = true -> isLineTerminator c = false.
Proof.
  intros H. destruct (isLineTerminator c) eqn:Ht; [|reflexivity].
  apply terminator_not_blank in Ht. congruence.
Qed.

Lemma rule_not_terminator c :
  is_rule_char c = true -> isLineTerminator c = false.
Proof.
  intros H. destruct (isLineTerminator c) eqn:Ht; [|reflexivity].
  apply terminator_not_rule in Ht. congruence.
Qed.

Lemma repeat_matcher_ext test test' caps c :
  (forall x, test x = test' x) ->
  forall rest min pre,
  repeat_matcher test min pre rest caps c =
  repeat_matcher test' min pre rest caps c.
Proof.
  intros E. induction rest as [|x rest IH]; intros min pre; simpl.
  - reflexivity.
  - now rewrite E, IH.
Qed.

Lemma exec_rule_off pre rest :
  line_start flags_gm pre = false ->
  exec_at flags_gm re_rule pre rest = None.
Proof.
  intros H. unfold exec_at, re_rule. cbn [matcher consumed]. now rewrite H.
Qed.

Lemma leb_0 n : (0 <=? n) = true.
Proof. reflexivity. Qed.

Lemma exec_rule pre rest :
  line_start flags_gm pre = true ->
  match rule_rest rest with
  | Some r3 =>
      exists y, exec_at flags_gm re_rule pre rest = Some y /\ remaining y = r3
  | None => exec_at flags_gm re_rule pre rest = None
  end.
Proof.
  intros Hs. unfold exec_at, re_rule, rule_rest.
  cbn [matcher consumed remaining captures ignoreCase flags_gm].
  change (line_start (mkFlags false true) pre) with (line_start flags_gm pre).
  rewrite Hs.
  rewrite (repeat_matcher_ext _ is_blank _ _ atom_test_blank).
  rewrite repeat_matcher_greedy.
  2:{ intros p x r Hx. cbn [consumed remaining captures]. simpl.
      now rewrite atom_test_rule, (blank_not_rule x Hx). }
  rewrite leb_0. cbn [consumed remaining captures].
  rewrite (repeat_matcher_ext _ is_rule_char _ _ atom_test_rule).
  rewrite repeat_matcher_greedy.
  2:{ intros p x r Hx. cbn [consumed remaining captures]. simpl.
      rewrite atom_test_blank, (rule_not_blank x Hx).
      cbn [line_end multiline andb]. now rewrite (rule_not_terminator x Hx). }
  destruct (3 <=? run_length is_rule_char (skip_while is_blank rest));
    cbv beta iota zeta; [|reflexivity].
  cbn [consumed remaining captures].
  rewrite (repeat_matcher_ext _ is_blank _ _ atom_test_blank).
  rewrite repeat_matcher_greedy.
  2:{ intros p x r Hx. cbn [consumed remaining captures line_end multiline].
      now rewrite (blank_not_terminator x Hx). }
  rewrite leb_0. cbn [consumed remaining captures].
  change (line_end (mkFlags false true)) with (line_end flags_gm).
  destruct (line_end flags_gm _); cbv beta iota zeta; [|reflexivity].
  eexists. split; reflexivity.
Qed.

(** *** Lines and the rule pattern *)

Lemma at_break_stops f r :
  (forall c, isLineTerminator c = true -> f c = false) ->
  at_break r ->
  match r with [] => True | n :: _ => f n = false end.
Proof.
  intros Hf H. destruct r as [|n r]; [exact I|].
  unfold at_break in H. simpl in H. now apply Hf.
Qed.

Lemma skip_while_app f l r :
  match r with [] => True | n :: _ => f n = false end ->
  skip_while f (l ++ r) = skip_while f l ++ r.
Proof.
  intros Hr. induction l as [|c l IH]; simpl.
  - destruct r as [|n r]; [reflexivity|]. simpl. now rewrite Hr.
  - now destruct (f c).
Qed.

Lemma run_length_app f l r :
  match r with [] => True | n :: _ => f n = false end ->
  run_length f (l ++ r) = run_length f l.
Proof.
  intros Hr. induction l as [|c l IH]; simpl.
  - destruct r as [|n r]; [reflexivity|]. simpl. now rewrite Hr.
  - destruct (f c); [now rewrite IH|reflexivity].
Qed.

Lemma skip_while_Forall (P : cu -> Prop) f l :
  Forall P l -> Forall P (skip_while f l).
Proof.
  induction 1 as [|c l Hc Hl IH]; simpl; [constructor|].
  destruct (f c); [exact IH|now constructor].
Qed.

(** At a line start, the pattern matches exactly a rule line, whole. *)
Lemma rule_rest_line l r :
  Forall plain l -> at_break r ->
  rule_rest (l ++ r) = if is_rule_line l then Some r else None.
Proof.
  intros Hl Hr. unfold rule_rest, is_rule_line.
  assert (Hb := at_break_stops is_blank r terminator_not_blank Hr).
  assert (Hu := at_break_stops is_rule_char r terminator_not_rule Hr).
  rewrite (skip_while_app is_blank l r Hb).
  rewrite (run_length_app is_rule_char _ r Hu).
  rewrite (skip_while_app is_rule_char _ r Hu).
  rewrite (skip_while_app is_blank _ r Hb).
  destruct (3 <=? _); [|reflexivity]. cbn [andb].
  assert (H3 : Forall plain (skip_while is_blank
             (skip_while is_rule_char (skip_while is_blank l))))
    by now repeat apply skip_while_Forall.
  destruct (skip_while is_blank _) as [|n l3].
  - simpl. now rewrite Hr.
  - inversion H3 as [|? ? Hn _]; subst. simpl. now rewrite Hn.
Qed.

Lemma is_rule_line_nil : is_rule_line [] = false.
Proof. reflexivity. Qed.

Lemma line_start_mid l pre :
  l <> [] -> Forall plain l -> line_start flags_gm (rev l ++ pre) = false.
Proof.
  intros Hne Hl. apply Forall_rev in Hl.
  destruct (rev l) as [|c l'] eqn:E.
  - apply (f_equal (@rev _)) in E. rewrite rev_involutive in E.
    now subst.
  - inversion Hl as [|? ? Hc _]; subst. simpl. exact Hc.
Qed.

(** Inside a line the pattern cannot start: the line is copied. *)
Lemma scan_midline r l : forall pre,
  line_start flags_gm pre = false -> Forall plain l ->
  scan_rules pre (l ++ r) 0 = l ++ after_line l pre r.
Proof.
  unfold scan_rules.
  induction l as [|c l IH]; intros pre Hs Hl.
  - cbn [app]. unfold after_line. destruct r as [|t s1].
    + rewrite replace_scan_nil, exec_rule_off by assumption. reflexivity.
    + rewrite replace_scan_miss by now apply exec_rule_off. reflexivity.
  - inversion Hl as [|? ? Hc Hl']; subst.
    change ((c :: l) ++ r) with (c :: (l ++ r)).
    rewrite replace_scan_miss by now apply exec_rule_off.
    rewrite IH; [|exact Hc|exact Hl'].
    unfold after_line. simpl. now rewrite <- app_assoc.
Qed.

(** From a line start: the line is deleted if it is a rule line, and
    copied if not; the terminator after it is kept in both cases. *)
Lemma scan_line l r pre :
  line_start flags_gm pre = true -> Forall plain l -> at_break r ->
  scan_rules pre (l ++ r) 0 = clear_rule l ++ after_line l pre r.
Proof.
  intros Hs Hl Hr. unfold clear_rule.
  assert (E := exec_rule pre (l ++ r) Hs).
  rewrite (rule_rest_line l r Hl Hr) in E.
  destruct (is_rule_line l) eqn:Hrule.
  - destruct E as (y & Hy & Hrem).
    destruct (exec_at_ahead _ _ _ _ _ Hy) as (d & Ec & Er).
    rewrite Hrem in Er. apply app_inv_tail in Er. subst d.
    assert (Hne : l <> []) by (intros ->; discriminate).
    unfold scan_rules.
    rewrite (replace_scan_match _ _ _ _ _ _ l Hy Ec); auto;
      [|now rewrite Hrem].
    rewrite Ec, Hrem. simpl.
    apply (scan_midline r [] (rev l ++ pre)); [|constructor].
    now apply line_start_mid.
  - destruct l as [|c l].
    + cbn [app] in *. unfold scan_rules, after_line. destruct r as [|t s1].
      * rewrite replace_scan_nil. now rewrite E.
      * now rewrite replace_scan_miss.
    + inversion Hl as [|? ? Hc Hl']; subst.
      change ((c :: l) ++ r) with (c :: (l ++ r)) in *.
      unfold scan_rules. rewrite replace_scan_miss by exact E.
      fold scan_rules. rewrite scan_midline; [|exact Hc|exact Hl'].
      unfold after_line. simpl. now rewrite <- app_assoc.
Qed.

Lemma split_lines_decomp s :
  let (l, tl) := split_lines s in
  Forall plain l /\
  match tl with
  | [] => s = l
  | (t, l1) :: tl1 =>
      exists s1, s = l ++ t :: s1 /\ isLineTerminator t = true /\
                 split_lines s1 = (l1, tl1)
  end.
Proof.
  induction s as [|c s IH]; simpl.
  - split; [constructor|reflexivity].
  - destruct (split_lines s) as [l tl] eqn:E. destruct IH as [Hl Htl].
    destruct (isLineTerminator c) eqn:Hc.
    + split; [constructor|]. exists s. repeat split; auto.
    + split; [now constructor|].
      destruct tl as [|[t l1] tl1].
      * now subst.
      * destruct Htl as (s1 & -> & Ht & Hs1). now exists s1.
Qed.

(** Step 2, line by line: every rule line is emptied, every other line and
    every line terminator is kept. *)
Lemma rules_scan_lines n : forall s pre,
  length s <= n -> line_start flags_gm pre = true ->
  scan_rules pre s 0 = join_lines (map_lines clear_rule (split_lines s)).
Proof.
  induction n as [|n IH]; intros s pre Hn Hs;
    assert (D := split_lines_decomp s);
    destruct (split_lines s) as [l [|[t l1] tl1]]; destruct D as [Hl D].
  - subst s. rewrite <- (app_nil_r l) at 1.
    rewrite scan_line by (auto; reflexivity).
    reflexivity.
  - destruct D as (s1 & -> & _). rewrite length_app in Hn. simpl in Hn. lia.
  - subst s. rewrite <- (app_nil_r l) at 1.
    rewrite scan_line by (auto; reflexivity).
    reflexivity.
  - destruct D as (s1 & -> & Ht & Hs1).
    rewrite scan_line;
      [|exact Hs|exact Hl|unfold at_break; simpl; exact Ht].
    unfold after_line. rewrite IH.
    + rewrite Hs1. reflexivity.
    + rewrite length_app in Hn. simpl in Hn. lia.
    + simpl. exact Ht.
Qed.

Theorem strip_rules_lines s :
  strip_rules s = join_lines (map_lines clear_rule (split_lines s)).
Proof. now apply (rules_scan_lines (length s)). Qed.

Lemma split_lines_wf s : lines_wf (split_lines s).
Proof.
  unfold lines_wf. induction s as [|c s IH]; simpl.
  - split; constructor.
  - destruct (split_lines s) as [l tl]. simpl in IH. destruct IH as [Hl Htl].
    destruct (isLineTerminator c) eqn:Hc; simpl.
    + split; [constructor|]. constructor; [now split|exact Htl].
    + split; [now constructor|exact Htl].
Qed.

Lemma join_split s : join_lines (split_lines s) = s.
Proof.
  unfold join_lines. induction s as [|c s IH]; simpl; [reflexivity|].
  destruct (split_lines s) as [l tl]. simpl in IH.
  destruct (isLineTerminator c); simpl; now rewrite IH.
Qed.

Lemma split_lines_plain l s :
  Forall plain l ->
  split_lines (l ++ s) = (l ++ fst (split_lines s), snd (split_lines s)).
Proof.
  induction 1 as [|c l Hc _ IH]; simpl.
  - now destruct (split_lines s).
  - rewrite IH. now rewrite Hc.
Qed.

Lemma split_join l tl :
  lines_wf (l, tl) -> split_lines (join_lines (l, tl)) = (l, tl).
Proof.
  unfold lines_wf, join_lines. simpl. revert l.
  induction tl as [|[t l1] tl1 IH]; intros l [Hl Htl]; simpl.
  - rewrite split_lines_plain by assumption. simpl. now rewrite app_nil_r.
  - inversion Htl as [|? ? [Ht Hl1] Htl1]; subst. simpl in Ht, Hl1.
    rewrite split_lines_plain by assumption. simpl.
    rewrite (IH l1) by now split. now rewrite Ht, app_nil_r.
Qed.

Lemma clear_rule_plain l : Forall plain l -> Forall plain (clear_rule l).
Proof. unfold clear_rule. now destruct (is_rule_line l). Qed.

Lemma clear_rule_twice l : clear_rule (clear_rule l) = clear_rule l.
Proof.
  unfold clear_rule. destruct (is_rule_line l) eqn:E.
  - now rewrite is_rule_line_nil.
  - now rewrite E.
Qed.

Lemma map_lines_wf f d :
  (forall l, Forall plain l -> Forall plain (f l)) ->
  lines_wf d -> lines_wf (map_lines f d).
Proof.
  intros Hf [Hl Htl]. split; simpl; [now apply Hf|].
  apply Forall_map. eapply Forall_impl; [|exact Htl].
  simpl. intros [t l1] [Ht Hl1]. split; [exact Ht|now apply Hf].
Qed.

(** Step 2 is idempotent. *)
Lemma strip_rules_twice s : strip_rules (strip_rules s) = strip_rules s.
Proof.
  rewrite !strip_rules_lines.
  assert (W := map_lines_wf clear_rule _ clear_rule_plain (split_lines_wf s)).
  destruct (map_lines clear_rule (split_lines s)) as [l tl] eqn:E.
  rewrite split_join by exact W. rewrite <- E.
  unfold map_lines. simpl. rewrite clear_rule_twice, map_map. simpl.
  f_equal. f_equal. apply map_ext. intros [t l1]. simpl.
  now rewrite clear_rule_twice.
Qed.

(** ** What the steps keep *)

(** A replacement by the empty string only deletes code units. *)
Lemma replace_scan_delete_Forall (P : cu -> Prop) fl r rest :
  forall pre skip,
  Forall P rest -> Forall P (replace_scan fl r [] pre rest skip).
Proof.
  induction rest as [|c rest IH]; intros pre skip H.
  - destruct skip; simpl; [|constructor].
    destruct (exec_at fl r pre []); constructor.
  - inversion H as [|? ? Hc Hrest]; subst.
    destruct skip as [|k]; [|simpl; now apply IH].
    rewrite replace_scan_cons.
    destruct (exec_at fl r pre (c :: rest)) as [y|].
    + simpl. destruct (endIndex y - length pre).
      * constructor; [exact Hc|now apply IH].
      * now apply IH.
    + constructor; [exact Hc|now apply IH].
Qed.

Lemma double_breaks_Forall (P : cu -> Prop) s :
  P LF -> Forall P s -> Forall P (double_breaks s).
Proof.
  intros HLF. induction 1 as [|c s Hc _ IH]; simpl; [constructor|].
  destruct ((c =? LF)%N && starts_with chapter_token s);
    repeat constructor; assumption.
Qed.

Lemma normalize_Forall (P : cu -> Prop) s :
  P LF -> Forall P (strip_marks s) -> Forall P (normalizeMarkdown s).
Proof.
  intros HLF H. unfold normalizeMarkdown. rewrite space_chapters_spec.
  apply double_breaks_Forall; [exact HLF|].
  now apply replace_scan_delete_Forall.
Qed.

Lemma filter_terminators_join d :
  lines_wf d -> filter isLineTerminator (join_lines d) = map fst (snd d).
Proof.
  destruct d as [l tl]. unfold lines_wf, join_lines. simpl.
  intros [Hl Htl]. rewrite filter_app, (filter_none _ l Hl). simpl.
  induction Htl as [|[t l1] tl1 [Ht Hl1] _ IH]; simpl in *; [reflexivity|].
  now rewrite Ht, filter_app, (filter_none _ l1 Hl1), IH.
Qed.

(** Step 2 keeps every line terminator of the text. *)
Lemma strip_rules_terminators s :
  filter isLineTerminator (strip_rules s) = filter isLineTerminator s.
Proof.
  rewrite strip_rules_lines. rewrite <- (join_split s) at 2.
  rewrite !filter_terminators_join.
  - unfold map_lines. simpl. rewrite map_map. reflexivity.
  - apply split_lines_wf.
  - apply map_lines_wf; [apply clear_rule_plain|apply split_lines_wf].
Qed.

(** ** More on step 3 *)

Lemma starts_with_stop p c : ~ In c p -> forall a x,
  starts_with p (a ++ c :: x) = starts_with p a.
Proof.
  unfold starts_with. induction p as [|q p IH]; intros Hc a x.
  - reflexivity.
  - assert (Hq : q <> c) by (intros ->; apply Hc; now left).
    assert (Hp : ~ In c p) by (intros H; apply Hc; now right).
    destruct a as [|b a]; simpl.
    + apply N.eqb_neq in Hq. now rewrite Hq.
    + destruct (q =? b)%N; [now apply IH|reflexivity].
Qed.

Lemma token_no_LF : ~ In LF chapter_token.
Proof.
  intros H. repeat (destruct H as [H|H]; [discriminate|]). exact H.
Qed.

(** The doubling works on each side of a line feed separately. *)
Lemma double_breaks_app a x :
  double_breaks (a ++ LF :: x) = double_breaks a ++ double_breaks (LF :: x).
Proof.
  induction a as [|c a IH]; [reflexivity|].
  change ((c :: a) ++ LF :: x) with (c :: (a ++ LF :: x)).
  cbn [double_breaks].
  rewrite (starts_with_stop _ _ token_no_LF), IH.
  now destruct ((c =? LF)%N && starts_with chapter_token a).
Qed.

Lemma double_breaks_hit b :
  double_breaks (LF :: chapter_token ++ b)
  = LF :: LF :: chapter_token ++ double_breaks b.
Proof. reflexivity. Qed.

(** ** Step 3 on lines *)

Lemma plain_not_LF c : plain c -> (c =? LF)%N = false.
Proof.
  intros H. apply N.eqb_neq. intros ->. discriminate.
Qed.

Lemma double_breaks_plain l x :
  Forall plain l -> double_breaks (l ++ x) = l ++ double_breaks x.
Proof.
  induction 1 as [|c l Hc _ IH]; [reflexivity|].
  simpl. now rewrite (plain_not_LF c Hc), IH.
Qed.

Lemma has_break_plain l x :
  Forall plain l -> has_break (l ++ x) = has_break x.
Proof.
  induction 1 as [|c l Hc _ IH]; [reflexivity|].
  simpl. now rewrite (plain_not_LF c Hc), IH.
Qed.

Lemma token_plain : Forall plain chapter_token.
Proof. repeat constructor. Qed.

Lemma starts_with_token_line l r :
  at_break r ->
  starts_with chapter_token (l ++ r) = starts_with chapter_token l.
Proof.
  intros Hr. destruct r as [|t r]; [now rewrite app_nil_r|].
  apply starts_with_stop. intros Hin.
  assert (Hp := token_plain). rewrite Forall_forall in Hp.
  apply Hp in Hin. unfold at_break in Hr. simpl in Hr.
  unfold plain in Hin. congruence.
Qed.

Lemma unlines_at_break tl :
  Forall (fun p => isLineTerminator (fst p) = true /\ Forall plain (snd p)) tl
  -> at_break (unlines tl).
Proof.
  intros H. destruct H as [|[t l] tl [Ht _] _]; [reflexivity|].
  unfold at_break. simpl. exact Ht.
Qed.

Lemma unlines_app a b : unlines (a ++ b) = unlines a ++ unlines b.
Proof. apply flat_map_app. Qed.

Lemma double_breaks_unlines tl :
  Forall (fun p => isLineTerminator (fst p) = true /\ Forall plain (snd p)) tl
  -> double_breaks (unlines tl) = unlines (flat_map expand_entry tl).
Proof.
  induction 1 as [|[t l] tl [Ht Hl] Htl IH]; [reflexivity|].
  simpl in Ht, Hl.
  change (unlines ((t, l) :: tl)) with (t :: (l ++ unlines tl)).
  cbn [double_breaks flat_map].
  rewrite unlines_app, <- IH.
  rewrite (starts_with_token_line l _ (unlines_at_break tl Htl)).
  rewrite (double_breaks_plain l _ Hl).
  unfold expand_entry, is_chapter_break. cbn [fst snd].
  destruct (N.eqb_spec t LF) as [->|Ht']; cbn [andb].
  - destruct (starts_with chapter_token l); simpl;
      now rewrite ?app_nil_r.
  - simpl. now rewrite app_nil_r.
Qed.

Lemma double_breaks_join d :
  lines_wf d -> double_breaks (join_lines d) = join_lines (double_lines d).
Proof.
  destruct d as [l tl]. intros [Hl Htl]. simpl in Hl, Htl.
  unfold join_lines, double_lines. cbn [fst snd].
  rewrite (double_breaks_plain l _ Hl). f_equal.
  now apply double_breaks_unlines.
Qed.

Lemma double_lines_wf d : lines_wf d -> lines_wf (double_lines d).
Proof.
  destruct d as [l tl]. intros [Hl Htl]. split; [exact Hl|].
  cbn [fst snd double_lines] in *.
  induction Htl as [|p tl [Ht Hp] _ IH]; [constructor|].
  cbn [flat_map]. apply Forall_app. split; [|exact IH].
  unfold expand_entry. destruct (is_chapter_break p).
  - constructor; [split; [reflexivity|constructor]|].
    constructor; [now split|constructor].
  - constructor; [now split|constructor].
Qed.

Lemma double_lines_rule_free d : rule_free d -> rule_free (double_lines d).
Proof.
  destruct d as [l tl]. intros [Hl Htl]. split; [exact Hl|].
  cbn [fst snd double_lines] in *.
  induction Htl as [|p tl Hp _ IH]; [constructor|].
  cbn [flat_map]. apply Forall_app. split; [|exact IH].
  unfold expand_entry. destruct (is_chapter_break p);
    repeat constructor; assumption.
Qed.

Lemma map_lines_rule_free d : rule_free (map_lines clear_rule d).
Proof.
  split; simpl; [apply clear_rule_twice|].
  apply Forall_map, Forall_forall. intros p _. apply clear_rule_twice.
Qed.

(** Step 2 changes nothing in a text without rule lines. *)
Lemma strip_rules_rule_free d :
  lines_wf d -> rule_free d -> strip_rules (join_lines d) = join_lines d.
Proof.
  intros W [Hl Htl]. rewrite strip_rules_lines.
  destruct d as [l tl]. rewrite split_join by exact W.
  unfold map_lines, join_lines. cbn [fst snd] in *. rewrite Hl. f_equal.
  induction Htl as [|p tl Hp _ IH]; [reflexivity|].
  simpl. rewrite Hp. f_equal. f_equal. apply IH.
  destruct W as [W1 W2]. split; [exact W1|]. now inversion W2.
Qed.

Lemma has_break_unlines tl :
  Forall (fun p => isLineTerminator (fst p) = true /\ Forall plain (snd p)) tl
  -> has_break (unlines tl) = existsb is_chapter_break tl.
Proof.
  induction 1 as [|[t l] tl [Ht Hl] Htl IH]; [reflexivity|].
  simpl in Ht, Hl.
  change (unlines ((t, l) :: tl)) with (t :: (l ++ unlines tl)).
  cbn [has_break existsb].
  rewrite (starts_with_token_line l _ (unlines_at_break tl Htl)).
  now rewrite (has_break_plain l _ Hl), IH.
Qed.

Lemma has_break_join d :
  lines_wf d -> has_break (join_lines d) = existsb is_chapter_break (snd d).
Proof.
  destruct d as [l tl]. intros [Hl Htl]. unfold join_lines.
  cbn [fst snd] in *. rewrite (has_break_plain l _ Hl).
  now apply has_break_unlines.
Qed.

(** A line that starts with the chapter token is no rule line. *)
Lemma starts_with_token_clear l :
  starts_with chapter_token (clear_rule l) = starts_with chapter_token l.
Proof.
  unfold clear_rule. destruct (is_rule_line l) eqn:E; [|reflexivity].
  unfold starts_with.
  destruct (strip_prefix chapter_token l) as [b|] eqn:Hp; [|reflexivity].
  apply strip_prefix_Some in Hp. subst l. discriminate.
Qed.

(** Step 2 neither makes nor removes a line feed before the token. *)
Lemma has_break_strip_rules s : has_break (strip_rules s) = has_break s.
Proof.
  rewrite strip_rules_lines. rewrite <- (join_split s) at 2.
  rewrite !has_break_join.
  - unfold map_lines. cbn [snd].
    induction (snd (split_lines s)) as [|[t l] tl IH]; [reflexivity|].
    simpl. rewrite IH. f_equal.
    unfold is_chapter_break. cbn [fst snd].
    now rewrite starts_with_token_clear.
  - apply split_lines_wf.
  - apply map_lines_wf; [apply clear_rule_plain|apply split_lines_wf].
Qed.

(** ** Normalising twice *)

Lemma starts_with_double p : ~ In LF p -> forall s,
  starts_with p (double_breaks s) = starts_with p s.
Proof.
  unfold starts_with. induction p as [|q p IH]; intros Hp s; [reflexivity|].
  assert (Hq : (q =? LF)%N = false)
    by (apply N.eqb_neq; intros ->; apply Hp; now left).
  assert (Hp' : ~ In LF p) by (intros H; apply Hp; now right).
  destruct s as [|c s]; [reflexivity|]. cbn [double_breaks].
  destruct (N.eqb_spec c LF) as [->|Hc]; cbn [andb].
  - destruct (starts_with chapter_token s); simpl; rewrite Hq;
      reflexivity.
  - simpl. destruct (q =? c)%N; [now apply IH|reflexivity].
Qed.

Lemma has_break_double s : has_break (double_breaks s) = has_break s.
Proof.
  induction s as [|c s IH]; [reflexivity|]. cbn [double_breaks has_break].
  destruct ((c =? LF)%N && starts_with chapter_token s) eqn:E.
  - apply andb_true_iff in E. destruct E as [_ E].
    cbn [has_break]. rewrite (starts_with_double _ token_no_LF), E.
    now rewrite N.eqb_refl, orb_true_r.
  - cbn [has_break]. now rewrite (starts_with_double _ token_no_LF), E, IH.
Qed.

Lemma double_breaks_id s : has_break s = false -> double_breaks s = s.
Proof.
  induction s as [|c s IH]; [reflexivity|]. cbn [double_breaks has_break].
  intros H. apply orb_false_iff in H. destruct H as [H1 H2].
  now rewrite H1, IH.
Qed.

Lemma double_breaks_length s : length s <= length (double_breaks s).
Proof.
  induction s as [|c s IH]; [reflexivity|]. cbn [double_breaks].
  destruct ((c =? LF)%N && starts_with chapter_token s); simpl; lia.
Qed.

Lemma double_breaks_longer s :
  has_break s = true -> length s < length (double_breaks s).
Proof.
  induction s as [|c s IH]; [discriminate|]. cbn [double_breaks has_break].
  assert (L := double_breaks_length s).
  destruct ((c =? LF)%N && starts_with chapter_token s); simpl.
  - lia.
  - intros H. apply IH in H. lia.
Qed.

Lemma filter_id {A} (f : A -> bool) l :
  Forall (fun x => f x = true) l -> filter f l = l.
Proof.
  induction 1 as [|x l Hx _ IH]; simpl; [reflexivity|].
  now rewrite Hx, IH.
Qed.

Lemma normalize_unmarked s :
  Forall (fun c => negb (is_mark c) = true) (normalizeMarkdown s).
Proof.
  apply normalize_Forall; [reflexivity|].
  rewrite strip_marks_filter. apply Forall_forall.
  intros c Hc. now apply filter_In in Hc.
Qed.

(** On a normalised text steps 1 and 2 change nothing: a second pass is
    step 3 alone. *)
Lemma normalize_twice s :
  normalizeMarkdown (normalizeMarkdown s)
  = space_chapters (normalizeMarkdown s).
Proof.
  unfold normalizeMarkdown at 1. f_equal.
  rewrite strip_marks_filter, (filter_id _ _ (normalize_unmarked s)).
  unfold normalizeMarkdown.
  rewrite space_chapters_spec, (strip_rules_lines (strip_marks s)).
  set (d := map_lines clear_rule (split_lines (strip_marks s))).
  assert (W : lines_wf d)
    by (apply map_lines_wf; [apply clear_rule_plain|apply split_lines_wf]).
  rewrite (double_breaks_join d W).
  apply strip_rules_rule_free.
  - now apply double_lines_wf.
  - apply double_lines_rule_free, map_lines_rule_free.
Qed.

Lemma has_break_normalize s :
  has_break (normalizeMarkdown s) = has_break (strip_marks s).
Proof.
  unfold normalizeMarkdown.
  now rewrite space_chapters_spec, has_break_double, has_break_strip_rules.
Qed.

(** ** [split] with a pattern *)

Lemma split_scan_cons fl r seg pre c rest :
  split_scan fl r seg pre (c :: rest) 0 =
  match exec_at fl r pre (c :: rest) with
  | Some y =>
      match endIndex y - length pre, seg with
      | O, [] => split_scan fl r [c] (c :: pre) rest 0
      | O, _ :: _ => rev seg :: split_scan fl r [c] (c :: pre) rest 0
      | S k, _ => rev seg :: split_scan fl r [] (c :: pre) rest k
      end
  | None => split_scan fl r (c :: seg) (c :: pre) rest 0
  end.
Proof. reflexivity. Qed.

Lemma split_scan_miss fl r seg pre c rest :
  exec_at fl r pre (c :: rest) = None ->
  split_scan fl r seg pre (c :: rest) 0 =
  split_scan fl r (c :: seg) (c :: pre) rest 0.
Proof. intros H. now rewrite split_scan_cons, H. Qed.

Lemma split_scan_skip fl r seg a b : forall pre,
  split_scan fl r seg pre (a ++ b) (length a) =
  split_scan fl r seg (rev a ++ pre) b 0.
Proof.
  induction a as [|x a IH]; intros pre.
  - simpl. now destruct b.
  - simpl. rewrite IH. now rewrite <- app_assoc.
Qed.

(** The step of [split] at a non-empty match [m]. *)
Lemma split_scan_hit fl r seg pre m rest y :
  m <> [] ->
  exec_at fl r pre (m ++ rest) = Some y ->
  endIndex y = length m + length pre ->
  split_scan fl r seg pre (m ++ rest) 0 =
  rev seg :: split_scan fl r [] (rev m ++ pre) rest 0.
Proof.
  intros Hm He Hy. destruct m as [|x m]; [congruence|].
  change ((x :: m) ++ rest) with (x :: (m ++ rest)) in *.
  rewrite split_scan_cons, He, Hy.
  replace (length (x :: m) + length pre - length pre) with (S (length m))
    by (simpl length; lia).
  rewrite split_scan_skip. simpl. now rewrite <- app_assoc.
Qed.

(** The same for [split]: at a match that is not empty the segment ends,
    and the scan goes on from the state the matcher returned. *)
Theorem split_scan_jump fl r seg pre rest y :
  exec_at fl r pre rest = Some y ->
  endIndex y <> length pre ->
  split_scan fl r seg pre rest 0 =
  rev seg :: split_scan fl r [] (consumed y) (remaining y) 0.
Proof.
  intros He Hn. destruct (exec_at_ahead _ _ _ _ _ He) as (d & Ec & Er).
  assert (Hd : d <> []).
  { intros ->. apply Hn. unfold endIndex. now rewrite Ec. }
  rewrite Ec. subst rest. apply (split_scan_hit _ _ _ _ _ _ y); auto.
  unfold endIndex. rewrite Ec, length_app, length_rev. lia.
Qed.

(** Where the pattern matches nowhere, the text is one segment. *)
Lemma split_scan_unmatched fl r rest : forall seg pre,
  matches_from fl r pre rest = false ->
  split_scan fl r seg pre rest 0 = [rev seg ++ rest].
Proof.
  induction rest as [|c rest IH]; intros seg pre H.
  - simpl. now rewrite app_nil_r.
  - simpl in H. destruct (exec_at fl r pre (c :: rest)) eqn:E;
      [discriminate|].
    rewrite split_scan_miss by exact E. rewrite IH by exact H.
    simpl. now rewrite <- app_assoc.
Qed.

Lemma exec_break_nil pre : exec_at flags_gi re_break pre [] = None.
Proof. reflexivity. Qed.

Lemma split_break s :
  split flags_gi re_break s = split_scan flags_gi re_break [] [] s 0.
Proof. now destruct s. Qed.

Lemma split_unmarked s :
  has_marker s = false -> split flags_gi re_break s = [s].
Proof.
  intros H. rewrite split_break. now rewrite split_scan_unmatched.
Qed.

(** Without a marker there is one page, the trimmed text, or none. *)
Lemma pages_unmarked s :
  has_marker s = false ->
  splitIntoPages s = if keep_page (trim s) then [trim s] else [].
Proof.
  intros H. unfold splitIntoPages. rewrite split_unmarked by exact H.
  reflexivity.
Qed.

Lemma keep_page_trim s :
  keep_page (trim s) = false <-> exists n, filter not_space s = nbsp_run n.
Proof. rewrite keep_page_spec. now rewrite trim_filter. Qed.

Lemma nbsp_not_space : filter not_space nbsp = nbsp.
Proof. reflexivity. Qed.

Lemma SpacesAndNbsp_run s :
  SpacesAndNbsp s -> exists n, filter not_space s = nbsp_run n.
Proof.
  induction 1 as [|c s Hc _ [n IH]|s _ [n IH]].
  - now exists 0.
  - exists n. simpl. unfold not_space at 1. now rewrite Hc.
  - exists (S n). now rewrite filter_app, nbsp_not_space, IH.
Qed.

(** ** What every match of the page-break pattern contains *)

Lemma Matches_seq fl r1 r2 x z :
  Matches fl (Seq r1 r2) x z ->
  exists y, Matches fl r1 x y /\ Matches fl r2 y z.
Proof. inversion 1; subst. eauto. Qed.

(** A literal matches a text that is the literal up to letter case. *)
Lemma Matches_lit p : forall x y,
  Matches flags_gi (lit p) x y ->
  exists k, remaining x = k ++ remaining y /\ starts_with_ci p k = true.
Proof.
  induction p as [|a p IH]; intros x y H; simpl in H.
  - inversion H; subst. now exists [].
  - apply Matches_seq in H. destruct H as (x1 & H1 & H2).
    inversion H1 as [|? c pre rest caps Ht| | | | | | |]; subst.
    destruct (IH _ _ H2) as (k & Ek & Hk). simpl in Ek.
    exists (c :: k). split; [simpl; now rewrite Ek|].
    simpl. now rewrite Hk, andb_true_r.
Qed.

Lemma starts_with_ci_app p k r :
  starts_with_ci p k = true -> starts_with_ci p (k ++ r) = true.
Proof.
  revert k. induction p as [|a p IH]; intros k H; [reflexivity|].
  destruct k as [|b k]; [discriminate|]. simpl in *.
  apply andb_true_iff in H. destruct H as [H1 H2].
  now rewrite H1, IH.
Qed.

Lemma occurs_ci_app p d s :
  occurs_ci p s = true -> occurs_ci p (d ++ s) = true.
Proof.
  intros H. induction d as [|c d IH]; [exact H|].
  simpl. rewrite IH. apply orb_true_r.
Qed.

Lemma occurs_ci_head p s : starts_with_ci p s = true -> occurs_ci p s = true.
Proof. intros H. destruct s; simpl; now rewrite H. Qed.

(** One step through a sequence: the rest of the pattern matches from a
    later position of the same text. *)
Lemma Matches_step fl r1 r2 x z :
  Matches fl (Seq r1 r2) x z ->
  exists y d, remaining x = d ++ remaining y /\ Matches fl r2 y z.
Proof.
  intros H. apply Matches_seq in H. destruct H as (y & H1 & H2).
  destruct (Matches_ahead _ _ _ _ H1) as (d & _ & Ed).
  now exists y, d.
Qed.

(** A match of the page-break pattern contains [page-break-after:], in
    some letter case, with the colon directly after the name. *)
Lemma break_has_property_colon pre rest y :
  exec_at flags_gi re_break pre rest = Some y ->
  occurs_ci property_colon rest = true.
Proof.
  intros H. apply exec_at_sound in H. unfold re_break in H.
  change rest with (remaining (mkState pre rest [])).
  revert H. generalize (mkState pre rest []). intros x H.
  do 6 (apply Matches_step in H; destruct H as (? & ? & -> & H);
        apply occurs_ci_app).
  apply Matches_seq in H. destruct H as (xl & H & _).
  apply Matches_lit in H. destruct H as (k & -> & Hk).
  apply occurs_ci_head. now apply starts_with_ci_app.
Qed.

Lemma occurs_ci_tail p c s : occurs_ci p (c :: s) = false ->
  occurs_ci p s = false.
Proof. simpl. intros H. now apply orb_false_iff in H. Qed.

Lemma unmarked_without_property rest : forall pre,
  occurs_ci property_colon rest = false ->
  matches_from flags_gi re_break pre rest = false.
Proof.
  induction rest as [|c rest IH]; intros pre H; simpl.
  - reflexivity.
  - destruct (exec_at flags_gi re_break pre (c :: rest)) eqn:E.
    + apply break_has_property_colon in E. congruence.
    + apply IH. now apply occurs_ci_tail in H.
Qed.

(** ** A pattern without [^] matches the same after any prefix *)

Section Shift.

Variables p1 p2 : list cu.

Lemma firstn_app_le {A} n (l1 l2 : list A) :
  n <= length l1 -> firstn n (l1 ++ l2) = firstn n l1.
Proof.
  intros H. rewrite firstn_app.
  replace (n - length l1) with 0 by lia. simpl. apply app_nil_r.
Qed.

Lemma matched_shift x1 x2 y1 y2 :
  shifted p1 p2 x1 x2 -> shifted p1 p2 y1 y2 -> matched x1 y1 = matched x2 y2.
Proof.
  intros (dx & X1 & X2 & _) (dy & Y1 & Y2 & _).
  unfold matched, endIndex. rewrite X1, X2, Y1, Y2, !length_app.
  replace (length dy + length p1 - (length dx + length p1))
    with (length dy - length dx) by lia.
  replace (length dy + length p2 - (length dx + length p2))
    with (length dy - length dx) by lia.
  now rewrite !firstn_app_le by lia.
Qed.

Lemma repeat_matcher_shift test caps c1 c2 :
  related p1 p2 c1 c2 ->
  forall rest min d,
  shifted_result p1 p2
    (repeat_matcher test min (d ++ p1) rest caps c1)
    (repeat_matcher test min (d ++ p2) rest caps c2).
Proof.
  intros Hc.
  assert (Hstop : forall rest min d,
    shifted_result p1 p2
      match min with
      | O => c1 (mkState (d ++ p1) rest caps)
      | S _ => None
      end
      match min with
      | O => c2 (mkState (d ++ p2) rest caps)
      | S _ => None
      end).
  { intros rest [|min] d; [|exact I]. apply Hc. now exists d. }
  induction rest as [|x rest IH]; intros min d; simpl.
  - apply Hstop.
  - destruct (test x); [|apply Hstop].
    specialize (IH (Nat.pred min) (x :: d)). simpl in IH.
    destruct (repeat_matcher test (Nat.pred min) (x :: d ++ p1) rest caps c1);
      destruct (repeat_matcher test (Nat.pred min) (x :: d ++ p2) rest caps c2);
      try contradiction.
    + exact IH.
    + apply Hstop.
Qed.

Lemma matcher_shift fl r :
  no_lookbehind r = true ->
  forall x1 x2 c1 c2,
  shifted p1 p2 x1 x2 -> related p1 p2 c1 c2 ->
  shifted_result p1 p2 (matcher fl r x1 c1) (matcher fl r x2 c2).
Proof.
  induction r as [|a|min a| | |r1 IH1 r2 IH2|r1 IH1 r2 IH2|n r IH];
    intros Hr x1 x2 c1 c2 Hx Hc; simpl in *.
  - now apply Hc.
  - destruct Hx as (d & X1 & X2 & Xr & Xc). rewrite <- Xr.
    destruct (remaining x1) as [|c rest]; [exact I|].
    destruct (atom_test (ignoreCase fl) a c); [|exact I].
    apply Hc. exists (c :: d). rewrite X1, X2, Xc. now repeat split.
  - destruct Hx as (d & X1 & X2 & Xr & Xc). rewrite X1, X2, <- Xr, <- Xc.
    now apply repeat_matcher_shift.
  - discriminate.
  - destruct Hx as (d & X1 & X2 & Xr & Xc). rewrite <- Xr.
    destruct (line_end fl (remaining x1)); [|exact I].
    apply Hc. now exists d.
  - apply andb_true_iff in Hr. destruct Hr as [Hr1 Hr2].
    apply IH1; auto. intros y1 y2 Hy. now apply IH2.
  - apply andb_true_iff in Hr. destruct Hr as [Hr1 Hr2].
    specialize (IH1 Hr1 x1 x2 c1 c2 Hx Hc).
    destruct (matcher fl r1 x1 c1); destruct (matcher fl r1 x2 c2);
      try contradiction; [exact IH1|].
    now apply IH2.
  - apply IH; auto. intros y1 y2 Hy. apply Hc.
    destruct Hy as (d & Y1 & Y2 & Yr & Yc). exists d. simpl.
    rewrite (matched_shift x1 x2 y1 y2 Hx), Yc; [auto|].
    now exists d.
Qed.

Lemma exec_at_shift fl r d rest :
  no_lookbehind r = true ->
  shifted_result p1 p2 (exec_at fl r (d ++ p1) rest)
                       (exec_at fl r (d ++ p2) rest).
Proof.
  intros Hr. unfold exec_at. apply matcher_shift; auto.
  - now exists d.
  - intros y1 y2 Hy. exact Hy.
Qed.

Lemma split_scan_shift fl r :
  no_lookbehind r = true ->
  forall rest seg d skip,
  split_scan fl r seg (d ++ p1) rest skip =
  split_scan fl r seg (d ++ p2) rest skip.
Proof.
  intros Hr. induction rest as [|c rest IH]; intros seg d skip.
  - reflexivity.
  - assert (IH' := fun seg k => IH seg (c :: d) k). simpl in IH'.
    destruct skip as [|k]; [|simpl; apply IH'].
    rewrite !split_scan_cons.
    assert (E := exec_at_shift fl r d (c :: rest) Hr).
    destruct (exec_at fl r (d ++ p1) (c :: rest)) as [y1|];
      destruct (exec_at fl r (d ++ p2) (c :: rest)) as [y2|];
      try contradiction.
    + destruct E as (dy & Y1 & Y2 & _). unfold endIndex.
      rewrite Y1, Y2, !length_app.
      replace (length dy + length p1 - (length d + length p1))
        with (length dy - length d) by lia.
      replace (length dy + length p2 - (length d + length p2))
        with (length dy - length d) by lia.
      destruct (length dy - length d); [destruct seg|];
        now rewrite IH'.
    + apply IH'.
Qed.

End Shift.

Lemma no_lookbehind_break : no_lookbehind re_break = true.
Proof. reflexivity. Qed.

(** The pages of a text do not depend on what was split off before it. *)
Lemma split_scan_break_pre seg pre rest :
  split_scan flags_gi re_break seg pre rest 0 =
  split_scan flags_gi re_break seg [] rest 0.
Proof.
  rewrite <- (app_nil_l pre).
  rewrite (split_scan_shift pre [] _ _ no_lookbehind_break).
  reflexivity.
Qed.

(** ** Markers at the ends of a text and next to each other *)

Lemma marker_nonempty M : marker M -> M <> [].
Proof.
  intros H ->. destruct (H [] []) as (y & E & _).
  simpl in E. rewrite exec_break_nil in E. discriminate.
Qed.

(** At a marker the segment ends, and the scan goes on after it. *)
Lemma marker_step M seg pre t :
  marker M ->
  split_scan flags_gi re_break seg pre (M ++ t) 0 =
  rev seg :: split_scan flags_gi re_break [] [] t 0.
Proof.
  intros H. destruct (H pre t) as (y & E & R).
  destruct (exec_at_ahead _ _ _ _ _ E) as (d & Ec & Er).
  rewrite R in Er. apply app_inv_tail in Er. subst d.
  rewrite (split_scan_hit _ _ _ _ _ _ _ (marker_nonempty M H) E).
  - now rewrite split_scan_break_pre.
  - unfold endIndex. rewrite Ec, length_app, length_rev. lia.
Qed.


(** ** Completeness of the matcher *)

Lemma repeat_matcher_complete test c caps d : forall min pre rest z,
  Forall (fun ch => test ch = true) d -> min <= length d ->
  c (mkState (rev d ++ pre) rest caps) = Some z ->
  exists z', repeat_matcher test min pre (d ++ rest) caps c = Some z'.
Proof.
  induction d as [|x d IH]; intros min pre rest z Hd Hm Hc.
  - simpl in *. assert (min = 0) by lia. subst min.
    destruct rest as [|ch rest]; simpl; [eauto|].
    destruct (test ch); [|eauto].
    destruct (repeat_matcher test 0 (ch :: pre) rest caps c); eauto.
  - inversion Hd as [|? ? Hx Hd']; subst. simpl. rewrite Hx.
    destruct (IH (Nat.pred min) (x :: pre) rest z Hd') as [z' ->].
    + simpl in Hm. lia.
    + simpl in Hc. now rewrite <- app_assoc in Hc.
    + eauto.
Qed.

(** Where a match exists that the continuation accepts, the matcher finds
    one (that one, or another that comes first in its order). *)
Theorem matcher_complete fl r x y :
  Matches fl r x y ->
  forall c z, c y = Some z -> exists z', matcher fl r x c = Some z'.
Proof.
  induction 1 as [x|a ch pre rest caps Ht|min a d pre rest caps Hd Hm
                 |x Hs|x Hs|r1 r2 x y z' _ IH1 _ IH2
                 |r1 r2 x y _ IH|r1 r2 x y _ IH|n r x y _ IH];
    intros c z Hc; simpl.
  - eauto.
  - rewrite Ht. eauto.
  - eapply repeat_matcher_complete; eauto.
  - rewrite Hs. eauto.
  - rewrite Hs. eauto.
  - destruct (IH2 c z Hc) as [z2 H2]. exact (IH1 _ _ H2).
  - destruct (IH c z Hc) as [z1 ->]. eauto.
  - destruct (matcher fl r1 x c); [eauto|]. exact (IH c z Hc).
  - exact (IH _ _ Hc).
Qed.

Lemma exec_at_complete fl r pre rest y :
  Matches fl r (mkState pre rest []) y ->
  exists z, exec_at fl r pre rest = Some z.
Proof.
  intros H. exact (matcher_complete _ _ _ _ H Some y eq_refl).
Qed.

(** ** Letter case and the punctuation of the pattern *)

#[local] Arguments canonicalize : simpl never.
#[local] Arguments chr : simpl never.

(** A code unit below [A] is only its own upper-case form. *)
Lemma canon_eqb_low z c :
  (z < 0x41)%N -> (z =? canonicalize true c)%N = (z =? c)%N.
Proof.
  intros Hz. unfold canonicalize. simpl andb.
  destruct (0x61 <=? c)%N eqn:E1; [|reflexivity].
  destruct (c <=? 0x7A)%N eqn:E2; [|reflexivity]. simpl.
  apply N.leb_le in E1.
  destruct (N.eqb_spec z (c - 0x20)), (N.eqb_spec z c); try reflexivity; lia.
Qed.

Lemma canon_low z : (z < 0x41)%N -> canonicalize true z = z.
Proof.
  intros Hz. unfold canonicalize. simpl andb.
  destruct (0x61 <=? z)%N eqn:E1; [|reflexivity].
  apply N.leb_le in E1. lia.
Qed.

Lemma atom_test_not_gt c : atom_test true not_gt c = negb (is_gt c).
Proof.
  unfold atom_test, not_gt, is_gt. simpl.
  rewrite orb_false_r, (canon_low (chr ">")) by reflexivity.
  rewrite canon_eqb_low by reflexivity. now rewrite N.eqb_sym.
Qed.

Lemma quote_item c :
  existsb (item_has true (canonicalize true c)) [CChar SQUOTE; CChar DQUOTE]
  = is_quote c.
Proof.
  unfold is_quote. simpl.
  rewrite orb_false_r, (canon_low SQUOTE), (canon_low DQUOTE) by reflexivity.
  rewrite !canon_eqb_low by reflexivity.
  now rewrite (N.eqb_sym c SQUOTE), (N.eqb_sym c DQUOTE).
Qed.

Lemma atom_test_quote c : atom_test true quote c = is_quote c.
Proof. unfold atom_test, quote. now rewrite quote_item. Qed.

Lemma atom_test_not_quote c : atom_test true not_quote c = negb (is_quote c).
Proof. unfold atom_test, not_quote. now rewrite quote_item. Qed.

Lemma atom_test_space_ci c :
  atom_test true space_class c = isSpace (canonicalize true c).
Proof. unfold atom_test, space_class. simpl. now rewrite orb_false_r. Qed.

Lemma isSpace_cases c :
  isSpace c = true ->
  (0x09 <= c <= 0x0D)%N \/ c = 0x20%N \/ (0xA0 <= c)%N.
Proof.
  unfold isSpace, isWhiteSpace, isLineTerminator.
  rewrite !orb_true_iff, !andb_true_iff, !N.eqb_eq, !N.leb_le. lia.
Qed.

Lemma space_canon c : isSpace c = true -> canonicalize true c = c.
Proof.
  intros H. apply isSpace_cases in H. unfold canonicalize. simpl andb.
  destruct (0x61 <=? c)%N eqn:E1; [|reflexivity].
  destruct (c <=? 0x7A)%N eqn:E2; [|reflexivity].
  apply N.leb_le in E1, E2. lia.
Qed.

Lemma space_decl c : isSpace c = true -> decl_char c = true.
Proof.
  intros H. apply isSpace_cases in H.
  unfold decl_char, is_quote, is_gt, is_equals.
  change SQUOTE with 0x27%N. change DQUOTE with 0x22%N.
  change (chr ">") with 0x3E%N. change (chr "=") with 0x3D%N.
  destruct (N.eqb_spec c 0x27), (N.eqb_spec c 0x22), (N.eqb_spec c 0x3E),
    (N.eqb_spec c 0x3D); try reflexivity; lia.
Qed.

(** What [\s] accepts under the [i] flag is white space. *)
Lemma space_ci c : isSpace (canonicalize true c) = true -> isSpace c = true.
Proof.
  unfold canonicalize. simpl andb.
  destruct (0x61 <=? c)%N eqn:E1; [|auto].
  destruct (c <=? 0x7A)%N eqn:E2; [|auto]. simpl.
  intros H. apply isSpace_cases in H.
  apply N.leb_le in E1, E2. lia.
Qed.

Lemma decl_char_parts c :
  decl_char c = true ->
  is_quote c = false /\ is_gt c = false /\ is_equals c = false.
Proof.
  unfold decl_char. rewrite !andb_true_iff, !negb_true_iff. tauto.
Qed.

(** *** Texts equal up to letter case *)

Lemma same_ci_length p : forall k, same_ci p k = true -> length k = length p.
Proof.
  induction p as [|a p IH]; intros [|b k] H; simpl in *;
    try discriminate; [reflexivity|].
  apply andb_true_iff in H. destruct H as [_ H]. now rewrite (IH k).
Qed.

Lemma same_ci_starts p : forall k r,
  same_ci p k = true -> starts_with_ci p (k ++ r) = true.
Proof.
  induction p as [|a p IH]; intros [|b k] r H; simpl in *;
    try discriminate; [reflexivity|].
  apply andb_true_iff in H. destruct H as [H1 H2].
  now rewrite H1, IH.
Qed.

(** A low code unit [z] of the literal stands in the text as it is. *)
Lemma same_ci_head z p k :
  (z < 0x41)%N -> same_ci (z :: p) k = true ->
  exists k', k = z :: k' /\ same_ci p k' = true.
Proof.
  intros Hz H. destruct k as [|b k]; [discriminate|]. simpl in H.
  apply andb_true_iff in H. destruct H as [H1 H2].
  rewrite (canon_low z Hz), canon_eqb_low in H1 by exact Hz.
  apply N.eqb_eq in H1. subst b. now exists k.
Qed.

Lemma same_ci_last z p : forall k,
  (z < 0x41)%N -> same_ci (p ++ [z]) k = true ->
  exists k', k = k' ++ [z] /\ same_ci p k' = true.
Proof.
  induction p as [|a p IH]; intros k Hz H.
  - apply same_ci_head in H; [|exact Hz]. destruct H as (k' & -> & H).
    destruct k'; [|discriminate]. now exists [].
  - destruct k as [|b k]; [discriminate|]. simpl in H.
    apply andb_true_iff in H. destruct H as [H1 H2].
    destruct (IH k Hz H2) as (k' & -> & H').
    exists (b :: k'). split; [reflexivity|]. simpl. now rewrite H1.
Qed.

(** ** The parts of a match of the page-break pattern *)

Lemma Matches_lit_ci p : forall x y,
  Matches flags_gi (lit p) x y ->
  exists k, remaining x = k ++ remaining y /\ same_ci p k = true.
Proof.
  induction p as [|a p IH]; intros x y H; simpl in H.
  - inversion H; subst. now exists [].
  - apply Matches_seq in H. destruct H as (x1 & H1 & H2).
    inversion H1 as [|? c pre rest caps Ht| | | | | | |]; subst.
    destruct (IH _ _ H2) as (k & Ek & Hk). simpl in Ek.
    exists (c :: k). split; [simpl; now rewrite Ek|].
    simpl. unfold atom_test in Ht. simpl in Ht. now rewrite Ht, Hk.
Qed.

Lemma Matches_lit_intro p : forall pre rest caps,
  Matches flags_gi (lit p) (mkState pre (p ++ rest) caps)
                           (mkState (rev p ++ pre) rest caps).
Proof.
  induction p as [|a p IH]; intros pre rest caps; simpl.
  - constructor.
  - eapply MSeq.
    + apply MAtom. unfold atom_test. apply N.eqb_refl.
    + rewrite <- app_assoc. apply IH.
Qed.

Lemma Matches_repeat fl min a x y :
  Matches fl (Repeat min a) x y ->
  exists d, remaining x = d ++ remaining y /\
            Forall (fun c => atom_test (ignoreCase fl) a c = true) d /\
            min <= length d.
Proof. inversion 1; subst. now exists d. Qed.

Lemma Matches_atom fl a x y :
  Matches fl (Atom a) x y ->
  exists c, remaining x = c :: remaining y /\
            atom_test (ignoreCase fl) a c = true.
Proof.
  inversion 1 as [|? c pre rest caps Ht| | | | | | |]; subst. now exists c.
Qed.

Lemma Forall_bool {A} (f g : A -> bool) l :
  (forall c, f c = true -> g c = true) ->
  Forall (fun c => f c = true) l -> Forall (fun c => g c = true) l.
Proof. intros H. apply Forall_impl. exact H. Qed.

Lemma class_free (a : atom) (P : cu -> bool) d :
  (forall c, atom_test true a c = negb (P c)) ->
  Forall (fun c => atom_test true a c = true) d -> free_of P d.
Proof.
  intros H. apply Forall_impl. intros c Hc. rewrite H in Hc.
  now apply negb_true_iff.
Qed.

(** Every match of the pattern has the shape the pattern spells. *)
Lemma break_match_shape x y :
  Matches flags_gi re_break x y -> break_shape (remaining x) (remaining y).
Proof.
  intros H. unfold re_break in H.
  apply Matches_seq in H. destruct H as (x1 & H1 & H).
  apply Matches_lit_ci in H1. destruct H1 as (k1 & E1 & K1).
  apply Matches_seq in H. destruct H as (x2 & H2 & H).
  apply Matches_repeat in H2. destruct H2 as (s1 & E2 & S1 & L1).
  apply Matches_seq in H. destruct H as (x3 & H3 & H).
  apply Matches_repeat in H3. destruct H3 as (g1 & E3 & G1 & _).
  apply Matches_seq in H. destruct H as (x4 & H4 & H).
  apply Matches_lit_ci in H4. destruct H4 as (k2 & E4 & K2).
  apply Matches_seq in H. destruct H as (x5 & H5 & H).
  apply Matches_atom in H5. destruct H5 as (a1 & E5 & A1).
  apply Matches_seq in H. destruct H as (x6 & H6 & H).
  apply Matches_repeat in H6. destruct H6 as (v1 & E6 & V1 & _).
  apply Matches_seq in H. destruct H as (x7 & H7 & H).
  apply Matches_lit_ci in H7. destruct H7 as (k3 & E7 & K3).
  apply Matches_seq in H. destruct H as (x8 & H8 & H).
  apply Matches_repeat in H8. destruct H8 as (s2 & E8 & S2 & _).
  apply Matches_seq in H. destruct H as (x9 & H9 & H).
  apply Matches_lit_ci in H9. destruct H9 as (k4 & E9 & K4).
  apply Matches_seq in H. destruct H as (x10 & H10 & H).
  apply Matches_repeat in H10. destruct H10 as (v2 & E10 & V2 & _).
  apply Matches_seq in H. destruct H as (x11 & H11 & H).
  apply Matches_atom in H11. destruct H11 as (a2 & E11 & A2).
  apply Matches_seq in H. destruct H as (x12 & H12 & H).
  apply Matches_repeat in H12. destruct H12 as (g2 & E12 & G2 & _).
  apply Matches_lit_ci in H. destruct H as (k5 & E13 & K5).
  exists k1, s1, g1, k2, a1, v1, k3, s2, k4, v2, a2, g2, k5.
  simpl ignoreCase in *.
  split.
  { rewrite E1, E2, E3, E4, E5, E6, E7, E8, E9, E10, E11, E12, E13.
    reflexivity. }
  repeat split; auto.
  - eapply Forall_bool; [|exact S1]. intros c Hc.
    rewrite atom_test_space_ci in Hc. now apply space_ci.
  - exact (class_free _ _ _ atom_test_not_gt G1).
  - now rewrite atom_test_quote in A1.
  - exact (class_free _ _ _ atom_test_not_quote V1).
  - eapply Forall_bool; [|exact S2]. intros c Hc.
    rewrite atom_test_space_ci in Hc. now apply space_ci.
  - exact (class_free _ _ _ atom_test_not_quote V2).
  - now rewrite atom_test_quote in A2.
  - exact (class_free _ _ _ atom_test_not_gt G2).
Qed.

(** ** Where a text can be cut *)

(** Two cuts of one text at the first code unit that [P] accepts are the
    same cut. *)
Lemma first_split (P : cu -> bool) l1 : forall a r1 l2 b r2,
  l1 ++ a :: r1 = l2 ++ b :: r2 ->
  free_of P l1 -> free_of P l2 -> P a = true -> P b = true ->
  l1 = l2 /\ a = b /\ r1 = r2.
Proof.
  induction l1 as [|c l1 IH]; intros a r1 [|c' l2] b r2 E F1 F2 Ha Hb;
    simpl in E; inversion E; subst.
  - auto.
  - inversion F2; subst. congruence.
  - inversion F1; subst. congruence.
  - inversion F1; inversion F2; subst.
    destruct (IH _ _ _ _ _ H1) as (-> & -> & ->); auto.
Qed.

(** A prefix without such a code unit ends before the first one. *)
Lemma prefix_free (P : cu -> bool) l1 : forall x l2 p r,
  l1 ++ x = l2 ++ p :: r -> free_of P l1 -> P p = true ->
  exists m, l2 = l1 ++ m.
Proof.
  induction l1 as [|c l1 IH]; intros x [|c' l2] p r E F Hp; simpl in E.
  - now exists [].
  - now exists (c' :: l2).
  - inversion E; subst. inversion F; subst. congruence.
  - inversion E; subst. inversion F; subst.
    destruct (IH _ _ _ _ H1) as [m ->]; auto. now exists m.
Qed.

(** A text with one such code unit only can be cut at it in one way. *)
Lemma only_split (P : cu -> bool) l : forall p r l' p' r',
  l ++ p :: r = l' ++ p' :: r' ->
  free_of P l -> free_of P r -> P p' = true ->
  l = l' /\ p = p' /\ r = r'.
Proof.
  induction l as [|c l IH]; intros p r [|c' l'] p' r' E F1 F2 Hp;
    simpl in E; inversion E; subst.
  - auto.
  - apply Forall_app in F2. destruct F2 as [_ F2].
    inversion F2; subst. congruence.
  - inversion F1; subst. congruence.
  - inversion F1; subst.
    destruct (IH _ _ _ _ _ H1) as (-> & -> & ->); auto.
Qed.

Lemma app_same_length {A} (l1 : list A) : forall l2 r1 r2,
  l1 ++ r1 = l2 ++ r2 -> length l1 = length l2 -> r1 = r2.
Proof.
  induction l1 as [|a l1 IH]; intros [|b l2] r1 r2 E L; simpl in *;
    try discriminate; [exact E|].
  inversion E; subst. apply (IH l2); auto.
Qed.

(** *** The code units of declarations *)

Lemma canon_decl a b :
  (canonicalize true a =? canonicalize true b)%N = true ->
  decl_char a = true -> decl_char b = true.
Proof.
  intros E Ha. apply N.eqb_eq in E.
  destruct (decl_char b) eqn:Hb; [reflexivity|]. exfalso.
  assert (Hlow : (b < 0x41)%N).
  { unfold decl_char, is_quote, is_gt, is_equals in Hb.
    rewrite !andb_false_iff, !negb_false_iff, !orb_true_iff, !N.eqb_eq in Hb.
    change SQUOTE with 0x27%N in Hb. change DQUOTE with 0x22%N in Hb.
    change (chr ">") with 0x3E%N in Hb. change (chr "=") with 0x3D%N in Hb.
    lia. }
  rewrite (canon_low b Hlow) in E.
  assert (E' : (b =? canonicalize true a)%N = true)
    by (apply N.eqb_eq; congruence).
  rewrite canon_eqb_low in E' by exact Hlow. apply N.eqb_eq in E'.
  congruence.
Qed.

Lemma same_ci_decl p : forall k,
  same_ci p k = true ->
  Forall (fun c => decl_char c = true) p ->
  Forall (fun c => decl_char c = true) k.
Proof.
  induction p as [|a p IH]; intros [|b k] H Hp; simpl in H;
    try discriminate; [constructor|].
  apply andb_true_iff in H. destruct H as [H1 H2].
  inversion Hp; subst. constructor; [now apply (canon_decl a)|now apply IH].
Qed.

Lemma decl_free l :
  Forall (fun c => decl_char c = true) l ->
  free_of is_quote l /\ free_of is_gt l /\ free_of is_equals l.
Proof.
  intros H. repeat split; (eapply Forall_impl; [|exact H]); intros c Hc;
    now apply decl_char_parts in Hc.
Qed.

Lemma spaces_decl l :
  Forall (fun c => isSpace c = true) l ->
  Forall (fun c => decl_char c = true) l.
Proof. apply Forall_impl. exact space_decl. Qed.

Lemma quote_not_gt q : is_quote q = true -> is_gt q = false.
Proof.
  unfold is_quote. rewrite orb_true_iff, !N.eqb_eq.
  intros [-> | ->]; reflexivity.
Qed.

Lemma quote_not_equals q : is_quote q = true -> is_equals q = false.
Proof.
  unfold is_quote. rewrite orb_true_iff, !N.eqb_eq.
  intros [-> | ->]; reflexivity.
Qed.

Lemma free_of_app P a b : free_of P a -> free_of P b -> free_of P (a ++ b).
Proof. intros Ha Hb. apply Forall_app. now split. Qed.

Lemma free_of_cons P (c : cu) l :
  P c = false -> free_of P l -> free_of P (c :: l).
Proof. intros Hc Hl. now constructor. Qed.

(** ** The extent of the match at a well-formed marker *)

Ltac reassoc :=
  repeat first [rewrite <- app_assoc | progress cbn [app]].
Ltac reassoc_in H :=
  repeat first [rewrite <- app_assoc in H | progress cbn [app] in H].

Lemma literal_decl :
  Forall (fun c => decl_char c = true) (js "<div")
  /\ Forall (fun c => decl_char c = true) (js "style")
  /\ Forall (fun c => decl_char c = true) property_colon
  /\ Forall (fun c => decl_char c = true) (js "always").
Proof. repeat split; repeat constructor. Qed.

Lemma marker_form_text q d1 w d2 t :
  marker_form q d1 w d2 ++ t
  = js "<div style" ++ chr "=" :: q
    :: (d1 ++ property_colon ++ w ++ js "always" ++ d2)
    ++ q :: chr ">" :: js "</div>" ++ t.
Proof. unfold marker_form. reassoc. reflexivity. Qed.

(** Whatever follows the marker, a match that starts at it ends with it. *)
Lemma marker_form_extent q d1 w d2 t rem :
  is_quote q = true ->
  Forall (fun c => decl_char c = true) d1 ->
  Forall (fun c => isSpace c = true) w ->
  Forall (fun c => decl_char c = true) d2 ->
  break_shape (marker_form q d1 w d2 ++ t) rem -> rem = t.
Proof.
  intros Hq Hd1 Hw Hd2
    (k1 & s1 & g1 & k2 & a1 & v1 & k3 & s2 & k4 & v2 & a2 & g2 & k5 & E
     & K1 & S1 & L1 & G1 & K2 & A1 & V1 & K3 & S2 & K4 & V2 & A2 & G2 & K5).
  destruct literal_decl as (Ddiv & Dstyle & Dprop & Dalways).
  rewrite marker_form_text in E.
  set (B := d1 ++ property_colon ++ w ++ js "always" ++ d2) in *.
  assert (HB : Forall (fun c => decl_char c = true) B).
  { unfold B. repeat (apply Forall_app; split); auto using spaces_decl. }
  destruct (decl_free B HB) as (Bq & Bg & Be).
  change (js "style=") with (js "style" ++ [chr "="]) in K2.
  apply same_ci_last in K2; [|reflexivity]. destruct K2 as (k2' & -> & K2).
  change (js "></div>") with (chr ">" :: js "</div>") in K5.
  apply same_ci_head in K5; [|reflexivity]. destruct K5 as (k5' & -> & K5).
  apply same_ci_decl in K1; [|exact Ddiv].
  apply same_ci_decl in K2; [|exact Dstyle].
  apply same_ci_decl in K3; [|exact Dprop].
  apply same_ci_decl in K4; [|exact Dalways].
  apply spaces_decl in S1. apply spaces_decl in S2.
  (* the part before the first quote of the match *)
  set (u := k1 ++ s1 ++ g1 ++ k2').
  assert (Fu : free_of is_gt (u ++ [chr "="; a1])).
  { unfold u. repeat apply free_of_app.
    - now apply decl_free in K1.
    - now apply decl_free in S1.
    - exact G1.
    - now apply decl_free in K2.
    - apply free_of_cons; [reflexivity|].
      apply free_of_cons; [now apply quote_not_gt|constructor]. }
  reassoc_in E.
  set (rest1 := v1 ++ k3 ++ s2 ++ k4 ++ v2 ++ a2 :: g2
                ++ chr ">" :: k5' ++ rem) in E.
  assert (E1 : (js "<div style" ++ chr "=" :: q :: B ++ [q])
               ++ chr ">" :: js "</div>" ++ t
               = (u ++ [chr "="; a1]) ++ rest1).
  { unfold u. reassoc. exact E. }
  destruct (prefix_free is_gt _ _ _ _ _ (eq_sym E1) Fu eq_refl) as [m Em].
  reassoc_in Em.
  assert (Fh : free_of is_equals (js "<div style")) by repeat constructor.
  assert (Ft : free_of is_equals (q :: B ++ [q])).
  { apply free_of_cons; [now apply quote_not_equals|].
    apply free_of_app; [exact Be|].
    apply free_of_cons; [now apply quote_not_equals|constructor]. }
  destruct (only_split is_equals _ _ _ _ _ _ Em Fh Ft eq_refl)
    as (Eu & _ & Eq).
  inversion Eq as [[Ea Em']]. subst a1. clear Eq Em Em' Fu E1.
  (* the text between the quotes *)
  assert (E2 : B ++ q :: chr ">" :: js "</div>" ++ t = rest1).
  { assert (E' : js "<div style" ++ chr "=" :: q :: B
                   ++ q :: chr ">" :: js "</div>" ++ t
                   = u ++ chr "=" :: q :: rest1)
      by (unfold u; reassoc; exact E).
    rewrite <- Eu in E'. apply app_inv_head in E'. now inversion E'. }
  unfold rest1 in E2.
  assert (E3 : B ++ q :: chr ">" :: js "</div>" ++ t
               = (v1 ++ k3 ++ s2 ++ k4 ++ v2)
                 ++ a2 :: g2 ++ chr ">" :: k5' ++ rem).
  { rewrite E2. reassoc. reflexivity. }
  assert (Fm : free_of is_quote (v1 ++ k3 ++ s2 ++ k4 ++ v2)).
  { repeat apply free_of_app; auto.
    - now apply decl_free in K3.
    - now apply decl_free in S2.
    - now apply decl_free in K4. }
  destruct (first_split is_quote _ _ _ _ _ _ E3 Bq Fm Hq A2)
    as (_ & _ & E4).
  (* the end of the tag *)
  change (chr ">" :: js "</div>" ++ t)
    with ([] ++ chr ">" :: js "</div>" ++ t) in E4.
  destruct (first_split is_gt _ _ _ _ _ _ E4 (Forall_nil _) G2
              eq_refl eq_refl) as (_ & _ & E5).
  symmetry. apply (app_same_length _ _ _ _ E5).
  now rewrite (same_ci_length _ _ K5).
Qed.

Lemma Matches_repeat_none fl a x : Matches fl (Repeat 0 a) x x.
Proof.
  destruct x as [pre rest caps].
  exact (MRepeat fl 0 a [] pre rest caps (Forall_nil _) (le_n 0)).
Qed.

(** The pattern can match a well-formed marker, whole. *)
Lemma marker_form_matches q d1 w d2 pre t :
  is_quote q = true -> free_of is_quote d1 ->
  Forall (fun c => isSpace c = true) w -> free_of is_quote d2 ->
  exists y,
    Matches flags_gi re_break
      (mkState pre (marker_form q d1 w d2 ++ t) []) y.
Proof.
  intros Hq Hd1 Hw Hd2. unfold marker_form, re_break.
  repeat rewrite <- app_assoc.
  assert (Q : forall d, free_of is_quote d ->
              Forall (fun c => atom_test true not_quote c = true) d).
  { intros d. apply Forall_impl. intros c Hc.
    now rewrite atom_test_not_quote, Hc. }
  assert (S : forall d, Forall (fun c => isSpace c = true) d ->
              Forall (fun c => atom_test true space_class c = true) d).
  { intros d. apply Forall_impl. intros c Hc.
    now rewrite atom_test_space_ci, (space_canon c Hc). }
  assert (A : atom_test true quote q = true)
    by now rewrite atom_test_quote.
  eexists.
  eapply MSeq; [apply Matches_lit_intro|].
  eapply MSeq; [apply (MRepeat flags_gi 1 space_class (js " "));
                [apply S; repeat constructor|simpl; lia]|].
  eapply MSeq; [apply Matches_repeat_none|].
  eapply MSeq; [apply Matches_lit_intro|].
  eapply MSeq; [apply MAtom; exact A|].
  eapply MSeq; [apply (MRepeat flags_gi 0 not_quote d1);
                [now apply Q|lia]|].
  eapply MSeq; [apply Matches_lit_intro|].
  eapply MSeq; [apply (MRepeat flags_gi 0 space_class w);
                [now apply S|lia]|].
  eapply MSeq; [apply Matches_lit_intro|].
  eapply MSeq; [apply (MRepeat flags_gi 0 not_quote d2);
                [now apply Q|lia]|].
  eapply MSeq; [apply MAtom; exact A|].
  eapply MSeq; [apply Matches_repeat_none|].
  apply Matches_lit_intro.
Qed.

(** The well-formed markers are markers: whatever stands before and
    after, the pattern matches the marker and ends with it. *)
Theorem marker_form_marker q d1 w d2 :
  is_quote q = true ->
  Forall (fun c => decl_char c = true) d1 ->
  Forall (fun c => isSpace c = true) w ->
  Forall (fun c => decl_char c = true) d2 ->
  marker (marker_form q d1 w d2).
Proof.
  intros Hq Hd1 Hw Hd2 pre t.
  assert (F1 : free_of is_quote d1) by now apply decl_free in Hd1.
  assert (F2 : free_of is_quote d2) by now apply decl_free in Hd2.
  destruct (marker_form_matches q d1 w d2 pre t Hq F1 Hw F2) as [y0 H0].
  destruct (exec_at_complete _ _ _ _ _ H0) as [y Hy].
  exists y. split; [exact Hy|].
  apply exec_at_sound, break_match_shape in Hy. cbn [remaining] in Hy.
  exact (marker_form_extent q d1 w d2 t _ Hq Hd1 Hw Hd2 Hy).
Qed.

(** ** Text without [<div] *)

Lemma marker_at_tag M t : marker M -> at_tag (M ++ t).
Proof.
  intros H. destruct (H [] t) as (y & E & _).
  apply exec_at_sound, break_match_shape in E. cbn [remaining] in E.
  destruct E as (k1 & s1 & g1 & k2 & a1 & v1 & k3 & s2 & k4 & v2 & a2 & g2
                 & k5 & E & K1 & _).
  change (js "<div") with (chr "<" :: js "div") in K1.
  apply same_ci_head in K1; [|reflexivity]. destruct K1 as (k1' & -> & _).
  rewrite E. reflexivity.
Qed.

(** A [<div] that begins in a text and ends in what follows it needs
    more than a [<] after the text. *)
Lemma starts_div_within a rest :
  a <> [] -> at_tag rest ->
  starts_with_ci (js "<div") (a ++ rest) = true ->
  starts_with_ci (js "<div") a = true.
Proof.
  intros Ha Hr H.
  assert (R : match rest with [] => True | c :: _ => c = 60%N end)
    by exact Hr.
  destruct a as [|x1 [|x2 [|x3 [|x4 a]]]]; [congruence| | | |exact H];
    destruct rest as [|c rest]; try subst c; cbn [app] in H;
    vm_compute in H;
    repeat match type of H with
           | context [match ?x with _ => _ end] => destruct x
           end;
    discriminate.
Qed.

(** Inside such a text no match starts. *)
Lemma divless_miss pre a rest :
  a <> [] -> occurs_ci (js "<div") a = false -> at_tag rest ->
  exec_at flags_gi re_break pre (a ++ rest) = None.
Proof.
  intros Ha Hd Hr.
  destruct (exec_at flags_gi re_break pre (a ++ rest)) as [y|] eqn:E;
    [exfalso|reflexivity].
  apply exec_at_sound, break_match_shape in E. cbn [remaining] in E.
  destruct E as (k1 & s1 & g1 & k2 & a1 & v1 & k3 & s2 & k4 & v2 & a2 & g2
                 & k5 & E & K1 & _).
  assert (S : starts_with_ci (js "<div") (a ++ rest) = true)
    by (rewrite E; now apply same_ci_starts).
  apply starts_div_within in S; auto.
  apply occurs_ci_head in S. congruence.
Qed.

Lemma divless_scan a rest : forall seg pre,
  divless a -> at_tag rest ->
  split_scan flags_gi re_break seg pre (a ++ rest) 0 =
  split_scan flags_gi re_break (rev a ++ seg) (rev a ++ pre) rest 0.
Proof.
  unfold divless.
  induction a as [|c a IH]; intros seg pre H Hr; [reflexivity|].
  assert (E := divless_miss pre (c :: a) rest ltac:(discriminate) H Hr).
  change ((c :: a) ++ rest) with (c :: (a ++ rest)) in *.
  rewrite split_scan_miss by exact E.
  rewrite IH; [|now apply occurs_ci_tail in H|exact Hr].
  simpl. now rewrite <- !app_assoc.
Qed.

Lemma split_divless a : divless a -> split flags_gi re_break a = [a].
Proof.
  intros H. rewrite split_break. rewrite <- (app_nil_r a) at 1.
  rewrite divless_scan; [|exact H|exact I]. simpl.
  now rewrite app_nil_r, rev_involutive.
Qed.

Lemma space_not_lt c : isSpace c = true -> c <> chr "<".
Proof. intros H ->. discriminate. Qed.

Lemma occurs_div_lt a :
  Forall (fun c => c <> chr "<") a -> divless a.
Proof.
  unfold divless. induction 1 as [|c a Hc _ IH]; [reflexivity|].
  cbn [occurs_ci]. rewrite IH, orb_false_r.
  change (js "<div") with (chr "<" :: js "div"). cbn [starts_with_ci].
  rewrite (canon_low (chr "<")), canon_eqb_low by reflexivity.
  apply N.eqb_neq in Hc. now rewrite N.eqb_sym, Hc.
Qed.

Lemma SpacesAndNbsp_divless g : SpacesAndNbsp g -> divless g.
Proof.
  intros H. apply occurs_div_lt.
  induction H as [|c s Hc _ IH|s _ IH].
  - constructor.
  - constructor; [now apply space_not_lt|exact IH].
  - apply Forall_app. split; [|exact IH].
    repeat constructor; discriminate.
Qed.

Lemma blank_gap_dropped g : SpacesAndNbsp g -> keep_page (trim g) = false.
Proof. intros H. now apply keep_page_trim, SpacesAndNbsp_run. Qed.

(** ** Markers at the ends of a text and next to each other *)

(** A text is split at a marker that follows text without [<div]. *)
Lemma split_at_marker M a t :
  marker M -> divless a ->
  split flags_gi re_break (a ++ M ++ t) = a :: split flags_gi re_break t.
Proof.
  intros H Ha. rewrite !split_break.
  rewrite divless_scan; [|exact Ha|now apply marker_at_tag].
  rewrite (marker_step M _ _ t H). simpl.
  now rewrite app_nil_r, rev_involutive.
Qed.


Lemma pages_marker_last M a :
  marker M -> divless a -> splitIntoPages (a ++ M) = splitIntoPages a.
Proof.
  intros H Ha. unfold splitIntoPages.
  rewrite (split_divless a Ha).
  rewrite <- (app_nil_r M), (split_at_marker M a [] H Ha). simpl.
  change (keep_page (trim [])) with false.
  now destruct (keep_page (trim a)).
Qed.

Lemma pages_marker_gap M1 M2 a g t :
  marker M1 -> marker M2 -> divless a -> SpacesAndNbsp g ->
  splitIntoPages (a ++ M1 ++ g ++ M2 ++ t)
  = splitIntoPages a ++ splitIntoPages t.
Proof.
  intros H1 H2 Ha Hg. unfold splitIntoPages.
  rewrite (split_divless a Ha).
  rewrite (split_at_marker M1 a _ H1 Ha).
  rewrite (split_at_marker M2 g t H2 (SpacesAndNbsp_divless g Hg)). simpl.
  rewrite (blank_gap_dropped g Hg).
  now destruct (keep_page (trim a)).
Qed.

(** The three spellings of the marker in the scenario of the
    specification are well-formed markers; a marker in capitals with
    another attribute is a marker too. *)
Lemma scenario_markers :
  marker_dq_semi = marker_form DQUOTE [] (js " ") (js ";")
  /\ marker_sq = marker_form SQUOTE [] [] []
  /\ marker_dq = marker_form DQUOTE [] (js " ") []
  /\ marker
       (js "<DIV  STYLE='color:red; PAGE-BREAK-AFTER:  always;' id=x></DIV>").
Proof.
  repeat split. intros pre t. eexists. split; [vm_compute|]; reflexivity.
Qed.

(** ** The pages of [splitIntoPages] *)

Lemma pieces_later ps u t : pieces ps t -> pieces ps (u ++ t).
Proof.
  intros H. destruct H as [s|a p t ps H]; [constructor|].
  rewrite app_assoc. now constructor.
Qed.

Lemma pieces_first p t ps : pieces ps t -> pieces (p :: ps) (p ++ t).
Proof. intros H. exact (pieces_cons [] p t ps H). Qed.

(** The segments of [split] are parts of the text, in its order. *)
Lemma split_scan_pieces fl r rest : forall seg pre skip,
  skip = 0 \/ seg = [] ->
  pieces (split_scan fl r seg pre rest skip) (rev seg ++ rest).
Proof.
  induction rest as [|ch rest IH]; intros seg pre skip Hs.
  - simpl. apply pieces_first. constructor.
  - destruct skip as [|k].
    + rewrite split_scan_cons.
      destruct (exec_at fl r pre (ch :: rest)) as [y|].
      * destruct (endIndex y - length pre) as [|k].
        -- destruct seg as [|c0 seg].
           ++ apply (IH [ch]). now left.
           ++ apply pieces_first. apply (IH [ch]). now left.
        -- apply pieces_first. apply (pieces_later _ [ch]).
           apply (IH []). now right.
      * replace (rev seg ++ ch :: rest) with (rev (ch :: seg) ++ rest)
          by (simpl; now rewrite <- app_assoc).
        apply IH. now left.
    + destruct Hs as [Hs| ->]; [discriminate|].
      simpl. apply (pieces_later _ [ch]). apply (IH []). now right.
Qed.

Lemma split_pieces fl r s : pieces (split fl r s) s.
Proof.
  destruct s as [|c s].
  - simpl. destruct (exec_at fl r [] []); [constructor|].
    apply (pieces_first [] []). constructor.
  - apply (split_scan_pieces fl r (c :: s) [] [] 0). now left.
Qed.

Lemma pieces_map f :
  (forall p, exists a b, p = a ++ f p ++ b) ->
  forall ps s, pieces ps s -> pieces (map f ps) s.
Proof.
  intros Hf ps s H. induction H as [s|a p t ps H IH]; [constructor|].
  destruct (Hf p) as (a' & b' & E). simpl.
  replace (a ++ p ++ t) with ((a ++ a') ++ f p ++ b' ++ t)
    by (rewrite E at 2; now rewrite <- !app_assoc).
  constructor. now apply pieces_later.
Qed.

Lemma pieces_filter f ps s : pieces ps s -> pieces (filter f ps) s.
Proof.
  intros H. induction H as [s|a p t ps H IH]; [constructor|].
  simpl. destruct (f p); [now constructor|].
  rewrite app_assoc. now apply pieces_later.
Qed.

Lemma pieces_In ps s p :
  pieces ps s -> In p ps -> exists a b, s = a ++ p ++ b.
Proof.
  intros H. induction H as [s|a q t ps H IH]; intros Hin; [destruct Hin|].
  destruct Hin as [->|Hin]; [now exists a, t|].
  destruct (IH Hin) as (a' & b' & ->).
  exists (a ++ q ++ a'), b'. now rewrite <- !app_assoc.
Qed.

(** *** [trim] *)

Lemma trimStart_parts s :
  exists a, s = a ++ trimStart s /\ Forall (fun c => isSpace c = true) a.
Proof.
  induction s as [|c s (a & E & Ha)]; [now exists []|].
  simpl. destruct (isSpace c) eqn:Hc.
  - exists (c :: a). split; [simpl; now f_equal|now constructor].
  - now exists [].
Qed.

Lemma trimEnd_parts s :
  exists b, s = trimEnd s ++ b /\ Forall (fun c => isSpace c = true) b.
Proof.
  destruct (trimStart_parts (rev s)) as (a & E & Ha).
  exists (rev a). split.
  - unfold trimEnd. rewrite <- rev_app_distr, <- E. now rewrite rev_involutive.
  - now apply Forall_rev.
Qed.

Lemma trim_parts s :
  exists a b, s = a ++ trim s ++ b
    /\ Forall (fun c => isSpace c = true) a
    /\ Forall (fun c => isSpace c = true) b.
Proof.
  destruct (trimStart_parts s) as (a & Ea & Ha).
  destruct (trimEnd_parts (trimStart s)) as (b & Eb & Hb).
  exists a, b. unfold trim. rewrite <- Eb. now repeat split.
Qed.

Lemma trimStart_head s :
  match trimStart s with [] => True | c :: _ => isSpace c = false end.
Proof.
  induction s as [|c s IH]; [exact I|].
  simpl. destruct (isSpace c) eqn:Hc; [exact IH|exact Hc].
Qed.

Lemma trimStart_fixed s :
  match s with [] => True | c :: _ => isSpace c = false end ->
  trimStart s = s.
Proof. destruct s as [|c s]; [reflexivity|]. simpl. now intros ->. Qed.

Lemma trimStart_twice s : trimStart (trimStart s) = trimStart s.
Proof. apply trimStart_fixed, trimStart_head. Qed.

Lemma trimStart_stop c t l :
  isSpace c = false -> trimStart (l ++ c :: t) = trimStart l ++ c :: t.
Proof.
  intros Hc. induction l as [|x l IH]; simpl.
  - now rewrite Hc.
  - destruct (isSpace x); [exact IH|reflexivity].
Qed.

Lemma trimEnd_cons c r :
  isSpace c = false -> trimEnd (c :: r) = c :: trimEnd r.
Proof.
  intros Hc. unfold trimEnd. simpl rev.
  rewrite trimStart_stop by exact Hc.
  now rewrite rev_app_distr.
Qed.

Lemma trimEnd_twice s : trimEnd (trimEnd s) = trimEnd s.
Proof.
  unfold trimEnd. now rewrite rev_involutive, trimStart_twice.
Qed.

Lemma trim_head s :
  match trim s with [] => True | c :: _ => isSpace c = false end.
Proof.
  unfold trim. assert (H := trimStart_head s).
  destruct (trimStart s) as [|c r]; [exact I|].
  now rewrite trimEnd_cons.
Qed.

Lemma trim_last s r c : trim s = r ++ [c] -> isSpace c = false.
Proof.
  unfold trim, trimEnd. intros E.
  apply (f_equal (@rev cu)) in E.
  rewrite rev_involutive, rev_app_distr in E. simpl in E.
  assert (H := trimStart_head (rev (trimStart s))). now rewrite E in H.
Qed.

Lemma trim_twice s : trim (trim s) = trim s.
Proof.
  unfold trim at 1. rewrite (trimStart_fixed _ (trim_head s)).
  unfold trim. apply trimEnd_twice.
Qed.

(** *** No marker is left in a page *)

(** A pattern without [$] matches the same way when more text follows. *)
Lemma Matches_extend fl r x y more :
  no_lookahead r = true -> Matches fl r x y ->
  Matches fl r
    (mkState (consumed x) (remaining x ++ more) (captures x))
    (mkState (consumed y) (remaining y ++ more) (captures y)).
Proof.
  intros Hr H. induction H; simpl in *.
  - constructor.
  - now constructor.
  - rewrite <- app_assoc. now constructor.
  - now constructor.
  - discriminate.
  - apply andb_true_iff in Hr. destruct Hr as [H1 H2].
    econstructor; eauto.
  - apply andb_true_iff in Hr. destruct Hr as [H1 H2].
    apply MAltL; auto.
  - apply andb_true_iff in Hr. destruct Hr as [H1 H2].
    apply MAltR; auto.
  - exact (MGroup fl n r _ _ (IHMatches Hr)).
Qed.

Lemma exec_at_extend fl r pre rest more y :
  no_lookahead r = true ->
  exec_at fl r pre rest = Some y ->
  exists z, exec_at fl r pre (rest ++ more) = Some z.
Proof.
  intros Hr E. apply exec_at_sound in E.
  apply (Matches_extend _ _ _ _ more Hr) in E.
  now apply exec_at_complete in E.
Qed.

Lemma exec_break_shorter pre v more :
  exec_at flags_gi re_break pre (v ++ more) = None ->
  exec_at flags_gi re_break pre v = None.
Proof.
  intros H. destruct (exec_at flags_gi re_break pre v) as [y|] eqn:E;
    [|reflexivity].
  destruct (exec_at_extend flags_gi re_break pre v more y eq_refl E)
    as [z Ez].
  congruence.
Qed.

Lemma exec_break_pre pre pre' rest :
  exec_at flags_gi re_break pre rest = None ->
  exec_at flags_gi re_break pre' rest = None.
Proof.
  intros H.
  assert (S := exec_at_shift pre pre' flags_gi re_break [] rest
                 no_lookbehind_break).
  simpl in S. rewrite H in S.
  now destruct (exec_at flags_gi re_break pre' rest).
Qed.

(** A text has no marker when the pattern fails at each of its
    positions. *)
Lemma matches_from_false v : forall pre,
  matches_from flags_gi re_break pre v = false
  <-> forall u w, v = u ++ w -> exec_at flags_gi re_break [] w = None.
Proof.
  induction v as [|c v IH]; intros pre.
  - cbn [matches_from]. rewrite exec_break_nil. split; [|reflexivity].
    intros _ u w E. symmetry in E. apply app_eq_nil in E.
    destruct E as [_ ->]. apply exec_break_nil.
  - cbn [matches_from]. split.
    + intros H u w E.
      destruct (exec_at flags_gi re_break pre (c :: v)) eqn:Ex;
        [discriminate|].
      destruct u as [|x u].
      * simpl in E. subst w. revert Ex. apply exec_break_pre.
      * injection E as -> E. apply (proj1 (IH _) H u w E).
    + intros H.
      rewrite (exec_break_pre [] pre _ (H [] (c :: v) eq_refl)).
      apply IH. intros u w E. apply (H (c :: u) w). simpl. now f_equal.
Qed.

Lemma has_marker_false s :
  has_marker s = false
  <-> forall u w, s = u ++ w -> exec_at flags_gi re_break [] w = None.
Proof. apply matches_from_false. Qed.

(** A part of a text without marker has no marker. *)
Lemma has_marker_part a b c :
  has_marker (a ++ b ++ c) = false -> has_marker b = false.
Proof.
  rewrite !has_marker_false. intros H u w E.
  apply (exec_break_shorter _ _ c). apply (H (a ++ u)).
  rewrite E. now rewrite <- !app_assoc.
Qed.

Lemma marker_found a M b : marker M -> has_marker (a ++ M ++ b) = true.
Proof.
  intros H. destruct (has_marker (a ++ M ++ b)) eqn:E; [reflexivity|].
  rewrite has_marker_false in E. specialize (E a (M ++ b) eq_refl).
  destruct (H [] b) as (y & Ey & _). congruence.
Qed.

Lemma unbroken_unmarked w rest : unbroken w rest -> has_marker w = false.
Proof.
  intros H. apply has_marker_false. intros u v E.
  destruct v as [|c v]; [apply exec_break_nil|].
  apply (exec_break_shorter _ _ rest). apply (H u); [exact E|discriminate].
Qed.

Lemma unbroken_nil rest : unbroken [] rest.
Proof.
  intros u v pre E Hv. symmetry in E. apply app_eq_nil in E.
  destruct E. contradiction.
Qed.

Lemma unbroken_step seg pre c rest :
  unbroken (rev seg) (c :: rest) ->
  exec_at flags_gi re_break pre (c :: rest) = None ->
  unbroken (rev (c :: seg)) rest.
Proof.
  intros H Ex u v pre' E Hv.
  destruct (exists_last Hv) as (v' & x & ->).
  simpl in E. rewrite app_assoc in E. apply app_inj_tail in E.
  destruct E as [E <-]. rewrite <- app_assoc. simpl.
  destruct v' as [|y v'].
  - simpl. revert Ex. apply exec_break_pre.
  - apply (H u); [exact E|discriminate].
Qed.

(** Every match of the page-break pattern takes some text. *)
Lemma exec_break_nonempty pre rest y :
  exec_at flags_gi re_break pre rest = Some y ->
  exists k, endIndex y - length pre = S k.
Proof.
  intros E. destruct (exec_at_ahead _ _ _ _ _ E) as (d & Ec & Er).
  apply exec_at_sound, break_match_shape in E. cbn [remaining] in E.
  destruct E as (k1 & s1 & g1 & k2 & a1 & v1 & k3 & s2 & k4 & v2 & a2 & g2
                 & k5 & E & K1 & _).
  apply same_ci_length in K1. rewrite Er in E.
  apply (f_equal (@length cu)) in E.
  repeat (rewrite !length_app in E; cbn [length] in E).
  rewrite K1 in E. cbn [length] in E. unfold endIndex. rewrite Ec, length_app, length_rev.
  destruct d as [|x d]; [simpl in E; lia|].
  exists (length d). simpl. lia.
Qed.

Lemma split_scan_unmarked rest : forall seg pre skip,
  skip = 0 \/ seg = [] -> unbroken (rev seg) rest ->
  Forall (fun p => has_marker p = false)
         (split_scan flags_gi re_break seg pre rest skip).
Proof.
  induction rest as [|c rest IH]; intros seg pre skip Hs Hu.
  - simpl. constructor; [|constructor]. now apply unbroken_unmarked in Hu.
  - destruct skip as [|k].
    + rewrite split_scan_cons.
      destruct (exec_at flags_gi re_break pre (c :: rest)) as [y|] eqn:E.
      * destruct (exec_break_nonempty _ _ _ E) as [k ->].
        constructor; [now apply unbroken_unmarked in Hu|].
        apply IH; [now right|apply unbroken_nil].
      * apply IH; [now left|]. now apply (unbroken_step _ pre).
    + destruct Hs as [Hs| ->]; [discriminate|].
      simpl. apply IH; [now right|apply unbroken_nil].
Qed.

Lemma split_unmarked_parts s :
  Forall (fun p => has_marker p = false) (split flags_gi re_break s).
Proof.
  rewrite split_break.
  apply split_scan_unmarked; [now left|apply unbroken_nil].
Qed.

Lemma trim_unmarked p : has_marker p = false -> has_marker (trim p) = false.
Proof.
  destruct (trim_parts p) as (a & b & E & _). rewrite E at 1.
  apply has_marker_part.
Qed.

Lemma pages_unmarked_parts s :
  Forall (fun p => has_marker p = false) (splitIntoPages s).
Proof.
  unfold splitIntoPages. apply Forall_forall. intros p Hp.
  apply filter_In in Hp. destruct Hp as [Hp _].
  apply in_map_iff in Hp. destruct Hp as (q & <- & Hq).
  apply trim_unmarked.
  assert (H := split_unmarked_parts s). rewrite Forall_forall in H. auto.
Qed.

Lemma page_trimmed s p : In p (splitIntoPages s) -> trim p = p.
Proof.
  unfold splitIntoPages. intros Hp. apply filter_In in Hp.
  destruct Hp as [Hp _]. apply in_map_iff in Hp.
  destruct Hp as (q & <- & _). apply trim_twice.
Qed.

Lemma page_kept s p : In p (splitIntoPages s) -> keep_page p = true.
Proof. unfold splitIntoPages. intros Hp. now apply filter_In in Hp. Qed.

Lemma kept_has_text p :
  keep_page p = true -> exists c, In c p /\ isSpace c = false.
Proof.
  intros H. destruct (filter not_space p) as [|c l] eqn:E.
  - assert (K : keep_page p = false)
      by (apply keep_page_spec; now exists 0).
    congruence.
  - assert (Hc : In c (filter not_space p)) by (rewrite E; now left).
    apply filter_In in Hc. destruct Hc as [Hc Hn].
    exists c. split; [exact Hc|]. now apply negb_true_iff in Hn.
Qed.

Lemma page_again s p : In p (splitIntoPages s) -> splitIntoPages p = [p].
Proof.
  intros Hp. assert (U := pages_unmarked_parts s).
  rewrite Forall_forall in U.
  rewrite (pages_unmarked p (U p Hp)), (page_trimmed s p Hp).
  now rewrite (page_kept s p Hp).
Qed.

Lemma flat_map_single {A} (f : A -> list A) l :
  Forall (fun x => f x = [x]) l -> flat_map f l = l.
Proof.
  induction 1 as [|x l Hx _ IH]; [reflexivity|].
  simpl. now rewrite Hx, IH.
Qed.

Lemma nbsp_run_In c n : In c (nbsp_run n) -> In c nbsp.
Proof.
  induction n as [|n IH]; [intros []|].
  change (nbsp_run (S n)) with (nbsp ++ nbsp_run n).
  rewrite in_app_iff. intros [H|H]; [exact H|].
  now apply IH.
Qed.

Lemma split_interleave l : forall a,
  divless a -> Forall (fun e => marker (fst e) /\ divless (snd e)) l ->
  split flags_gi re_break (interleave a l) = a :: map snd l.
Proof.
  induction l as [|[M b] l IH]; intros a Ha Hl.
  - simpl. now apply split_divless.
  - apply Forall_cons_iff in Hl. destruct Hl as [[HM Hb] Hl]. simpl in *.
    rewrite (split_at_marker M a _ HM Ha). f_equal. now apply IH.
Qed.

Lemma spaces_SpacesAndNbsp s :
  Forall (fun c => isSpace c = true) s -> SpacesAndNbsp s.
Proof. induction 1; now constructor. Qed.

Lemma pages_blank s :
  Forall (fun c => isSpace c = true) s -> splitIntoPages s = [].
Proof.
  intros H. apply spaces_SpacesAndNbsp in H.
  unfold splitIntoPages.
  rewrite (split_divless s (SpacesAndNbsp_divless s H)). simpl.
  now rewrite (blank_gap_dropped s H).
Qed.

Lemma normalize_blank m :
  Forall (fun c => isSpace c = true) m ->
  Forall (fun c => isSpace c = true) (normalizeMarkdown m).
Proof.
  intros H. apply normalize_Forall; [reflexivity|].
  rewrite strip_marks_filter. apply Forall_forall. intros c Hc.
  apply filter_In in Hc. rewrite Forall_forall in H. now apply H.
Qed.

(** ** A well-formed marker after any text

    A match that starts before a well-formed marker ends before the
    marker or with it: the scan of [split] always comes to the end of the
    marker with a segment closed. *)

Lemma app_cut2 (W : list cu) q g R C D :
  W ++ q :: g :: R = C ++ D ->
  (exists C', C = W ++ q :: g :: C')
  \/ (C = W ++ [q] /\ D = g :: R)
  \/ (exists W', W = C ++ W' /\ W' ++ q :: g :: R = D).
Proof.
  intros E. apply app_eq_app in E.
  destruct E as [l [[E1 E2]|[E1 E2]]].
  - right. right. now exists l.
  - destruct l as [|x [|y l]]; simpl in E2.
    + right. right. exists []. rewrite app_nil_r in E1. subst.
      split; [now rewrite app_nil_r|reflexivity].
    + inversion E2; subst. right. left. now split.
    + inversion E2; subst. left. now exists l.
Qed.

Lemma free_of_mid P (W : list cu) c R :
  free_of P (W ++ c :: R) -> P c = false.
Proof.
  intros H. apply Forall_app in H. destruct H as [_ H]. now inversion H.
Qed.

(** The window [q; g] is not in a part without quotes. *)
Lemma cut_skip_quote (W : list cu) q g R C D :
  is_quote q = true -> free_of is_quote C ->
  W ++ q :: g :: R = C ++ D ->
  exists W', W = C ++ W' /\ W' ++ q :: g :: R = D.
Proof.
  intros Hq F E.
  destruct (app_cut2 _ _ _ _ _ _ E) as [(C' & EC)|[(EC & _)|H]];
    [exfalso..|exact H];
    rewrite EC in F; apply free_of_mid in F; congruence.
Qed.

Lemma In_tail_part {A} (U : list A) c V W F :
  U ++ c :: V = W ++ F -> length V < length F -> In c F.
Proof.
  intros E L. apply app_eq_app in E.
  destruct E as [l [[E1 E2]|[E1 E2]]].
  - rewrite E2. apply in_or_app. right. now left.
  - destruct l as [|x l]; simpl in E2.
    + rewrite <- E2. now left.
    + inversion E2; subst. rewrite length_app in L. lia.
Qed.

(** The window is not in a part without [>] that something other than
    [>] follows. *)
Lemma cut_skip_gt (W : list cu) q g R C D :
  is_gt g = true -> free_of is_gt C ->
  (forall R', D <> g :: R') ->
  W ++ q :: g :: R = C ++ D ->
  exists W', W = C ++ W' /\ W' ++ q :: g :: R = D.
Proof.
  intros Hg F HD E.
  destruct (app_cut2 _ _ _ _ _ _ E) as [(C' & EC)|[(EC & ED)|H]];
    [exfalso..|exact H].
  - rewrite EC in F.
    change (W ++ q :: g :: C') with (W ++ [q] ++ g :: C') in F.
    rewrite app_assoc in F. apply free_of_mid in F. congruence.
  - now apply (HD R).
Qed.

Lemma same_ci_nonempty p c k :
  same_ci (c :: p) k = true -> exists x k', k = x :: k'.
Proof. destruct k as [|x k']; [discriminate|]. now exists x, k'. Qed.

(** A match that starts in the text [a] before a well-formed marker ends
    in [a] or with the marker, whatever follows. *)
Lemma marker_form_cut q d1 w d2 a t rem :
  well_formed q d1 w d2 ->
  break_shape (a ++ marker_form q d1 w d2 ++ t) rem ->
  rem = t \/ exists r, rem = r ++ marker_form q d1 w d2 ++ t.
Proof.
  intros (Hq & Hd1 & Hw & Hd2)
    (k1 & s1 & g1 & k2 & a1 & v1 & k3 & s2 & k4 & v2 & a2 & g2 & k5 & E
     & K1 & S1 & L1 & G1 & K2 & A1 & V1 & K3 & S2 & K4 & V2 & A2 & G2 & K5).
  destruct literal_decl as (Ddiv & Dstyle & Dprop & Dalways).
  set (B := d1 ++ property_colon ++ w ++ js "always" ++ d2).
  assert (HB : Forall (fun c => decl_char c = true) B).
  { unfold B. repeat (apply Forall_app; split); auto using spaces_decl. }
  destruct (decl_free B HB) as (Bq & Bg & Be).
  assert (HBl : exists B' b, B = B' ++ [b] /\ is_equals b = false).
  { assert (Hne : B <> []).
    { unfold B. intros H0. apply (f_equal (@length cu)) in H0.
      rewrite !length_app in H0. simpl in H0. lia. }
    destruct (exists_last Hne) as (B' & b & EB).
    exists B', b. split; [exact EB|].
    rewrite EB in Be. now apply free_of_mid in Be. }
  destruct HBl as (B' & b & EB & Hb).
  change (js "style=") with (js "style" ++ [chr "="]) in K2.
  apply same_ci_last in K2; [|reflexivity]. destruct K2 as (k2' & -> & K2).
  change (js "></div>") with (chr ">" :: js "</div" ++ [chr ">"]) in K5.
  apply same_ci_head in K5; [|reflexivity]. destruct K5 as (k5' & -> & K5).
  apply same_ci_last in K5; [|reflexivity]. destruct K5 as (k5'' & -> & K5).
  assert (L5 : length k5'' = 5) by now apply same_ci_length in K5.
  destruct (same_ci_nonempty _ _ _ K2) as (x2 & k2'' & Ek2).
  apply same_ci_decl in K1; [|exact Ddiv].
  apply same_ci_decl in K2; [|exact Dstyle].
  apply same_ci_decl in K3; [|exact Dprop].
  apply same_ci_decl in K4; [|exact Dalways].
  apply same_ci_decl in K5; [|repeat constructor].
  apply spaces_decl in S1. apply spaces_decl in S2.
  set (Y0 := js "<div style" ++ chr "=" :: q :: B).
  assert (FY : free_of is_gt (Y0 ++ [q])).
  { unfold Y0. apply free_of_app; [apply free_of_app; [repeat constructor|]|].
    - apply free_of_cons; [reflexivity|].
      apply free_of_cons; [now apply quote_not_gt|exact Bg].
    - apply free_of_cons; [now apply quote_not_gt|constructor]. }
  assert (EM : marker_form q d1 w d2 ++ t
               = (Y0 ++ [q]) ++ chr ">" :: js "</div" ++ chr ">" :: t).
  { rewrite marker_form_text. unfold Y0. fold B. reassoc. reflexivity. }
  set (X := k1 ++ s1 ++ g1 ++ k2' ++ chr "=" :: a1 :: v1 ++ k3 ++ s2 ++ k4
            ++ v2 ++ a2 :: g2).
  assert (E' : a ++ (marker_form q d1 w d2 ++ t)
               = ((X ++ chr ">" :: k5'') ++ [chr ">"]) ++ rem).
  { rewrite E. unfold X. reassoc. reflexivity. }
  apply app_eq_app in E'. destruct E' as [l [[E1 E2]|[E1 E2]]].
  { right. now exists l. }
  destruct l as [|z0 l0]; [right; now exists []|].
  destruct (@exists_last _ (z0 :: l0)) as (l' & z & El); [discriminate|].
  rewrite El in E1, E2. clear El z0 l0.
  rewrite app_assoc in E1. apply app_inj_tail in E1.
  destruct E1 as [E1 <-].
  assert (E2' : (Y0 ++ [q]) ++ chr ">" :: js "</div" ++ chr ">" :: t
                = l' ++ chr ">" :: rem).
  { rewrite <- EM, E2. now rewrite <- app_assoc. }
  clear E2. rename E2' into E2.
  destruct (prefix_free is_gt _ _ _ _ _ E2 FY eq_refl) as [m Em].
  subst l'. rewrite <- (app_assoc (Y0 ++ [q]) m) in E2.
  apply app_inv_head in E2.
  destruct m as [|c m'].
  { exfalso. rewrite app_nil_r in E1.
    assert (Hin : In (chr ">") (Y0 ++ [q])).
    { apply (In_tail_part X (chr ">") k5'' a (Y0 ++ [q]) E1).
      assert (L : 5 < length (Y0 ++ [q]))
        by (unfold Y0; rewrite !length_app; simpl; lia).
      revert L. apply Nat.le_lt_trans. now rewrite <- L5. }
    assert (F := FY). unfold free_of in F. rewrite Forall_forall in F.
    apply F in Hin. discriminate. }
  cbn [app] in E2. inversion E2 as [[Ec E3]]. subst c. clear E2.
  rewrite app_assoc in E1.
  apply app_eq_app in E1. destruct E1 as [l2 [[E4 E5]|[E4 E5]]].
  - destruct l2 as [|x l2].
    + cbn [app] in E5. inversion E5 as [E6]. subst m'.
      left. symmetry.
      assert (E7 : js "</div" ++ chr ">" :: t = k5'' ++ chr ">" :: rem)
        by exact E3.
      apply app_same_length in E7; [|exact (eq_sym L5)].
      now inversion E7.
    + cbn [app] in E5. inversion E5 as [[Ex E6]]. subst x.
      clear E5 E3 E6. exfalso.
      assert (H0 : (a ++ Y0) ++ q :: chr ">" :: l2
                   = k1 ++ s1 ++ g1 ++ k2' ++ [chr "="] ++ [a1] ++ v1 ++ k3
                     ++ s2 ++ k4 ++ v2 ++ [a2] ++ g2).
      { transitivity X; [|reflexivity].
        rewrite E4. now rewrite <- !app_assoc. }
      clear E4.
      assert (FQ : forall C, Forall (fun c => decl_char c = true) C ->
                             free_of is_quote C)
        by (intros C HC; now apply decl_free in HC).
      destruct (cut_skip_quote _ _ _ _ _ _ Hq (FQ _ K1) H0)
        as (W1 & EW1 & H1).
      destruct (cut_skip_quote _ _ _ _ _ _ Hq (FQ _ S1) H1)
        as (W2 & EW2 & H2).
      assert (HD : forall R', k2' ++ [chr "="] ++ [a1] ++ v1 ++ k3 ++ s2
                              ++ k4 ++ v2 ++ [a2] ++ g2 <> chr ">" :: R').
      { intros R' HR. rewrite Ek2 in HR, K2. inversion HR; subst x2.
        inversion K2; discriminate. }
      assert (Hgt : is_gt (chr ">") = true) by reflexivity.
      destruct (cut_skip_gt _ _ _ _ _ _ Hgt G1 HD H2)
        as (W3 & EW3 & H3).
      destruct (cut_skip_quote _ _ _ _ _ _ Hq (FQ _ K2) H3)
        as (W4 & EW4 & H4).
      assert (Feq : free_of is_quote [chr "="]) by repeat constructor.
      destruct (cut_skip_quote _ _ _ _ _ _ Hq Feq H4) as (W5 & EW5 & H5).
      destruct (app_cut2 _ _ _ _ _ _ H5)
        as [(C' & EC)|[(EC & ED)|(W6 & EW6 & H6)]].
      { destruct W5 as [|? [|? ?]]; discriminate. }
      { destruct W5 as [|? W5]; [|destruct W5; discriminate].
        rewrite EW5, app_nil_r in EW4. rewrite EW4 in EW3.
        rewrite EW3 in EW2. rewrite EW2 in EW1.
        unfold Y0 in EW1. rewrite EB in EW1.
        assert (EW : (a ++ js "<div style" ++ chr "=" :: q :: B') ++ [b]
                     = (k1 ++ s1 ++ g1 ++ k2') ++ [chr "="]).
        { reassoc. reassoc_in EW1. exact EW1. }
        apply app_inj_tail in EW. destruct EW as [_ ->]. discriminate. }
      destruct (cut_skip_quote _ _ _ _ _ _ Hq V1 H6) as (W7 & _ & H7).
      destruct (cut_skip_quote _ _ _ _ _ _ Hq (FQ _ K3) H7)
        as (W8 & _ & H8).
      destruct (cut_skip_quote _ _ _ _ _ _ Hq (FQ _ S2) H8)
        as (W9 & _ & H9).
      destruct (cut_skip_quote _ _ _ _ _ _ Hq (FQ _ K4) H9)
        as (W10 & _ & H10).
      destruct (cut_skip_quote _ _ _ _ _ _ Hq V2 H10) as (W11 & _ & H11).
      destruct (app_cut2 _ _ _ _ _ _ H11)
        as [(C' & EC)|[(EC & ED)|(W12 & _ & H12)]].
      { destruct W11 as [|? [|? ?]]; discriminate. }
      { rewrite ED in G2. inversion G2. discriminate. }
      rewrite <- H12 in G2.
      change (W12 ++ q :: chr ">" :: l2)
        with (W12 ++ [q] ++ chr ">" :: l2) in G2.
      rewrite app_assoc in G2. apply free_of_mid in G2. discriminate.
  - destruct l2 as [|x l2].
    + cbn [app] in E5. inversion E5 as [E6]. subst m'.
      left. symmetry.
      assert (E7 : js "</div" ++ chr ">" :: t = k5'' ++ chr ">" :: rem)
        by exact E3.
      apply app_same_length in E7; [|exact (eq_sym L5)].
      now inversion E7.
    + exfalso. cbn [app] in E5. inversion E5 as [[Ex E6]].
      rewrite E6 in K5. apply decl_free in K5. destruct K5 as (_ & K5 & _).
      apply free_of_mid in K5. discriminate.
Qed.

Lemma marker_form_ahead q d1 w d2 a t pre y :
  well_formed q d1 w d2 ->
  exec_at flags_gi re_break pre (a ++ marker_form q d1 w d2 ++ t) = Some y ->
  (length a + length (marker_form q d1 w d2) = endIndex y - length pre
   \/ endIndex y - length pre <= length a).
Proof.
  intros Hwf E. destruct (exec_at_ahead _ _ _ _ _ E) as (d & Ec & Er).
  apply exec_at_sound, break_match_shape in E. cbn [remaining] in E.
  unfold endIndex. rewrite Ec, length_app, length_rev.
  replace (length d + length pre - length pre) with (length d) by lia.
  destruct (marker_form_cut _ _ _ _ _ _ _ Hwf E) as [R|[r R]];
    rewrite R in Er; apply (f_equal (@length cu)) in Er;
    rewrite !length_app in Er; lia.
Qed.

Lemma well_formed_marker q d1 w d2 :
  well_formed q d1 w d2 -> marker (marker_form q d1 w d2).
Proof. intros (Hq & Hd1 & Hw & Hd2). now apply marker_form_marker. Qed.

(** The scan of [split] over a text [a], a well-formed marker and a text
    [rest]: the segments before the marker are parts of [a], a segment
    ends with the marker, and the scan goes on with [rest]. *)
Lemma cut_scan q d1 w d2 rest :
  well_formed q d1 w d2 ->
  forall a seg pre skip,
  skip = 0 \/ seg = [] ->
  skip <= length a \/ skip = length a + length (marker_form q d1 w d2) ->
  exists L,
    pieces L (rev seg ++ a)
    /\ split_scan flags_gi re_break seg pre
         (a ++ marker_form q d1 w d2 ++ rest) skip
       = L ++ split_scan flags_gi re_break [] [] rest 0.
Proof.
  intros Hwf. set (M := marker_form q d1 w d2).
  assert (HM : marker M) by now apply well_formed_marker.
  assert (Hne : M <> []) by now apply marker_nonempty.
  assert (Hlong : forall a seg pre skip,
            skip = 0 \/ seg = [] -> skip = length a + length M ->
            exists L,
              pieces L (rev seg ++ a)
              /\ split_scan flags_gi re_break seg pre (a ++ M ++ rest) skip
                 = L ++ split_scan flags_gi re_break [] [] rest 0).
  { intros a seg pre skip Hs ->. destruct Hs as [Hs| ->].
    - assert (length M <> 0)
        by (intros H0; now apply length_zero_iff_nil in H0).
      lia.
    - exists []. split; [constructor|].
      rewrite app_assoc, <- length_app, split_scan_skip.
      apply split_scan_break_pre. }
  induction a as [|c a IH]; intros seg pre skip Hs Hk.
  - destruct Hk as [Hk|Hk]; [|now apply Hlong].
    assert (skip = 0) by (simpl in Hk; lia). subst skip.
    exists [rev seg]. split.
    + apply (pieces_first (rev seg) []). constructor.
    + cbn [app]. apply (marker_step M seg pre rest HM).
  - destruct Hk as [Hk|Hk]; [|now apply Hlong].
    destruct skip as [|k].
    + cbn [app]. rewrite split_scan_cons.
      destruct (exec_at flags_gi re_break pre (c :: a ++ M ++ rest))
        as [y|] eqn:E.
      * destruct (exec_break_nonempty _ _ _ E) as [k Ek]. rewrite Ek.
        assert (Hy := marker_form_ahead q d1 w d2 (c :: a) rest pre y Hwf E).
        fold M in Hy. rewrite Ek in Hy. cbn [length] in Hy.
        destruct (IH [] (c :: pre) k) as (L & HL & EL).
        -- now right.
        -- lia.
        -- exists (rev seg :: L). split.
           ++ apply pieces_first. now apply (pieces_later _ [c]).
           ++ cbn [app]. now rewrite EL.
      * destruct (IH (c :: seg) (c :: pre) 0) as (L & HL & EL).
        -- now left.
        -- left. lia.
        -- exists L. split; [|exact EL].
           simpl in HL. now rewrite <- app_assoc in HL.
    + destruct Hs as [Hs| ->]; [discriminate|].
      destruct (IH [] (c :: pre) k) as (L & HL & EL).
      * now right.
      * left. simpl in Hk. lia.
      * exists L. split; [now apply (pieces_later _ [c])|exact EL].
Qed.

Lemma split_nil : split flags_gi re_break [] = [[]].
Proof. reflexivity. Qed.

(** A well-formed marker after any text: the segments. *)
Lemma split_cut q d1 w d2 a rest :
  well_formed q d1 w d2 ->
  exists L,
    pieces L a
    /\ split flags_gi re_break (a ++ marker_form q d1 w d2 ++ rest)
       = L ++ split_scan flags_gi re_break [] [] rest 0.
Proof.
  intros Hwf. rewrite split_break.
  destruct (cut_scan q d1 w d2 rest Hwf a [] [] 0) as (L & HL & EL).
  - now left.
  - left. lia.
  - now exists L.
Qed.


(** ** Where [page-break-after:] can occur *)

Lemma starts_with_ci_stop p c : forall u v,
  Forall (fun x => (canonicalize true x =? canonicalize true c)%N = false) p ->
  p <> [] ->
  starts_with_ci p (u ++ c :: v) = starts_with_ci p u.
Proof.
  induction p as [|x p IH]; intros u v Hp Hne; [congruence|].
  inversion Hp as [|? ? Hx Hp']; subst.
  destruct u as [|y u]; cbn [app starts_with_ci].
  - now rewrite Hx.
  - destruct p as [|x' p].
    + reflexivity.
    + rewrite (IH u v Hp'); [reflexivity|discriminate].
Qed.

(** No occurrence of [p] holds a code unit that is in [p] in no letter
    case. *)
Lemma occurs_ci_cut p c v :
  Forall (fun x => (canonicalize true x =? canonicalize true c)%N = false) p ->
  p <> [] ->
  forall u, occurs_ci p (u ++ c :: v) = occurs_ci p u || occurs_ci p v.
Proof.
  intros Hp Hne u. induction u as [|y u IH].
  - cbn [app]. destruct p as [|x p]; [congruence|].
    inversion Hp as [|? ? Hx Hp']; subst.
    cbn [occurs_ci starts_with_ci]. now rewrite Hx.
  - change ((y :: u) ++ c :: v) with (y :: (u ++ c :: v)).
    cbn [occurs_ci].
    change (y :: u ++ c :: v) with ((y :: u) ++ c :: v).
    rewrite (starts_with_ci_stop p c (y :: u) v Hp Hne), IH.
    now rewrite orb_assoc.
Qed.

Lemma property_not_space c :
  isSpace c = true ->
  Forall (fun x => (canonicalize true x =? canonicalize true c)%N = false)
         property_colon.
Proof.
  intros Hc. rewrite (space_canon c Hc).
  assert (H : Forall (fun x => isSpace (canonicalize true x) = false)
                     property_colon) by repeat constructor.
  revert H. apply Forall_impl. intros x Hx.
  apply N.eqb_neq. intros E. rewrite E in Hx. congruence.
Qed.

Lemma property_colon_nonempty : property_colon <> [].
Proof. discriminate. Qed.

Lemma occurs_property_spaces ws v :
  Forall (fun c => isSpace c = true) ws ->
  occurs_ci property_colon (ws ++ v) = occurs_ci property_colon v.
Proof.
  induction 1 as [|c ws Hc _ IH]; [reflexivity|].
  rewrite <- IH.
  exact (occurs_ci_cut property_colon c (ws ++ v) (property_not_space c Hc)
           property_colon_nonempty []).
Qed.

(** With white space before the colon the property name with its colon
    occurs nowhere in the [div]. *)
Lemma marker_spaced_property w1 w2 a t :
  w1 <> [] ->
  Forall (fun c => isSpace c = true) w1 ->
  Forall (fun c => isSpace c = true) w2 ->
  occurs_ci property_colon a = false ->
  occurs_ci property_colon t = false ->
  occurs_ci property_colon (a ++ marker_spaced w1 w2 ++ t) = false.
Proof.
  intros Hne H1 H2 Ha Ht.
  assert (Hlt : Forall
            (fun x => (canonicalize true x =? canonicalize true (chr "<"))%N
                      = false) property_colon) by repeat constructor.
  assert (Hgt : Forall
            (fun x => (canonicalize true x =? canonicalize true (chr ">"))%N
                      = false) property_colon) by repeat constructor.
  destruct w1 as [|c w1]; [congruence|].
  inversion H1 as [|? ? Hc H1']; subst.
  replace (a ++ marker_spaced (c :: w1) w2 ++ t)
    with (a ++ chr "<"
          :: (js "div style=" ++ [DQUOTE] ++ js "page-break-after")
          ++ c :: w1 ++ chr ":" :: w2
          ++ (js "always" ++ [DQUOTE]) ++ chr ">"
          :: js "</div" ++ chr ">" :: t)
    by (unfold marker_spaced; reassoc; reflexivity).
  rewrite (occurs_ci_cut _ _ _ Hlt property_colon_nonempty a), Ha.
  rewrite (occurs_ci_cut _ _ _ (property_not_space c Hc)
             property_colon_nonempty).
  rewrite (occurs_property_spaces w1 _ H1').
  replace (occurs_ci property_colon
             (chr ":" :: w2 ++ (js "always" ++ [DQUOTE]) ++ chr ">"
              :: js "</div" ++ chr ">" :: t))
    with (occurs_ci property_colon
            (w2 ++ (js "always" ++ [DQUOTE]) ++ chr ">"
             :: js "</div" ++ chr ">" :: t)) by reflexivity.
  rewrite (occurs_property_spaces w2 _ H2).
  rewrite (occurs_ci_cut _ _ _ Hgt property_colon_nonempty).
  rewrite (occurs_ci_cut _ _ _ Hgt property_colon_nonempty), Ht.
  reflexivity.
Qed.

(** A text with a code unit that is neither white space nor in [&nbsp;]
    is a page. *)
Lemma text_kept c s :
  In c s -> isSpace c = false -> ~ In c nbsp -> keep_page (trim s) = true.
Proof.
  intros Hc Hs Hn. destruct (keep_page (trim s)) eqn:K; [reflexivity|].
  apply keep_page_trim in K. destruct K as [n K].
  exfalso. apply Hn, (nbsp_run_In c n). rewrite <- K.
  apply filter_In. split; [exact Hc|]. unfold not_space. now rewrite Hs.
Qed.

Lemma marker_spaced_form w2 :
  marker_spaced [] w2 = marker_form DQUOTE [] w2 [].
Proof. unfold marker_spaced, marker_form. reassoc. reflexivity. Qed.

(** * The claims of the specification *)

(** C1, as the specification states it, fails: the chapter rule matches
    its own output again. *)
Lemma normalize_not_idempotent :
  normalizeMarkdown
    (normalizeMarkdown (js "foo" ++ [LF] ++ chapter_token ++ js " 1**"))
  <> normalizeMarkdown (js "foo" ++ [LF] ++ chapter_token ++ js " 1**").
Proof. vm_compute. discriminate. Qed.

(** C1, amended.  Normalising twice is normalising once exactly for the
    strings that, once their U+FEFF and U+200B are removed, have no line
    feed directly followed by the chapter token. *)
Theorem normalize_idempotent_iff (s : jsstring) :
  normalizeMarkdown (normalizeMarkdown s) = normalizeMarkdown s
  <-> has_break (strip_marks s) = false.
Proof.
  rewrite normalize_twice, space_chapters_spec, <- has_break_normalize.
  split.
  - intros E. destruct (has_break (normalizeMarkdown s)) eqn:H;
      [|reflexivity].
    apply double_breaks_longer in H. rewrite E in H. lia.
  - apply double_breaks_id.
Qed.

Lemma normalize_idempotent_iff_witness :
  has_break (strip_marks (js "a" ++ [LF] ++ js "---" ++ [LF] ++ js "b"))
  = false
  /\ normalizeMarkdown
       (normalizeMarkdown (js "a" ++ [LF] ++ js "---" ++ [LF] ++ js "b"))
     = normalizeMarkdown (js "a" ++ [LF] ++ js "---" ++ [LF] ++ js "b").
Proof.
  split; [reflexivity|].
  apply (proj2 (normalize_idempotent_iff _)). reflexivity.
Defined.

(** C2.  The specification wants a line removed only when it is three or
    more _identical_ characters among [-], [*] and [_].  The pattern of
    the code has no such test: the standalone lines [-*-] and [--*--] are
    removed like [---] and [____]; [--- text] is preserved. *)
Theorem rule_removes_mixed_lines :
  normalizeMarkdown (js "-*-") = []
  /\ normalizeMarkdown (js "--*--") = []
  /\ normalizeMarkdown (js "---") = []
  /\ normalizeMarkdown (js "____") = []
  /\ normalizeMarkdown (js "--- text") = js "--- text".
Proof. repeat split; vm_compute; reflexivity. Qed.

(** C3.  The specification wants white space accepted on both sides of
    the colon, and the comment of the code announces a pattern for
    various spacings; the pattern reads [page-break-after:\s*always], with
    white space after the colon only.  So the empty [div] with white space
    [w1], not empty, before the colon is not recognised, whatever white
    space [w2] follows the colon: in a text that has no
    [page-break-after:] elsewhere the pattern matches nowhere, the text is
    one segment and one page, and the [div] stays in it.  With no white
    space before the colon the same [div] is recognised in any text: the
    segments before it are parts of the text before it, and the segments
    after it are those of the text after it. *)
Theorem space_before_colon_not_matched :
  (forall w1 w2 a t,
     w1 <> [] ->
     Forall (fun c => isSpace c = true) w1 ->
     Forall (fun c => isSpace c = true) w2 ->
     occurs_ci property_colon a = false ->
     occurs_ci property_colon t = false ->
     has_marker (a ++ marker_spaced w1 w2 ++ t) = false
     /\ split flags_gi re_break (a ++ marker_spaced w1 w2 ++ t)
        = [a ++ marker_spaced w1 w2 ++ t]
     /\ splitIntoPages (a ++ marker_spaced w1 w2 ++ t)
        = [trim (a ++ marker_spaced w1 w2 ++ t)])
  /\ (forall w2 a t,
        Forall (fun c => isSpace c = true) w2 ->
        exists L,
          pieces L a
          /\ split flags_gi re_break (a ++ marker_spaced [] w2 ++ t)
             = L ++ split flags_gi re_break t).
Proof.
  split.
  - intros w1 w2 a t Hne H1 H2 Ha Ht.
    assert (U : has_marker (a ++ marker_spaced w1 w2 ++ t) = false).
    { apply unmarked_without_property.
      now apply marker_spaced_property. }
    split; [exact U|]. split; [now apply split_unmarked|].
    rewrite (pages_unmarked _ U).
    rewrite (text_kept (chr "<")); [reflexivity| |reflexivity|].
    + apply in_or_app. right. now left.
    + intros H. repeat (destruct H as [H|H]; [discriminate|]). destruct H.
  - intros w2 a t H2. rewrite marker_spaced_form.
    assert (Hwf : well_formed DQUOTE [] w2 []).
    { split; [reflexivity|]. split; [constructor|].
      split; [exact H2|constructor]. }
    destruct (split_cut DQUOTE [] w2 [] a t Hwf) as (L & HL & EL).
    exists L. split; [exact HL|]. now rewrite EL, <- split_break.
Qed.

Lemma space_before_colon_not_matched_witness :
  (js " " <> []
   /\ Forall (fun c => isSpace c = true) (js " ")
   /\ occurs_ci property_colon (js "A") = false
   /\ occurs_ci property_colon (js "B") = false)
  /\ marker_spaced (js " ") (js " ") = marker_space_colon
  /\ splitIntoPages (js "A" ++ marker_spaced (js " ") (js " ") ++ js "B")
     = [trim (js "A" ++ marker_spaced (js " ") (js " ") ++ js "B")]
  /\ trim (js "A" ++ marker_spaced (js " ") (js " ") ++ js "B")
     = js "A" ++ marker_space_colon ++ js "B".
Proof.
  assert (Hne : js " " <> []) by discriminate.
  assert (Hs : Forall (fun c => isSpace c = true) (js " "))
    by (repeat constructor).
  assert (Ha : occurs_ci property_colon (js "A") = false) by reflexivity.
  assert (Hb : occurs_ci property_colon (js "B") = false) by reflexivity.
  split; [now repeat split|].
  split; [reflexivity|].
  split; [|vm_compute; reflexivity].
  exact (proj2 (proj2 (proj1 space_before_colon_not_matched
                         (js " ") (js " ") (js "A") (js "B")
                         Hne Hs Hs Ha Hb))).
Defined.

(** C4, as the specification states it, fails: a text that already has a
    blank line before the token is changed, it gets one more line feed. *)
Lemma chapter_blank_line_not_kept :
  space_chapters (js "foo" ++ [LF; LF] ++ chapter_token ++ js " 1**")
  <> js "foo" ++ [LF; LF] ++ chapter_token ++ js " 1**".
Proof. vm_compute. discriminate. Qed.

(** C4, amended.  ["foo\n**... 1**"] normalises to ["foo\n\n**... 1**"],
    and the rule adds a line feed before every line feed that the token
    follows, whatever stands before it: a blank line there does not stop
    it, so ["foo\n\n**... 1**"] becomes ["foo\n\n\n**... 1**"]. *)
Theorem chapter_spacing :
  normalizeMarkdown (js "foo" ++ [LF] ++ chapter_token ++ js " 1**")
  = js "foo" ++ [LF; LF] ++ chapter_token ++ js " 1**"
  /\ space_chapters (js "foo" ++ [LF; LF] ++ chapter_token ++ js " 1**")
     = js "foo" ++ [LF; LF; LF] ++ chapter_token ++ js " 1**"
  /\ forall a b,
       space_chapters (a ++ [LF] ++ chapter_token ++ b)
       = space_chapters a ++ [LF; LF] ++ chapter_token ++ space_chapters b.
Proof.
  split; [vm_compute; reflexivity|].
  split; [vm_compute; reflexivity|].
  intros a b. rewrite !space_chapters_spec.
  change (a ++ [LF] ++ chapter_token ++ b)
    with (a ++ LF :: chapter_token ++ b).
  now rewrite double_breaks_app, double_breaks_hit.
Qed.

(** C5.  The end-to-end scenario of the specification: normalising and
    then paginating the three-marker document gives exactly the pages
    [Intro], [Chapter 1 text] and [Chapter 2], in this order. *)
Theorem scenario_pages :
  splitIntoPages (normalizeMarkdown scenario)
  = [js "Intro"; js "Chapter 1 text"; js "Chapter 2"].
Proof. vm_compute. reflexivity. Qed.







(** C8.  For every string [s], [normalizeMarkdown s] contains neither
    U+FEFF nor U+200B, and the removal step keeps all other code units
    of [s] in their order: it is the filter that drops these two. *)
Theorem normalize_strips_marks (s : jsstring) :
  ~ In BOM (normalizeMarkdown s)
  /\ ~ In ZWSP (normalizeMarkdown s)
  /\ strip_marks s = filter (fun c => negb (is_mark c)) s.
Proof.
  assert (H : Forall (fun c => is_mark c = false) (normalizeMarkdown s)).
  { apply normalize_Forall; [reflexivity|].
    rewrite strip_marks_filter. apply Forall_forall.
    intros c Hc. apply filter_In in Hc. destruct Hc as [_ Hc].
    now apply negb_true_iff in Hc. }
  rewrite Forall_forall in H.
  repeat split.
  - intros Hin. apply H in Hin. discriminate.
  - intros Hin. apply H in Hin. discriminate.
  - apply strip_marks_filter.
Qed.

(** C9.  The page filter deletes white space first and [&nbsp;] second,
    so a page whose code units form [&nbsp;] entities only once its white
    space is gone is discarded as well, as are the pages ["& nbsp;"] and
    ["&nb sp;"]; in the other order ["& nbsp;"] would be kept. *)
Theorem filter_strips_spaces_first :
  (forall page n,
     filter not_space page = nbsp_run n -> keep_page page = false)
  /\ splitIntoPages (js "& nbsp;") = []
  /\ splitIntoPages (js "&nb sp;") = []
  /\ replace_all flags_g re_spaces []
       (replace_all flags_g re_nbsp [] (js "& nbsp;")) = nbsp.
Proof.
  split.
  - intros page n H. apply keep_page_spec. now exists n.
  - repeat split; vm_compute; reflexivity.
Qed.

Lemma filter_strips_spaces_first_witness :
  filter not_space (js "& nbsp;") = nbsp_run 1
  /\ keep_page (js "& nbsp;") = false.
Proof.
  split; [reflexivity|].
  apply (proj1 filter_strips_spaces_first (js "& nbsp;") 1). reflexivity.
Defined.

(** C10.  Removing a rule line empties the line and keeps the line
    terminators around it: ["a\n---\nb"] normalises to ["a\n\nb"], not to
    ["a\nb"].  For every text, step 2 is the text with the content of its
    rule lines deleted, line by line, and its sequence of line terminators
    is the one of the text. *)
Theorem rule_line_leaves_empty_line :
  normalizeMarkdown (js "a" ++ [LF] ++ js "---" ++ [LF] ++ js "b")
  = js "a" ++ [LF; LF] ++ js "b"
  /\ normalizeMarkdown (js "a" ++ [LF] ++ js "---" ++ [LF] ++ js "b")
     <> js "a" ++ [LF] ++ js "b"
  /\ (forall s,
        strip_rules s = join_lines (map_lines clear_rule (split_lines s)))
  /\ (forall s,
        filter isLineTerminator (strip_rules s)
        = filter isLineTerminator s).
Proof.
  split; [vm_compute; reflexivity|].
  split; [vm_compute; discriminate|].
  split; [exact strip_rules_lines|exact strip_rules_terminators].
Qed.

(** * Further properties of the code *)

(** ** [normalizeMarkdown] as a whole *)

Lemma normalize_join s :
  normalizeMarkdown s
  = join_lines
      (double_lines (map_lines clear_rule (split_lines (strip_marks s)))).
Proof.
  unfold normalizeMarkdown.
  rewrite space_chapters_spec, (strip_rules_lines (strip_marks s)).
  apply double_breaks_join, map_lines_wf;
    [exact clear_rule_plain|apply split_lines_wf].
Qed.

Lemma normalize_wf s :
  lines_wf (double_lines (map_lines clear_rule (split_lines (strip_marks s)))).
Proof.
  apply double_lines_wf, map_lines_wf;
    [exact clear_rule_plain|apply split_lines_wf].
Qed.

Lemma split_join_wf d : lines_wf d -> split_lines (join_lines d) = d.
Proof. destruct d as [l tl]. apply split_join. Qed.

Lemma clear_rule_fixed l : clear_rule l = l <-> is_rule_line l = false.
Proof.
  unfold clear_rule. destruct (is_rule_line l) eqn:E.
  - split; [|discriminate]. intros <-. now rewrite is_rule_line_nil in E.
  - now split.
Qed.

Lemma rule_free_lines d :
  rule_free d <-> Forall (fun l => is_rule_line l = false) (lines_of d).
Proof.
  unfold rule_free, lines_of. rewrite Forall_cons_iff, Forall_map.
  rewrite clear_rule_fixed.
  split; intros [H1 H2]; (split; [exact H1|]);
    revert H2; apply Forall_impl; intros p; apply clear_rule_fixed.
Qed.

Lemma normalize_rule_free s : rule_free (split_lines (normalizeMarkdown s)).
Proof.
  rewrite normalize_join, split_join_wf by apply normalize_wf.
  apply double_lines_rule_free, map_lines_rule_free.
Qed.

Lemma strip_rules_fixed s :
  rule_free (split_lines s) -> strip_rules s = s.
Proof.
  intros H. rewrite <- (join_split s) at 1 2.
  apply strip_rules_rule_free; [apply split_lines_wf|exact H].
Qed.

Lemma strip_marks_fixed s :
  Forall (fun c => is_mark c = false) s -> strip_marks s = s.
Proof.
  intros H. rewrite strip_marks_filter. apply filter_id.
  revert H. apply Forall_impl. intros c ->. reflexivity.
Qed.

Lemma normalize_mark_free s :
  Forall (fun c => is_mark c = false) (normalizeMarkdown s).
Proof.
  assert (H := normalize_unmarked s). revert H. apply Forall_impl.
  intros c H. now apply negb_true_iff in H.
Qed.

(** A text that steps 1 and 2 leave alone is normalised by step 3 alone,
    and step 3 gives such a text again. *)
Lemma settled_normalize u :
  Forall (fun c => is_mark c = false) u -> rule_free (split_lines u) ->
  normalizeMarkdown u = double_breaks u.
Proof.
  intros Hm Hr. unfold normalizeMarkdown.
  now rewrite strip_marks_fixed, strip_rules_fixed, space_chapters_spec.
Qed.

Lemma settled_double u :
  Forall (fun c => is_mark c = false) u -> rule_free (split_lines u) ->
  Forall (fun c => is_mark c = false) (double_breaks u)
  /\ rule_free (split_lines (double_breaks u)).
Proof.
  intros Hm Hr. split.
  - apply double_breaks_Forall; [reflexivity|exact Hm].
  - rewrite <- (join_split u) at 1.
    rewrite double_breaks_join by apply split_lines_wf.
    rewrite split_join_wf by apply double_lines_wf, split_lines_wf.
    now apply double_lines_rule_free.
Qed.

Lemma double_breaks_count s :
  length (double_breaks s) = length s + count_breaks s.
Proof.
  induction s as [|c s IH]; [reflexivity|].
  cbn [double_breaks count_breaks].
  destruct ((c =? LF)%N && starts_with chapter_token s); simpl length; lia.
Qed.

Lemma count_breaks_double s :
  count_breaks (double_breaks s) = count_breaks s.
Proof.
  induction s as [|c s IH]; [reflexivity|].
  cbn [double_breaks count_breaks].
  destruct ((c =? LF)%N && starts_with chapter_token s) eqn:E.
  - apply andb_true_iff in E. destruct E as [Ec Es].
    cbn [count_breaks].
    rewrite (starts_with_double _ token_no_LF), Es, IH.
    replace (starts_with chapter_token (LF :: double_breaks s)) with false
      by reflexivity.
    rewrite andb_false_r. change ((LF =? LF)%N) with true. simpl. lia.
  - cbn [count_breaks].
    rewrite (starts_with_double _ token_no_LF), E, IH. reflexivity.
Qed.

Lemma normalize_iter_double n : forall u,
  Forall (fun c => is_mark c = false) u -> rule_free (split_lines u) ->
  Nat.iter n normalizeMarkdown u = Nat.iter n double_breaks u
  /\ Forall (fun c => is_mark c = false) (Nat.iter n double_breaks u)
  /\ rule_free (split_lines (Nat.iter n double_breaks u)).
Proof.
  induction n as [|n IH]; intros u Hm Hr;
    [split; [reflexivity|split; assumption]|].
  destruct (IH u Hm Hr) as (E & Hm' & Hr'). rewrite !Nat.iter_succ.
  rewrite E. split; [now apply settled_normalize|].
  now apply settled_double.
Qed.

Lemma iter_double_length n u :
  length (Nat.iter n double_breaks u) = length u + n * count_breaks u
  /\ count_breaks (Nat.iter n double_breaks u) = count_breaks u.
Proof.
  induction n as [|n [IH1 IH2]]; [simpl; lia|].
  rewrite !Nat.iter_succ.
  rewrite double_breaks_count, count_breaks_double, IH1, IH2. lia.
Qed.

(** X1.  The three steps of [normalizeMarkdown] together, line by line:
    the result is the source without its U+FEFF and U+200B, with every
    rule line emptied and with an empty line put before every line that
    follows a line feed and starts with the chapter token.  No line is
    removed or joined with another one. *)
Theorem normalize_line_by_line (s : jsstring) :
  normalizeMarkdown s
  = join_lines
      (double_lines (map_lines clear_rule (split_lines (strip_marks s))))
  /\ split_lines (normalizeMarkdown s)
     = double_lines (map_lines clear_rule (split_lines (strip_marks s))).
Proof.
  split; [apply normalize_join|].
  rewrite normalize_join. apply split_join_wf, normalize_wf.
Qed.

(** X2.  No line of a normalised text is a rule line, so removing rule
    lines again changes nothing: neither the removal of U+FEFF and U+200B
    before step 2 nor the line feeds added after it leave one behind. *)
Theorem normalize_leaves_no_rule_line (s : jsstring) :
  Forall (fun l => is_rule_line l = false)
         (lines_of (split_lines (normalizeMarkdown s)))
  /\ strip_rules (normalizeMarkdown s) = normalizeMarkdown s.
Proof.
  split.
  - apply rule_free_lines, normalize_rule_free.
  - apply strip_rules_fixed, normalize_rule_free.
Qed.

(** X3.  The texts that [normalizeMarkdown] returns unchanged are exactly
    those with no U+FEFF or U+200B, no rule line, and no line feed
    directly before the chapter token. *)
Theorem normalize_fixed_points (s : jsstring) :
  normalizeMarkdown s = s
  <-> Forall (fun c => is_mark c = false) s
      /\ Forall (fun l => is_rule_line l = false) (lines_of (split_lines s))
      /\ has_break s = false.
Proof.
  rewrite <- rule_free_lines. split.
  - intros E.
    assert (Hm : Forall (fun c => is_mark c = false) s)
      by (rewrite <- E; apply normalize_mark_free).
    assert (Hr : rule_free (split_lines s))
      by (rewrite <- E; apply normalize_rule_free).
    split; [exact Hm|]. split; [exact Hr|].
    rewrite (settled_normalize s Hm Hr) in E.
    destruct (has_break s) eqn:H; [|reflexivity].
    apply double_breaks_longer in H. rewrite E in H. lia.
  - intros (Hm & Hr & Hb).
    rewrite (settled_normalize s Hm Hr). now apply double_breaks_id.
Qed.

Lemma normalize_fixed_points_witness :
  (Forall (fun c => is_mark c = false) (js "a" ++ [LF] ++ js "-- b")
   /\ Forall (fun l => is_rule_line l = false)
        (lines_of (split_lines (js "a" ++ [LF] ++ js "-- b")))
   /\ has_break (js "a" ++ [LF] ++ js "-- b") = false)
  /\ normalizeMarkdown (js "a" ++ [LF] ++ js "-- b")
     = js "a" ++ [LF] ++ js "-- b".
Proof.
  assert (H : Forall (fun c => is_mark c = false) (js "a" ++ [LF] ++ js "-- b")
              /\ Forall (fun l => is_rule_line l = false)
                   (lines_of (split_lines (js "a" ++ [LF] ++ js "-- b")))
              /\ has_break (js "a" ++ [LF] ++ js "-- b") = false).
  { split; [repeat constructor|].
    split; [vm_compute; repeat constructor|reflexivity]. }
  split; [exact H|].
  exact (proj2 (normalize_fixed_points _) H).
Defined.

(** X4.  Normalising again and again makes the text grow: after the first
    pass, every further pass is step 3 alone and adds exactly one line
    feed for every line feed that the chapter token follows. *)
Theorem normalize_again_grows (n : nat) (s : jsstring) :
  Nat.iter n normalizeMarkdown (normalizeMarkdown s)
  = Nat.iter n double_breaks (normalizeMarkdown s)
  /\ length (Nat.iter n normalizeMarkdown (normalizeMarkdown s))
     = length (normalizeMarkdown s)
       + n * count_breaks (normalizeMarkdown s).
Proof.
  destruct (normalize_iter_double n (normalizeMarkdown s)
              (normalize_mark_free s) (normalize_rule_free s)) as (E & _).
  split; [exact E|]. rewrite E. apply iter_double_length.
Qed.

(** X5.  [normalizeMarkdown] writes nothing but line feeds: every code
    unit of the result is a code unit of the source or a line feed. *)
Theorem normalize_adds_line_feeds_only (s : jsstring) :
  Forall (fun c => In c s \/ c = LF) (normalizeMarkdown s).
Proof.
  apply normalize_Forall; [now right|].
  rewrite strip_marks_filter. apply Forall_forall.
  intros x Hx. apply filter_In in Hx. now left.
Qed.

(** ** The pages of [splitIntoPages], continued *)

(** X6.  A text is split at each of its markers and the segments keep
    the order of the text: for texts [a], [b1], ..., [bn] without [<div]
    with a marker before every [bi], the segments are [a], [b1], ...,
    [bn], and the pages are those of them that the filter keeps,
    trimmed. *)
Theorem split_between_markers (a : jsstring)
    (l : list (jsstring * jsstring)) :
  divless a ->
  Forall (fun e => marker (fst e) /\ divless (snd e)) l ->
  split flags_gi re_break (interleave a l) = a :: map snd l
  /\ splitIntoPages (interleave a l)
     = filter keep_page (map trim (a :: map snd l)).
Proof.
  intros Ha Hl. unfold splitIntoPages.
  now rewrite (split_interleave l a Ha Hl).
Qed.

Lemma split_between_markers_witness :
  divless (js "one ")
  /\ Forall (fun e => marker (fst e) /\ divless (snd e))
       [(marker_sq, js " two "); (marker_dq, [LF]);
        (marker_dq_semi, js "three")]
  /\ splitIntoPages
       (interleave (js "one ")
          [(marker_sq, js " two "); (marker_dq, [LF]);
           (marker_dq_semi, js "three")])
     = [js "one"; js "two"; js "three"].
Proof.
  assert (Ha : divless (js "one ")) by reflexivity.
  assert (Hl : Forall (fun e => marker (fst e) /\ divless (snd e))
                 [(marker_sq, js " two "); (marker_dq, [LF]);
                  (marker_dq_semi, js "three")]).
  { constructor; [split; [|reflexivity]|].
    { apply (marker_form_marker SQUOTE [] [] []);
        [reflexivity|constructor..]. }
    constructor; [split; [|reflexivity]|].
    { apply (marker_form_marker DQUOTE [] (js " ") []);
        [reflexivity|repeat constructor..]. }
    constructor; [split; [|reflexivity]|constructor].
    apply (marker_form_marker DQUOTE [] (js " ") (js ";"));
      [reflexivity|repeat constructor..]. }
  split; [exact Ha|]. split; [exact Hl|].
  rewrite (proj2 (split_between_markers _ _ Ha Hl)). reflexivity.
Defined.

(** X7.  No marker is left in a page: the page-break pattern matches
    nowhere in a page of [splitIntoPages], so no text that the pattern
    matches wherever it stands, as a well-formed marker, is part of a
    page. *)
Theorem pages_hold_no_marker (s p : jsstring) :
  In p (splitIntoPages s) ->
  has_marker p = false
  /\ forall a M b, marker M -> p <> a ++ M ++ b.
Proof.
  intros Hp. assert (U := pages_unmarked_parts s).
  rewrite Forall_forall in U. specialize (U p Hp).
  split; [exact U|]. intros a M b HM E.
  rewrite E, (marker_found a M b HM) in U. discriminate.
Qed.

Lemma pages_hold_no_marker_witness :
  In (js "B") (splitIntoPages (js "A" ++ marker_sq ++ js " B"))
  /\ has_marker (js "B") = false.
Proof.
  assert (H : In (js "B") (splitIntoPages (js "A" ++ marker_sq ++ js " B")))
    by (vm_compute; right; left; reflexivity).
  split; [exact H|].
  exact (proj1 (pages_hold_no_marker _ _ H)).
Defined.

(** X8.  Every page of [splitIntoPages] is trimmed and has text: its
    first and its last code unit are not white space, trimming it again
    changes nothing, and it is not empty. *)
Theorem pages_are_trimmed (s p : jsstring) :
  In p (splitIntoPages s) ->
  trim p = p
  /\ (exists c, In c p /\ isSpace c = false)
  /\ (forall c r, p = c :: r -> isSpace c = false)
  /\ (forall r c, p = r ++ [c] -> isSpace c = false).
Proof.
  intros Hp. assert (T := page_trimmed s p Hp).
  split; [exact T|].
  split; [apply kept_has_text, (page_kept s p Hp)|].
  split.
  - intros c r E. assert (H := trim_head p). now rewrite T, E in H.
  - intros r c E. apply (trim_last p r). now rewrite T.
Qed.

Lemma pages_are_trimmed_witness :
  In (js "B b") (splitIntoPages (js "A" ++ marker_sq ++ js " B b "))
  /\ trim (js "B b") = js "B b".
Proof.
  assert (H : In (js "B b")
                (splitIntoPages (js "A" ++ marker_sq ++ js " B b ")))
    by (vm_compute; right; left; reflexivity).
  split; [exact H|].
  exact (proj1 (pages_are_trimmed _ _ H)).
Defined.

(** X9.  Paginating a page gives that page alone, so paginating every
    page of a result gives the result again. *)
Theorem pages_split_to_themselves (s : jsstring) :
  Forall (fun p => splitIntoPages p = [p]) (splitIntoPages s)
  /\ flat_map splitIntoPages (splitIntoPages s) = splitIntoPages s.
Proof.
  assert (H : Forall (fun p => splitIntoPages p = [p]) (splitIntoPages s)).
  { apply Forall_forall. intros p Hp. now apply (page_again s). }
  split; [exact H|now apply flat_map_single].
Qed.

(** X10.  The pages are parts of the source text that do not overlap,
    and they come in the order of the text: pagination only cuts text
    out, it neither writes nor reorders. *)
Theorem pages_in_source_order (s : jsstring) :
  pieces (split flags_gi re_break s) s
  /\ pieces (splitIntoPages s) s
  /\ Forall (fun p => exists a b, s = a ++ p ++ b) (splitIntoPages s).
Proof.
  assert (H : pieces (splitIntoPages s) s).
  { unfold splitIntoPages. apply pieces_filter, pieces_map.
    - intros p. destruct (trim_parts p) as (a & b & E & _). now exists a, b.
    - apply split_pieces. }
  split; [apply split_pieces|]. split; [exact H|].
  apply Forall_forall. intros p Hp. now apply (pieces_In _ _ _ H).
Qed.

(** X11.  The memoised pages of [App] see the text only through
    [normalizeMarkdown]: no page holds a U+FEFF or a U+200B, and two
    documents that differ only in these code units, wherever they stand
    (inside a marker too), have the same pages. *)
Theorem pages_ignore_marks :
  (forall m, Forall (Forall (fun c => is_mark c = false)) (pages m))
  /\ (forall m1 m2,
        filter (fun c => negb (is_mark c)) m1
        = filter (fun c => negb (is_mark c)) m2 ->
        pages m1 = pages m2).
Proof.
  split.
  - intros m. apply Forall_forall. intros p Hp. unfold pages in Hp.
    assert (H : pieces (splitIntoPages (normalizeMarkdown m))
                       (normalizeMarkdown m)).
    { unfold splitIntoPages. apply pieces_filter, pieces_map.
      - intros q. destruct (trim_parts q) as (a & b & E & _).
        now exists a, b.
      - apply split_pieces. }
    destruct (pieces_In _ _ _ H Hp) as (a & b & E).
    assert (F := normalize_mark_free m). rewrite E in F.
    apply Forall_app in F. destruct F as [_ F].
    apply Forall_app in F. now destruct F.
  - intros m1 m2 E. unfold pages, normalizeMarkdown.
    now rewrite !strip_marks_filter, E.
Qed.

Lemma pages_ignore_marks_witness :
  filter (fun c => negb (is_mark c))
    ([BOM] ++ js "a<div" ++ [ZWSP]
     ++ js " style='page-break-after:always'></div>b")
  = filter (fun c => negb (is_mark c))
      (js "a<div style='page-break-after:always'></div>b")
  /\ pages ([BOM] ++ js "a<div" ++ [ZWSP]
            ++ js " style='page-break-after:always'></div>b")
     = pages (js "a<div style='page-break-after:always'></div>b").
Proof.
  assert (H : filter (fun c => negb (is_mark c))
                ([BOM] ++ js "a<div" ++ [ZWSP]
                 ++ js " style='page-break-after:always'></div>b")
              = filter (fun c => negb (is_mark c))
                  (js "a<div style='page-break-after:always'></div>b"))
    by (vm_compute; reflexivity).
  split; [exact H|].
  exact (proj2 pages_ignore_marks _ _ H).
Defined.

(** X12.  The page filter keeps every page that holds a code unit which
    is neither white space nor one of the characters of [&nbsp;], and
    every page it keeps holds a code unit that is not white space. *)
Theorem filter_keeps_text (page : jsstring) :
  (forall c, In c page -> isSpace c = false -> ~ In c nbsp ->
             keep_page page = true)
  /\ (keep_page page = true -> exists c, In c page /\ isSpace c = false).
Proof.
  split; [|apply kept_has_text].
  intros c Hc Hs Hn. destruct (keep_page page) eqn:K; [reflexivity|].
  apply keep_page_spec in K. destruct K as [n K].
  exfalso. apply Hn, (nbsp_run_In c n). rewrite <- K.
  apply filter_In. split; [exact Hc|]. unfold not_space. now rewrite Hs.
Qed.

Lemma filter_keeps_text_witness :
  In (chr "x") (js " x;") /\ isSpace (chr "x") = false
  /\ ~ In (chr "x") nbsp /\ keep_page (js " x;") = true.
Proof.
  assert (Hc : In (chr "x") (js " x;")) by (right; left; reflexivity).
  assert (Hs : isSpace (chr "x") = false) by reflexivity.
  assert (Hn : ~ In (chr "x") nbsp).
  { intros H. repeat (destruct H as [H|H]; [discriminate|]). destruct H. }
  split; [exact Hc|]. split; [exact Hs|]. split; [exact Hn|].
  exact (proj1 (filter_keeps_text _) _ Hc Hs Hn).
Defined.

(** X18.  A text is split exactly when the page-break pattern matches
    somewhere in it: [split] returns the text as its one segment if and
    only if the text has no marker, and no segment that [split] returns
    has a marker. *)
Theorem split_iff_marker (s : jsstring) :
  (split flags_gi re_break s = [s] <-> has_marker s = false)
  /\ Forall (fun p => has_marker p = false) (split flags_gi re_break s).
Proof.
  assert (H := split_unmarked_parts s).
  split; [|exact H]. split; [|apply split_unmarked].
  intros E. rewrite E in H. now apply Forall_inv in H.
Qed.

(** ** The sheets of the view *)

Lemma sheets_from_content all rest : forall index,
  map content (sheets_from index all rest) = rest.
Proof.
  induction rest as [|p rest IH]; intros index; [reflexivity|].
  simpl. now rewrite IH.
Qed.

Lemma sheets_from_number all rest : forall index,
  map number (sheets_from index all rest)
  = map Z.of_nat (seq (S index) (length rest)).
Proof.
  induction rest as [|p rest IH]; intros index; [reflexivity|].
  cbn [sheets_from map number length seq]. rewrite IH. f_equal. lia.
Qed.

Lemma sheets_from_total all rest : forall index,
  Forall (fun sh => total sh = Z.of_nat (length all))
         (sheets_from index all rest).
Proof.
  induction rest as [|p rest IH]; intros index; constructor;
    [reflexivity|apply IH].
Qed.

(** X13.  The page labels: the sheets show the pages in their order,
    one sheet for a page, the sheets are numbered 1, 2, ... and each
    label gives the number of pages as the total. *)
Theorem sheets_numbered (ps : list jsstring) :
  map content (sheets ps) = ps
  /\ map number (sheets ps) = map Z.of_nat (seq 1 (length ps))
  /\ Forall (fun sh => total sh = Z.of_nat (length ps)) (sheets ps).
Proof.
  split; [apply sheets_from_content|].
  split; [apply sheets_from_number|apply sheets_from_total].
Qed.

(** X14.  A page-break element follows every sheet except the last one:
    for one page or more there is one break less than there are pages,
    and none after the last sheet. *)
Theorem break_after_all_but_last (ps : list jsstring) :
  map break_after (sheets ps)
  = match ps with
    | [] => []
    | _ :: ps' => repeat true (length ps') ++ [false]
    end.
Proof.
  unfold sheets.
  assert (G : forall rest index,
            index + length rest = length ps ->
            map break_after (sheets_from index ps rest)
            = match rest with
              | [] => []
              | _ :: rest' => repeat true (length rest') ++ [false]
              end).
  { induction rest as [|p rest IH]; intros index E; [reflexivity|].
    cbn [sheets_from map break_after]. cbn [length] in E.
    rewrite (IH (S index)) by (simpl; lia).
    destruct rest as [|q rest].
    - simpl in E. simpl. f_equal. apply Z.ltb_ge. lia.
    - cbn [length] in E. cbn [length repeat app]. f_equal.
      apply Z.ltb_lt. lia. }
  now apply G.
Qed.

(** X15.  The prompt to pick a file is shown for the empty string only.
    A document that is not empty but made of white space has no page: the
    view is then the paper with no sheet on it, neither the prompt nor a
    page. *)
Theorem blank_document_view (markdown : jsstring) :
  (content_view markdown = Prompt <-> markdown = [])
  /\ (markdown <> [] ->
      Forall (fun c => isSpace c = true) markdown ->
      pages markdown = [] /\ content_view markdown = Paper []).
Proof.
  split.
  - destruct markdown; split; try reflexivity; discriminate.
  - intros Hm Hs.
    assert (E : pages markdown = [])
      by (apply pages_blank, normalize_blank, Hs).
    split; [exact E|].
    destruct markdown as [|c m]; [congruence|].
    unfold content_view. now rewrite E.
Qed.

Lemma blank_document_view_witness :
  [chr " "; LF; BOM; TAB] <> []
  /\ Forall (fun c => isSpace c = true) [chr " "; LF; BOM; TAB]
  /\ content_view [chr " "; LF; BOM; TAB] = Paper [].
Proof.
  assert (Hm : [chr " "; LF; BOM; TAB] <> []) by discriminate.
  assert (Hs : Forall (fun c => isSpace c = true) [chr " "; LF; BOM; TAB])
    by (repeat constructor).
  split; [exact Hm|]. split; [exact Hs|].
  exact (proj2 (proj2 (blank_document_view _) Hm Hs)).
Defined.

(** ** Letter case *)

Lemma canonicalize_twice c :
  canonicalize true (canonicalize true c) = canonicalize true c.
Proof.
  unfold canonicalize. cbn [andb].
  destruct (N.leb_spec 0x61 c); cbn [andb]; [|now rewrite (proj2 (N.leb_gt _ _))].
  destruct (N.leb_spec c 0x7A); [|].
  - replace (0x61 <=? c - 0x20)%N with false; [reflexivity|].
    symmetry. apply N.leb_gt. lia.
  - rewrite (proj2 (N.leb_le _ _)) by lia. cbn [andb].
    now rewrite (proj2 (N.leb_gt _ _)).
Qed.

Lemma canonicalize_cases c :
  canonicalize true c = c
  \/ ((0x61 <= c <= 0x7A)%N /\ canonicalize true c = (c - 0x20)%N).
Proof.
  unfold canonicalize. cbn [andb].
  destruct (N.leb_spec 0x61 c); cbn [andb]; [|now left].
  destruct (N.leb_spec c 0x7A); [right|now left]. split; [lia|reflexivity].
Qed.

Lemma letter_not_terminator c :
  (0x41 <= c <= 0x7A)%N -> isLineTerminator c = false.
Proof.
  intros H. unfold isLineTerminator.
  repeat match goal with
         | |- context [(c =? ?k)%N] =>
             rewrite (proj2 (N.eqb_neq c k)) by lia
         end.
  reflexivity.
Qed.

Lemma letter_not_space c : (0x41 <= c <= 0x7A)%N -> isSpace c = false.
Proof.
  intros H. unfold isSpace. rewrite (letter_not_terminator c H).
  unfold isWhiteSpace.
  repeat match goal with
         | |- context [(c =? ?k)%N] =>
             rewrite (proj2 (N.eqb_neq c k)) by lia
         end.
  rewrite (proj2 (N.leb_gt 0x2000 c)) by lia. reflexivity.
Qed.

Lemma canon_terminator c :
  isLineTerminator (canonicalize true c) = isLineTerminator c.
Proof.
  destruct (canonicalize_cases c) as [->|[H ->]]; [reflexivity|].
  now rewrite !letter_not_terminator by lia.
Qed.

Lemma canon_space c : isSpace (canonicalize true c) = isSpace c.
Proof.
  destruct (canonicalize_cases c) as [->|[H ->]]; [reflexivity|].
  now rewrite !letter_not_space by lia.
Qed.

Lemma atom_test_upper a c :
  atom_test true a (canonicalize true c) = atom_test true a c.
Proof. unfold atom_test. now rewrite canonicalize_twice. Qed.

Lemma line_start_upper fl pre :
  line_start fl (upper pre) = line_start fl pre.
Proof.
  destruct pre as [|p pre]; [reflexivity|].
  simpl. now rewrite canon_terminator.
Qed.

Lemma line_end_upper fl rest : line_end fl (upper rest) = line_end fl rest.
Proof.
  destruct rest as [|p rest]; [reflexivity|].
  simpl. now rewrite canon_terminator.
Qed.

Lemma upper_length s : length (upper s) = length s.
Proof. apply length_map. Qed.

Lemma matched_upper x x' y y' :
  folded x x' -> folded y y' -> matched x' y' = upper (matched x y).
Proof.
  intros (X & _) (Y & _). unfold matched, endIndex, upper in *.
  rewrite X, Y, !length_map, firstn_map. symmetry. apply map_rev.
Qed.

Lemma repeat_matcher_upper test caps caps' c c' :
  (forall ch, test (canonicalize true ch) = test ch) ->
  caps' = map (fun p => (fst p, upper (snd p))) caps ->
  folding c c' ->
  forall rest min pre,
  folded_result
    (repeat_matcher test min pre rest caps c)
    (repeat_matcher test min (upper pre) (upper rest) caps' c').
Proof.
  intros Ht Hcaps Hc.
  assert (Hstop : forall rest min pre,
    folded_result
      match min with
      | O => c (mkState pre rest caps)
      | S _ => None
      end
      match min with
      | O => c' (mkState (upper pre) (upper rest) caps')
      | S _ => None
      end).
  { intros rest [|min] pre; [|exact I]. apply Hc. now repeat split. }
  unfold upper in Hstop |- *.
  induction rest as [|x rest IH]; intros min pre.
  - apply Hstop.
  - cbn [map repeat_matcher]. rewrite Ht.
    destruct (test x); [|apply (Hstop (x :: rest))].
    specialize (IH (Nat.pred min) (x :: pre)).
    cbn [map] in IH.
    destruct (repeat_matcher test (Nat.pred min) (x :: pre) rest caps c);
      destruct (repeat_matcher test (Nat.pred min)
                  (canonicalize true x :: map (canonicalize true) pre)
                  (map (canonicalize true) rest) caps' c');
      try contradiction.
    + exact IH.
    + apply (Hstop (x :: rest)).
Qed.

(** With the flag [i] the matcher does the same on a text and on the
    text in upper case. *)
Lemma matcher_upper fl r :
  ignoreCase fl = true ->
  forall x x' c c',
  folded x x' -> folding c c' ->
  folded_result (matcher fl r x c) (matcher fl r x' c').
Proof.
  intros Hi.
  induction r as [|a|min a| | |r1 IH1 r2 IH2|r1 IH1 r2 IH2|n r IH];
    intros x x' c c' Hx Hc; simpl.
  - now apply Hc.
  - destruct Hx as (X1 & X2 & X3). rewrite X1, X2, X3, Hi.
    destruct (remaining x) as [|ch rest]; [exact I|].
    cbn [upper map]. rewrite atom_test_upper.
    destruct (atom_test true a ch); [|exact I].
    apply Hc. now repeat split.
  - destruct Hx as (X1 & X2 & X3). rewrite X1, X2, Hi.
    apply repeat_matcher_upper; auto. apply atom_test_upper.
  - destruct Hx as (X1 & X2 & X3). rewrite X1, line_start_upper.
    destruct (line_start fl (consumed x)); [|exact I].
    apply Hc. now repeat split.
  - destruct Hx as (X1 & X2 & X3). rewrite X2, line_end_upper.
    destruct (line_end fl (remaining x)); [|exact I].
    apply Hc. now repeat split.
  - apply IH1; auto. intros y y' Hy. now apply IH2.
  - specialize (IH1 x x' c c' Hx Hc).
    destruct (matcher fl r1 x c); destruct (matcher fl r1 x' c');
      try contradiction; [exact IH1|].
    now apply IH2.
  - apply IH; auto. intros y y' Hy. apply Hc.
    destruct Hy as (Y1 & Y2 & Y3). repeat split; cbn; auto.
    rewrite Y3. f_equal. f_equal. apply matched_upper; [exact Hx|].
    now repeat split.
Qed.

Lemma exec_at_upper fl r pre rest :
  ignoreCase fl = true ->
  folded_result (exec_at fl r pre rest)
                (exec_at fl r (upper pre) (upper rest)).
Proof.
  intros Hi. unfold exec_at. apply matcher_upper; auto.
  - now repeat split.
  - intros y y' Hy. exact Hy.
Qed.

Lemma split_scan_upper fl r :
  ignoreCase fl = true ->
  forall rest seg pre skip,
  split_scan fl r (upper seg) (upper pre) (upper rest) skip
  = map upper (split_scan fl r seg pre rest skip).
Proof.
  intros Hi. assert (Ex := exec_at_upper fl r). unfold upper in Ex |- *.
  induction rest as [|ch rest IH]; intros seg pre skip.
  - simpl. now rewrite map_rev.
  - assert (IH' := fun seg k => IH seg (ch :: pre) k).
    cbn [map] in IH'.
    destruct skip as [|k]; [|cbn [map split_scan]; apply IH'].
    cbn [map]. rewrite !split_scan_cons.
    assert (E := Ex pre (ch :: rest) Hi).
    cbn [map] in E.
    destruct (exec_at fl r pre (ch :: rest)) as [y|];
      destruct (exec_at fl r (map (canonicalize true) pre)
                  (canonicalize true ch :: map (canonicalize true) rest))
        as [y'|];
      try contradiction.
    + destruct E as (Y1 & _). unfold endIndex, upper in *.
      rewrite Y1, !length_map.
      destruct (length (consumed y) - length pre).
      * destruct seg as [|c0 seg].
        -- apply (IH' [ch]).
        -- cbn [map]. f_equal; [|apply (IH' [ch])].
           symmetry. apply (map_rev (canonicalize true) (c0 :: seg)).
      * cbn [map]. f_equal; [|apply (IH' [])].
        symmetry. apply (map_rev (canonicalize true) seg).
    + apply (IH' (ch :: seg)).
Qed.

Lemma matches_from_upper fl r :
  ignoreCase fl = true ->
  forall rest pre,
  matches_from fl r (upper pre) (upper rest) = matches_from fl r pre rest.
Proof.
  intros Hi. assert (Ex := exec_at_upper fl r). unfold upper in Ex |- *.
  induction rest as [|ch rest IH]; intros pre.
  - cbn [map matches_from].
    assert (E := Ex pre [] Hi). cbn [map] in E.
    destruct (exec_at fl r pre []);
      destruct (exec_at fl r (map (canonicalize true) pre) []);
      try contradiction; reflexivity.
  - cbn [map matches_from].
    assert (E := Ex pre (ch :: rest) Hi).
    cbn [map] in E.
    destruct (exec_at fl r pre (ch :: rest));
      destruct (exec_at fl r (map (canonicalize true) pre)
                  (canonicalize true ch :: map (canonicalize true) rest));
      try contradiction; [reflexivity|].
    apply (IH (ch :: pre)).
Qed.

(** X16.  The flag [i] of the page-break pattern: the letter case of the
    text plays no part in where it is split.  The text in upper case has
    a marker exactly when the text has one, and its segments are the
    segments of the text in upper case. *)
Theorem split_ignores_case (s : jsstring) :
  has_marker (upper s) = has_marker s
  /\ split flags_gi re_break (upper s)
     = map upper (split flags_gi re_break s).
Proof.
  split.
  - apply (matches_from_upper flags_gi re_break eq_refl s []).
  - rewrite !split_break.
    apply (split_scan_upper flags_gi re_break eq_refl s [] [] 0).
Qed.

(** ** The literal parts of the page-break pattern *)

(** The text of a match holds the five literal parts of the pattern, in
    some letter case. *)
Lemma break_has_literals pre rest y p :
  In p [js "<div"; js "style="; property_colon; js "always"; js "></div>"] ->
  exec_at flags_gi re_break pre rest = Some y ->
  occurs_ci p rest = true.
Proof.
  intros Hp E. apply exec_at_sound, break_match_shape in E.
  cbn [remaining] in E.
  destruct E as (k1 & s1 & g1 & k2 & a1 & v1 & k3 & s2 & k4 & v2 & a2 & g2
                 & k5 & -> & K1 & _ & _ & _ & K2 & _ & _ & K3 & _ & K4 & _
                 & _ & _ & K5).
  destruct Hp as [<-|[<-|[<-|[<-|[<-|[]]]]]].
  - now apply occurs_ci_head, same_ci_starts.
  - do 3 apply occurs_ci_app. now apply occurs_ci_head, same_ci_starts.
  - do 4 apply occurs_ci_app. apply (occurs_ci_app _ [a1]).
    apply occurs_ci_app. now apply occurs_ci_head, same_ci_starts.
  - do 4 apply occurs_ci_app. apply (occurs_ci_app _ [a1]).
    do 3 apply occurs_ci_app. now apply occurs_ci_head, same_ci_starts.
  - do 4 apply occurs_ci_app. apply (occurs_ci_app _ [a1]).
    do 5 apply occurs_ci_app. apply (occurs_ci_app _ [a2]).
    apply occurs_ci_app. now apply occurs_ci_head, same_ci_starts.
Qed.

Lemma unmarked_without_literal p rest : forall pre,
  In p [js "<div"; js "style="; property_colon; js "always"; js "></div>"] ->
  occurs_ci p rest = false ->
  matches_from flags_gi re_break pre rest = false.
Proof.
  induction rest as [|c rest IH]; intros pre Hp H; cbn [matches_from].
  - now rewrite exec_break_nil.
  - destruct (exec_at flags_gi re_break pre (c :: rest)) eqn:E.
    + apply (break_has_literals _ _ _ p Hp) in E. congruence.
    + apply IH; [exact Hp|]. now apply occurs_ci_tail in H.
Qed.

(** X17.  A text is split only where all the literal parts of the
    pattern are: a text in which [<div], [style=], [page-break-after:],
    [always] or [></div>] occurs nowhere, in any letter case, has no
    marker and is one segment.  So a text whose only [div] has white
    space between its two tags is not split. *)
Theorem split_needs_every_literal (s p : jsstring) :
  In p [js "<div"; js "style="; property_colon; js "always"; js "></div>"] ->
  occurs_ci p s = false ->
  has_marker s = false /\ split flags_gi re_break s = [s].
Proof.
  intros Hp H.
  assert (U : has_marker s = false)
    by now apply (unmarked_without_literal p).
  split; [exact U|now apply split_unmarked].
Qed.

Lemma split_needs_every_literal_witness :
  In (js "></div>")
     [js "<div"; js "style="; property_colon; js "always"; js "></div>"]
  /\ occurs_ci (js "></div>")
       (js "a<div style='page-break-after:always'> </div>b") = false
  /\ split flags_gi re_break
       (js "a<div style='page-break-after:always'> </div>b")
     = [js "a<div style='page-break-after:always'> </div>b"].
Proof.
  assert (Hp : In (js "></div>")
                  [js "<div"; js "style="; property_colon; js "always";
                   js "></div>"])
    by (do 4 right; left; reflexivity).
  assert (H : occurs_ci (js "></div>")
                (js "a<div style='page-break-after:always'> </div>b")
              = false) by reflexivity.
  split; [exact Hp|]. split; [exact H|].
  exact (proj2 (split_needs_every_literal _ _ Hp H)).
Defined.
